(** * Distributed Jacobi solver (challenge_3, Solver.cpp): partition, scatter,
      halo exchange, convergence loop and gather.

    The embedding follows [Solver.cpp]:
    - [size_t] values are integers in [Z] with the wrap-around modulo 2^64
      written out ([wrap64]); [int] values are plain [Z];
    - [std::vector<double>] is a [list T] for an opaque sample type [T]
      (the solver never inspects a sample);
    - the [Mesh] object (header and implementation are not part of the
      sources) is a kernel interface, a record of operations;
    - MPI is modelled by its blocking semantics over the list of all ranks'
      buffers: a call that is erroneous for MPI or undefined for C++ has no
      result in the model ([None], [Abort]). The program checks no index:
      where the model has no result because an index lies outside a vector,
      the program has undefined behaviour, which need not stop it. *)

From Stdlib Require Import String Ascii DecimalString.
From Stdlib Require Import ZArith List Bool Lia FinFun.
Import ListNotations.
Local Open Scope Z_scope.

(** ** Machine integers *)

Module Int.

(** [size_t] arithmetic: every result is reduced modulo 2^64. *)
Definition wrap64 (z : Z) : Z := z mod 2 ^ 64.

(** Conversion of a [size_t] to the [int] count argument of an MPI call. *)
Definition int_of_size_t (z : Z) : Z := (z + 2 ^ 31) mod 2 ^ 32 - 2 ^ 31.

(** The values [lo, lo+1, ..., hi-1] of a [for (int p = lo; p < hi; ++p)]. *)
Definition range (lo hi : Z) : list Z :=
  map (fun k => lo + Z.of_nat k) (seq 0 (Z.to_nat (hi - lo))).

End Int.
Import Int.

(** ** Partition calculator: the arithmetic of [initial_communication] and
       [final_communication] *)

Module Partition.

(** [size_t expected_size = (rank == 0 or rank == size - 1)
                              ? n*n/size + n : n*n/size + 2*n;] *)
Definition expected_size (n size rank : Z) : Z :=
  if (rank =? 0) || (rank =? size - 1)
  then wrap64 (wrap64 (n * n) / wrap64 size + n)
  else wrap64 (wrap64 (n * n) / wrap64 size + wrap64 (2 * n)).

(** First element of the slice sent to [proc]:
    [&initial_mesh[(proc*n/size - 1)*n]]. *)
Definition send_offset (n size proc : Z) : Z :=
  wrap64 (wrap64 (wrap64 (wrap64 proc * n) / wrap64 size - 1) * n).

(** Where the block of a rank starts in the grid: rank 0 copies from
    element 0, every other rank gets the slice sent to it. *)
Definition slice_offset (n size rank : Z) : Z :=
  if rank =? 0 then 0 else send_offset n size rank.

(** One [MPI_Send] of the coordinator. *)
Record send := { dest : Z; buf_offset : Z; count : Z }.

(** The sends of rank 0 in [initial_communication], in program order: first
    the one to the last rank, then the loop over the inner ranks. Rank 0
    evaluates [expected_size] with its own rank. *)
Definition scatter_sends (n size : Z) : list send :=
  let expected := expected_size n size 0 in
  {| dest := size - 1;
     buf_offset := send_offset n size (size - 1);
     count := int_of_size_t expected |}
  :: map (fun proc =>
            {| dest := proc;
               buf_offset := send_offset n size proc;
               count := int_of_size_t (wrap64 (expected + n)) |})
         (range 1 (size - 1)).

(** The count of the [MPI_Recv] of a rank other than 0. *)
Definition recv_count (n size rank : Z) : Z :=
  int_of_size_t (expected_size n size rank).

(** Interior (non-halo) elements of a rank, as [final_communication] selects
    them from a local buffer of [expected_size] elements: rank 0 contributes
    from [&mesh[0]], every other rank from [&mesh[n]]; rank 0 and the last
    rank contribute [mesh.size() - n] elements, an inner rank
    [mesh.size() - 2n]. *)
Definition interior_local_offset (n rank : Z) : Z :=
  if rank =? 0 then 0 else n.

Definition interior_count (n size rank : Z) : Z :=
  if (rank =? 0) || (rank =? size - 1)
  then wrap64 (expected_size n size rank - n)
  else wrap64 (wrap64 (expected_size n size rank - n) - n).

(** The same elements as indexes of the global grid. *)
Definition interior_global_offset (n size rank : Z) : Z :=
  slice_offset n size rank + interior_local_offset n rank.

(** Row [g] of the grid (elements [g*n .. g*n+n-1]) lies in the interior
    range of [rank]. *)
Definition owns (n size rank g : Z) : bool :=
  (interior_global_offset n size rank <=? g * n)
  && (g * n + n <=? interior_global_offset n size rank + interior_count n size rank).

(** The ranks that own row [g]. *)
Definition owners (n size g : Z) : list Z :=
  filter (fun rank => owns n size rank g) (range 0 size).

(** Every row of the [n] x [n] grid has exactly one owner. *)
Definition exact_partition (n size : Z) : bool :=
  forallb (fun g => (Z.of_nat (List.length (owners n size g)) =? 1)) (range 0 n).

End Partition.
Import Partition.

(** ** Buffers: [std::vector<double>] and pointer ranges into it *)

Module Buffer.
Section Buffer.
Context {T : Type}.

(** [v.size()] *)
Definition size (v : list T) : Z := Z.of_nat (List.length v).

(** The [cnt] elements read through [&v[off]]; reading outside the vector is
    undefined behaviour and gives [None]. *)
Definition slice (v : list T) (off cnt : Z) : option (list T) :=
  if (0 <=? off) && (0 <=? cnt) && (off + cnt <=? size v)
  then Some (firstn (Z.to_nat cnt) (skipn (Z.to_nat off) v))
  else None.

(** [data] written through [&v[off]]; writing outside the vector gives
    [None]. *)
Definition overwrite (v : list T) (off : Z) (data : list T) : option (list T) :=
  if (0 <=? off) && (off + size data <=? size v)
  then Some (firstn (Z.to_nat off) v ++ data
             ++ skipn (Z.to_nat off + List.length data) v)
  else None.

(** [v.resize(k)] for [k <= v.size()]; growing would need a value to fill
    with and only happens here after a wrap-around, where the request is
    close to 2^64 elements and the allocation throws. *)
Definition resize (v : list T) (k : Z) : option (list T) :=
  if (0 <=? k) && (k <=? size v) then Some (firstn (Z.to_nat k) v) else None.

End Buffer.
End Buffer.
Import Buffer.

(** Sequencing of steps that may abort. *)
Definition bind {A B : Type} (x : option A) (f : A -> option B) : option B :=
  match x with Some a => f a | None => None end.

Notation "x <- e ;; k" := (bind e (fun x => k))
  (at level 61, e at next level, right associativity).

Fixpoint sequence {A : Type} (l : list (option A)) : option (list A) :=
  match l with
  | [] => Some []
  | x :: r => a <- x ;; t <- sequence r ;; Some (a :: t)
  end.

(** The ranks of a world paired with what each rank holds; [MPI_Comm_size]
    is the number of entries. *)
Definition comm_size {A : Type} (world : list A) : Z := Z.of_nat (List.length world).

Definition ranked {A : Type} (world : list A) : list (Z * A) :=
  combine (range 0 (comm_size world)) world.

(** ** Scatter: [Solver::initial_communication] *)

Module Scatter.
Section Scatter.
Context {T : Type}.

(** What one rank does. [initial_mesh] is the coordinator's grid (only rank
    0 reads it), [mesh] the rank's local buffer. Rank 0 copies its block and
    posts the sends, whose buffers must lie inside [initial_mesh]; any other
    rank receives the message addressed to it, which must fit the count of
    its [MPI_Recv]. A result [Some] is what the program computes; [None]
    for a buffer outside [initial_mesh] stands for undefined behaviour of
    the unchecked [operator[]], not for an observed stop. *)
Definition initial_communication_rank (n size : Z) (initial_mesh : list T)
    (rank : Z) (mesh : list T) : option (list T) :=
  let expected := expected_size n size rank in
  if rank =? 0 then
    block <- slice initial_mesh 0 expected ;;
    mesh' <- overwrite mesh 0 block ;;
    _ <- sequence (map (fun s => slice initial_mesh (buf_offset s) (count s))
                       (scatter_sends n size)) ;;
    Some mesh'
  else
    s <- find (fun s => dest s =? rank) (scatter_sends n size) ;;
    msg <- slice initial_mesh (buf_offset s) (count s) ;;
    if count s <=? int_of_size_t expected
    then overwrite mesh 0 msg
    else None.

(** All ranks. *)
Definition initial_communication (n : Z) (initial_mesh : list T)
    (meshes : list (list T)) : option (list (list T)) :=
  sequence (map (fun rm => initial_communication_rank n (comm_size meshes)
                             initial_mesh (fst rm) (snd rm))
                (ranked meshes)).

End Scatter.
End Scatter.
Import Scatter.

(** ** Gather: the collective of [Solver::final_communication] *)

Module Gather.
Section Gather.
Context {T : Type}.

(** The send buffer of one rank's [MPI_Gather]: its count and elements. *)
Definition contribution (n size rank : Z) (mesh : list T) : option (Z * list T) :=
  if rank =? 0 then
    let cnt := int_of_size_t (wrap64 (Buffer.size mesh - n)) in
    d <- slice mesh 0 cnt ;; Some (cnt, d)
  else if rank =? size - 1 then
    let cnt := int_of_size_t (wrap64 (Buffer.size mesh - n)) in
    d <- slice mesh n cnt ;; Some (cnt, d)
  else
    mesh' <- resize mesh (wrap64 (Buffer.size mesh - n)) ;;
    let cnt := int_of_size_t (wrap64 (Buffer.size mesh' - n)) in
    d <- slice mesh' n cnt ;; Some (cnt, d).

(** [MPI_Gather] to root 0: every rank's send count has to be the root's
    receive count (rank 0 passes the same expression for both); the blocks
    are stored in rank order from [&final_mesh[0]]. *)
Definition gather (n : Z) (meshes : list (list T)) (final_mesh : list T)
    : option (list T) :=
  parts <- sequence (map (fun rm => contribution n (comm_size meshes) (fst rm) (snd rm))
                         (ranked meshes)) ;;
  match parts with
  | [] => None
  | (cnt0, _) :: _ =>
      if forallb (fun p => fst p =? cnt0) parts
      then overwrite final_mesh 0 (concat (map snd parts))
      else None
  end.

End Gather.
End Gather.
Import Gather.

(** ** Halo exchange: [Solver::communicate_boundary] *)

Module Halo.

(** The four offsets of a [Solver]. *)
Record offsets := {
  send_offset_1 : Z; recv_offset_1 : Z;
  send_offset_2 : Z; recv_offset_2 : Z }.

(** As the first constructor computes them from [mesh.size()]. *)
Definition make_offsets (n mesh_size : Z) : offsets :=
  {| send_offset_1 := n;
     recv_offset_1 := 0;
     send_offset_2 := wrap64 (mesh_size - wrap64 (2 * n));
     recv_offset_2 := wrap64 (mesh_size - n) |}.

(** One [MPI_Sendrecv(&mesh[send_at], send_count, _, sr_dest, 0,
    &mesh[recv_at], recv_max, _, sr_source, 0, ...)]. *)
Record sendrecv := {
  send_at : Z; send_count : Z; sr_dest : Z;
  recv_at : Z; recv_max : Z; sr_source : Z }.

(** The MPI calls of one rank in [communicate_boundary], in program order. *)
Definition communicate_boundary (n size rank : Z) (o : offsets) : list sendrecv :=
  let cnt := int_of_size_t n in
  if rank =? 0 then
    [ {| send_at := send_offset_2 o; send_count := cnt; sr_dest := 1;
         recv_at := recv_offset_2 o; recv_max := cnt; sr_source := 1 |} ]
  else if rank =? size - 1 then
    [ {| send_at := send_offset_1 o; send_count := cnt; sr_dest := rank - 1;
         recv_at := recv_offset_1 o; recv_max := cnt; sr_source := rank - 1 |} ]
  else
    [ {| send_at := send_offset_1 o; send_count := cnt; sr_dest := rank - 1;
         recv_at := recv_offset_1 o; recv_max := cnt; sr_source := rank - 1 |};
      {| send_at := send_offset_2 o; send_count := cnt; sr_dest := rank + 1;
         recv_at := recv_offset_2 o; recv_max := cnt; sr_source := rank + 1 |} ].

(** The exchange of [n] elements with [peer], sending from [send_from] and
    receiving at [recv_into], as a single [MPI_Sendrecv]. *)
Definition exchange_with (n peer send_from recv_into : Z) : sendrecv :=
  {| send_at := send_from; send_count := n; sr_dest := peer;
     recv_at := recv_into; recv_max := n; sr_source := peer |}.

Section Exchange.
Context {T : Type}.

(** A rank inside the exchange: its buffer, the calls still to run and
    whether the send half of the first one is already on its way. *)
Record proc := { buf : list T; pending : list sendrecv; posted : bool }.

Record message := { src : Z; dst : Z; payload : list T }.

Definition valid_rank (size r : Z) : bool := (0 <=? r) && (r <? size).

(** First message from [from] to [to], and the mailbox without it. *)
Fixpoint take_message (from to : Z) (mail : list message)
    : option (message * list message) :=
  match mail with
  | [] => None
  | m :: rest =>
      if (src m =? from) && (dst m =? to) then Some (m, rest)
      else match take_message from to rest with
           | Some (m', rest') => Some (m', m :: rest')
           | None => None
           end
  end.

(** One rank runs its pending calls until one blocks: the send half of a
    call is posted with the buffer contents at the call, the receive half
    completes when the peer's message is there, and then the next call
    starts. A rank outside the communicator is an MPI error, a message
    longer than [recv_max] as well. The boolean tells whether anything
    happened. *)
Fixpoint advance (size rank : Z) (b : list T) (calls : list sendrecv)
    (is_posted : bool) (mail : list message)
    : option (proc * list message * bool) :=
  match calls with
  | [] => Some ({| buf := b; pending := []; posted := false |}, mail, false)
  | c :: rest =>
      if valid_rank size (sr_dest c) && valid_rank size (sr_source c) then
        mail1 <- (if is_posted then Some mail
                  else d <- slice b (send_at c) (send_count c) ;;
                       Some (mail ++ [ {| src := rank; dst := sr_dest c; payload := d |} ])) ;;
        match take_message (sr_source c) rank mail1 with
        | None =>
            Some ({| buf := b; pending := c :: rest; posted := true |},
                  mail1, negb is_posted)
        | Some (m, mail2) =>
            if Buffer.size (payload m) <=? recv_max c then
              b' <- overwrite b (recv_at c) (payload m) ;;
              r <- advance size rank b' rest false mail2 ;;
              Some (fst (fst r), snd (fst r), true)
            else None
        end
      else None
  end.

(** Every rank in turn. *)
Fixpoint sweep (size rank : Z) (ps : list proc) (mail : list message)
    : option (list proc * list message * bool) :=
  match ps with
  | [] => Some ([], mail, false)
  | p :: rest =>
      r1 <- advance size rank (buf p) (pending p) (posted p) mail ;;
      let '(p', mail1, moved) := r1 in
      r2 <- sweep size (rank + 1) rest mail1 ;;
      let '(rest', mail2, moved') := r2 in
      Some (p' :: rest', mail2, moved || moved')
  end.

(** Sweeps until no call is pending; a sweep in which nothing moves while
    calls are pending is a deadlock. *)
Fixpoint exchange (fuel : nat) (size : Z) (ps : list proc) (mail : list message)
    : option (list proc) :=
  if forallb (fun p => match pending p with [] => true | _ => false end) ps
  then Some ps
  else match fuel with
       | O => None
       | S fuel' =>
           r <- sweep size 0 ps mail ;;
           let '(ps', mail', moved) := r in
           if moved then exchange fuel' size ps' mail' else None
       end.

(** [communicate_boundary] run by all ranks: [world] gives each rank's
    offsets and buffer. Every sweep but the last completes a call or posts
    one, so twice the number of calls is enough fuel. *)
Definition communicate_boundary_all (n : Z) (world : list (offsets * list T))
    : option (list (list T)) :=
  let size := comm_size world in
  let ps := map (fun rw => {| buf := snd (snd rw);
                               pending := communicate_boundary n size (fst rw) (fst (snd rw));
                               posted := false |})
                (ranked world) in
  let calls := List.length (concat (map pending ps)) in
  ps' <- exchange (2 * calls) size ps [] ;;
  Some (map buf ps').

End Exchange.
End Halo.
Import Halo.





(** ** The local update kernel: the interface of class [Mesh] *)

(** [T] stands for [double], [K] for a [Mesh] object. The solver only calls
    these operations; [lt] is the comparison [<] on [double]. *)
Record Kernel (T K : Type) := {
  Mesh_ctor : list T -> Z -> K;
  update_seq : K -> K;
  update_par : Z -> K -> K;
  get_error : K -> T;
  lt : T -> T -> bool;
  get_mesh : K -> list T;
  set_mesh : list T -> K -> K;
  get_size : K -> Z * Z }.

Arguments Mesh_ctor {T K}.
Arguments update_seq {T K}.
Arguments update_par {T K}.
Arguments get_error {T K}.
Arguments lt {T K}.
Arguments get_mesh {T K}.
Arguments set_mesh {T K}.
Arguments get_size {T K}.

(** Modelled from the spec: what the absent [Mesh] class guarantees for the
    operations the solver uses ([get_mesh]/[set_mesh] get and replace the
    local grid, [get_size] is (rows, cols) of a row-major buffer, a sweep
    updates the grid in place). *)
Record KernelLaws {T K : Type} (M : Kernel T K) : Prop := {
  get_mesh_ctor : forall v n, get_mesh M (Mesh_ctor M v n) = v;
  get_size_ctor : forall v n, fst (get_size M (Mesh_ctor M v n)) = Buffer.size v / n;
  get_mesh_set : forall v k, get_mesh M (set_mesh M v k) = v;
  length_update_par : forall t k,
    List.length (get_mesh M (update_par M t k)) = List.length (get_mesh M k);
  length_update_seq : forall k,
    List.length (get_mesh M (update_seq M k)) = List.length (get_mesh M k) }.

(** ** The solver *)

Module Solver.

(** How a run ends: normally, by an MPI error or undefined behaviour, or
    (only in the model) because the fuel of a loop ran out. *)
Inductive outcome (A : Type) : Type :=
| Done (a : A)
| Abort
| Timeout.
Arguments Done {A}.
Arguments Abort {A}.
Arguments Timeout {A}.

(** What a worker does in a round, for the temporal properties. *)
Inductive event := EvUpdate | EvAllreduce | EvExchange | EvSetMesh.

Definition event_eq_dec (a b : event) : {a = b} + {a <> b}.
Proof. decide equality. Defined.

(** The summary line ["Iter: <i> - time: ... - Mean time each update: ..."];
    the wall-clock figures are not modelled. *)
Inductive line := Iter (i : Z).

(** [std::to_string] of an integer. *)
Definition to_string (z : Z) : string := NilZero.string_of_int (Z.to_int z).

Section Solver.
Context {T K : Type} (M : Kernel T K).

(** [struct conditions] (declared in the absent header). *)
Record conditions := { tolerance : T; n_max : Z }.

Variable c : conditions.

(** A file written by [Mesh::write]. *)
Record file := { file_name : string; file_grid : list T }.

(** The result of a run: final state, console output, files written. *)
Record run (S : Type) := { final : S; console : list line; written : list file }.
Arguments final {S}.
Arguments console {S}.
Arguments written {S}.

(** *** [solution_finder_sequential] and [solution_finder_parallel] *)

(** State of the [do ... while (!exit)] loop of the two single-process
    modes, which differ in the update call only. *)
Record local_state := {
  l_mesh_obj : K; l_i : Z; l_console : list line; l_trace : list event }.

Fixpoint local_loop (update : K -> K) (fuel : nat) (s : local_state)
    : outcome local_state :=
  match fuel with
  | O => Timeout
  | S fuel' =>
      let k := update (l_mesh_obj s) in
      let exit := lt M (get_error M k) (tolerance c) || (l_i s =? n_max c - 1) in
      let out := if exit then l_console s ++ [Iter (l_i s)] else l_console s in
      let s' := {| l_mesh_obj := k; l_i := l_i s + 1; l_console := out;
                   l_trace := l_trace s ++ [EvUpdate] |} in
      if exit then Done s' else local_loop update fuel' s'
  end.

Definition local_start (mesh_obj : K) : local_state :=
  {| l_mesh_obj := mesh_obj; l_i := 1; l_console := []; l_trace := [] |}.

Definition save_local (s : local_state) : run local_state :=
  let filename := ("vtk_files/approx_sol-1-"
                   ++ to_string (fst (get_size M (l_mesh_obj s))) ++ ".vtk")%string in
  {| final := s; console := l_console s;
     written := [ {| file_name := filename; file_grid := get_mesh M (l_mesh_obj s) |} ] |}.

Definition solution_finder_sequential (fuel : nat) (mesh_obj : K)
    : outcome (run local_state) :=
  match local_loop (update_seq M) fuel (local_start mesh_obj) with
  | Done s => Done (save_local s)
  | Abort => Abort
  | Timeout => Timeout
  end.

Definition solution_finder_parallel (fuel : nat) (n_tasks : Z) (mesh_obj : K)
    : outcome (run local_state) :=
  match local_loop (update_par M n_tasks) fuel (local_start mesh_obj) with
  | Done s => Done (save_local s)
  | Abort => Abort
  | Timeout => Timeout
  end.

(** *** [solution_finder_mpi] *)

(** One rank: the [Mesh] object, the buffer [mesh], the offsets, the locals
    [exit_local] and [i], and the events so far. *)
Record worker := {
  mesh_obj : K; mesh : list T; offs : offsets;
  exit_local : bool; i : Z; trace : list event }.

(** [if(!exit_local){ update_par; exit_local = ... }] *)
Definition local_update (thread : Z) (w : worker) : worker :=
  if exit_local w then w
  else
    let k := update_par M thread (mesh_obj w) in
    {| mesh_obj := k; mesh := mesh w; offs := offs w;
       exit_local := lt M (get_error M k) (tolerance c) || (i w =? n_max c - 1);
       i := i w; trace := trace w ++ [EvUpdate] |}.

(** [MPI_Allreduce(&exit_local, &exit, 1, _, MPI_LAND, _)]: the value every
    rank gets. *)
Definition allreduce_land (ws : list worker) : bool := forallb exit_local ws.

(** [mesh = mesh_obj.get_mesh();] after the reduction. *)
Definition after_allreduce (w : worker) : worker :=
  {| mesh_obj := mesh_obj w; mesh := get_mesh M (mesh_obj w); offs := offs w;
     exit_local := exit_local w; i := i w; trace := trace w ++ [EvAllreduce] |}.

(** The buffer as [communicate_boundary] leaves it. *)
Definition after_exchange (wm : worker * list T) : worker :=
  let (w, m) := wm in
  {| mesh_obj := mesh_obj w; mesh := m; offs := offs w;
     exit_local := exit_local w; i := i w; trace := trace w ++ [EvExchange] |}.

(** [if(!exit){ mesh_obj.set_mesh(mesh); ++i; }] *)
Definition write_back (exit : bool) (w : worker) : worker :=
  if exit then w
  else {| mesh_obj := set_mesh M (mesh w) (mesh_obj w); mesh := mesh w; offs := offs w;
          exit_local := exit_local w; i := i w + 1; trace := trace w ++ [EvSetMesh] |}.

(** The halo exchange as a function of all ranks' offsets and buffers. The
    solver uses [communicate_boundary_all]; the loop is written over any
    such function so that the effect of the exchange can be stated. *)
Definition exchange_fn := list (offsets * list T) -> option (list (list T)).

(** One pass through the loop body on all ranks; the boolean is [exit]. *)
Definition mpi_round (comm : exchange_fn) (thread : Z) (ws : list worker)
    : option (list worker * bool) :=
  let ws1 := map (local_update thread) ws in
  let exit := allreduce_land ws1 in
  let ws2 := map after_allreduce ws1 in
  meshes <- comm (map (fun w => (offs w, mesh w)) ws2) ;;
  if Nat.eqb (List.length meshes) (List.length ws2) then
    Some (map (write_back exit) (map after_exchange (combine ws2 meshes)), exit)
  else None.

(** [do { ... } while (!exit);] with the number of passes made. *)
Fixpoint mpi_loop (comm : exchange_fn) (thread : Z) (fuel : nat)
    (ws : list worker) (rounds : nat) : outcome (list worker * nat) :=
  match fuel with
  | O => Timeout
  | S fuel' =>
      match mpi_round comm thread ws with
      | None => Abort
      | Some (ws', exit) =>
          if exit then Done (ws', S rounds)
          else mpi_loop comm thread fuel' ws' (S rounds)
      end
  end.

(** [final_communication]: the gather, then rank 0 builds a [Mesh] from the
    gathered grid and writes it. *)
Definition final_communication (n : Z) (ws : list worker) (final_mesh : list T)
    : option (list T * list file) :=
  grid <- gather n (map mesh ws) final_mesh ;;
  let last_mesh := Mesh_ctor M grid n in
  let filename := ("vtk_files/approx_sol-" ++ to_string (comm_size ws) ++ "-"
                   ++ to_string (fst (get_size M last_mesh)) ++ ".vtk")%string in
  Some (grid, [ {| file_name := filename; file_grid := get_mesh M last_mesh |} ]).

(** [mesh = mesh_obj.get_mesh();] before the gather. *)
Definition reload (w : worker) : worker :=
  {| mesh_obj := mesh_obj w; mesh := get_mesh M (mesh_obj w); offs := offs w;
     exit_local := exit_local w; i := i w; trace := trace w |}.

(** State at the end of the distributed mode: the workers as they enter
    the gather, the passes made and the gathered grid at rank 0. *)
Record mpi_state := { workers : list worker; rounds : nat; final_mesh : list T }.

Definition solution_finder_mpi_with (comm : exchange_fn) (n : Z) (fuel : nat)
    (thread : Z) (ws : list worker) (final_mesh0 : list T)
    : outcome (run mpi_state) :=
  match mpi_loop comm thread fuel ws 0 with
  | Timeout => Timeout
  | Abort => Abort
  | Done (ws', r) =>
      let out := match ws' with [] => [] | w0 :: _ => [Iter (i w0)] end in
      let ws'' := map reload ws' in
      match final_communication n ws'' final_mesh0 with
      | None => Abort
      | Some (grid, files) =>
          Done {| final := {| workers := ws''; rounds := r; final_mesh := grid |};
                  console := out; written := files |}
      end
  end.

Definition solution_finder_mpi (n : Z) :=
  solution_finder_mpi_with (communicate_boundary_all n) n.

(** Modelled from the spec: the caller of the solver is not part of the
    sources. Following the data flow of the spec, every rank holds a local
    buffer, the coordinator scatters the initial grid into them, each rank
    builds its [Solver] (first constructor: [Mesh] object and offsets from
    the buffer) and runs the distributed mode. *)
Definition start_worker (n : Z) (buffer : list T) : worker :=
  {| mesh_obj := Mesh_ctor M buffer n; mesh := buffer;
     offs := make_offsets n (Buffer.size buffer);
     exit_local := false; i := 1; trace := [] |}.

Definition distributed_run (n : Z) (fuel : nat) (thread : Z)
    (initial_mesh : list T) (buffers : list (list T)) (final_mesh0 : list T)
    : outcome (run mpi_state) :=
  match initial_communication n initial_mesh buffers with
  | None => Abort
  | Some local => solution_finder_mpi n fuel thread (map (start_worker n) local) final_mesh0
  end.

(** Modelled from the spec: the sequential mode on the same grid. *)
Definition sequential_run (n : Z) (fuel : nat) (initial_mesh : list T)
    : outcome (run local_state) :=
  solution_finder_sequential fuel (Mesh_ctor M initial_mesh n).

End Solver.

Arguments final {T S}.
Arguments console {T S}.
Arguments written {T S}.

End Solver.
Import Solver.

(** ** States of an exchange along the chain of ranks *)

Module Chain.
Section Chain.
Context {T : Type}.

(** A rank blocked in its exchange with [rank + 1], the send half posted. *)
Definition waiting (n rank : Z) (p : @proc T) : Prop :=
  posted p = true
  /\ exists c, pending p = [c]
       /\ sr_source c = rank + 1 /\ sr_dest c = rank + 1 /\ recv_max c = n
       /\ 0 <= recv_at c /\ recv_at c + n <= Buffer.size (buf p).

(** Ranks [rank], [rank+1], ... all waiting, but for the last, which is
    through. *)
Fixpoint waiting_then_done (n rank : Z) (ps : list (@proc T)) : Prop :=
  match ps with
  | [] => False
  | p :: rest =>
      match rest with
      | [] => pending p = []
      | _ => waiting n rank p /\ waiting_then_done n (rank + 1) rest
      end
  end.

(** Messages of [n] elements from [rank] to [rank-1], from [rank+1] to
    [rank], and so on. *)
Fixpoint chain_mail (n rank : Z) (mail : list (@message T)) : Prop :=
  match mail with
  | [] => True
  | m :: rest =>
      src m = rank /\ dst m = rank - 1 /\ Buffer.size (payload m) = n
      /\ chain_mail n (rank + 1) rest
  end.

(** A rank entering [communicate_boundary] with a buffer of at least two
    rows and the offsets of the constructor. *)
Definition entering (n size rank : Z) (p : @proc T) : Prop :=
  posted p = false
  /\ pending p = communicate_boundary n size rank (make_offsets n (Buffer.size (buf p)))
  /\ 2 * n <= Buffer.size (buf p) < 2 ^ 64.

Fixpoint all_entering (n size rank : Z) (ps : list (@proc T)) : Prop :=
  match ps with
  | [] => True
  | p :: rest => entering n size rank p /\ all_entering n size (rank + 1) rest
  end.

End Chain.
End Chain.
Import Chain.

(** ** Vocabulary for the properties of the loops *)

Module Props.
Section Props.
Context {T K : Type} (M : Kernel T K).

(** How often a worker did [e]. *)
Definition occurrences (e : event) (tr : list event) : nat :=
  count_occ event_eq_dec tr e.

(** The loop body of one rank, given the result [exit] of the reduction and
    the buffer [m] the exchange leaves. *)
Definition round_of (c : @conditions T) (thread : Z) (exit : bool) (m : list T)
    (w : @worker T K) : @worker T K :=
  write_back M exit (after_exchange (after_allreduce M (local_update M c thread w), m)).

(** Workers whose grids have the lengths [sizes], at least two rows each,
    with the offsets the constructor computes from them. *)
Definition shaped (n : Z) (sizes : list Z) (ws : list (@worker T K)) : Prop :=
  Forall2 (fun len w =>
             Buffer.size (get_mesh M (mesh_obj w)) = len
             /\ offs w = make_offsets n len
             /\ 2 * n <= len < 2 ^ 64) sizes ws.

(** The file the coordinator writes for a gathered grid of [n] rows. *)
Definition result_file (n size : Z) (grid : list T) : @file T :=
  {| file_name := ("vtk_files/approx_sol-" ++ to_string size ++ "-"
                   ++ to_string n ++ ".vtk")%string;
     file_grid := grid |}.

End Props.
End Props.
Import Props.

(** ** A small kernel to run the solver on concrete grids *)

Module Example.

(** Samples are integers; a sweep lowers every sample by one; the residual
    is read off the grid by [residual]. *)
Record toy := { t_mesh : list Z; t_n : Z }.

Definition toy_kernel (residual : list Z -> Z) : Kernel Z toy :=
  {| Mesh_ctor := fun v n => {| t_mesh := v; t_n := n |};
     update_seq := fun k => {| t_mesh := map (fun x => x - 1) (t_mesh k); t_n := t_n k |};
     update_par := fun _ k => {| t_mesh := map (fun x => x - 1) (t_mesh k); t_n := t_n k |};
     get_error := fun k => residual (t_mesh k);
     lt := Z.ltb;
     get_mesh := t_mesh;
     set_mesh := fun v k => {| t_mesh := v; t_n := t_n k |};
     get_size := fun k => (Buffer.size (t_mesh k) / t_n k, t_n k) |}.

(** The sample in the first column of the second row. *)
Definition second_row (n : Z) (v : list Z) : Z := nth (Z.to_nat n) v 0.

(** A 4 x 4 grid and buffers for two workers. *)
Definition grid4 : list Z := [0;0;0;0; 1;1;1;1; 3;3;3;3; 5;5;5;5].
Definition grid4' : list Z := [0;0;0;0; 2;2;2;2; 3;3;3;3; 5;5;5;5].
Definition zeros (k : nat) : list Z := repeat 0 k.

(** Two workers on the 4 x 4 grid right after the scatter. *)
Definition two_workers_4x4 (residual : list Z -> Z) : list (@worker Z toy) :=
  map (start_worker (toy_kernel residual) 4) [firstn 12 grid4; skipn 4 grid4].

(** An exchange that garbles the buffers: every sample comes back as 7. *)
Definition garbled : @exchange_fn Z :=
  fun world => Some (map (fun w => map (fun _ => 7) (snd w)) world).

End Example.
Import Example.

(** ** [Solver::print_mesh] *)

Module Print.
Section Print.
Context {T : Type}.

(** The rows [print_mesh] writes after the line with the rank: for each
    [r < mesh.size()/n] the index [r] and the samples [mesh[r*n + c]],
    [c < n]. Field widths and precision are not modelled. The division by
    [n = 0] is undefined. *)
Definition print_mesh (n : Z) (mesh : list T) : option (list (Z * list T)) :=
  if n =? 0 then None
  else sequence (map (fun r => row <- slice mesh (wrap64 (r * n)) n ;; Some (r, row))
                     (range 0 (Buffer.size mesh / n))).

End Print.
End Print.
Import Print.

(** ** What the halo exchange computes *)

Module HaloSpec.
Section HaloSpec.
Context {T : Type}.

(** The row a rank sends to its predecessor and the row it sends to its
    successor. *)
Definition first_interior_row (n : Z) (b : list T) : list T :=
  firstn (Z.to_nat n) (skipn (Z.to_nat n) b).

Definition last_interior_row (n : Z) (b : list T) : list T :=
  firstn (Z.to_nat n) (skipn (Z.to_nat (Buffer.size b - 2 * n)) b).

(** A buffer with [row] in its leading, respectively trailing, halo slot. *)
Definition with_leading_halo (row b : list T) : list T :=
  row ++ skipn (List.length row) b.

Definition with_trailing_halo (row b : list T) : list T :=
  firstn (List.length b - List.length row) b ++ row.

(** Ranks 1, 2, ... in turn: each takes the last interior row of its
    predecessor, as the predecessor holds it after its own first exchange. *)
Fixpoint leading_pass (n : Z) (row : list T) (bs : list (list T)) : list (list T) :=
  match bs with
  | [] => []
  | b :: rest =>
      let b1 := with_leading_halo row b in
      b1 :: leading_pass n (last_interior_row n b1) rest
  end.

(** Every rank but the last takes the first interior row of its successor. *)
Fixpoint trailing_pass (bs rows : list (list T)) : list (list T) :=
  match bs with
  | [] => []
  | b :: rest =>
      match rows with
      | [] => b :: rest
      | row :: rows' => with_trailing_halo row b :: trailing_pass rest rows'
      end
  end.

(** All buffers after the exchange, from all buffers before it. *)
Definition halo_exchange (n : Z) (bs : list (list T)) : list (list T) :=
  match bs with
  | [] => []
  | b0 :: rest =>
      trailing_pass (b0 :: leading_pass n (last_interior_row n b0) rest)
                    (map (first_interior_row n) rest)
  end.

(** The same with the rows the buffers held before the exchange: each rank
    takes the last interior row its predecessor had at the start. *)
Fixpoint leading_pass_old_rows (n : Z) (row : list T) (bs : list (list T))
    : list (list T) :=
  match bs with
  | [] => []
  | b :: rest =>
      with_leading_halo row b :: leading_pass_old_rows n (last_interior_row n b) rest
  end.

Definition halo_exchange_old_rows (n : Z) (bs : list (list T)) : list (list T) :=
  match bs with
  | [] => []
  | b0 :: rest =>
      trailing_pass (b0 :: leading_pass_old_rows n (last_interior_row n b0) rest)
                    (map (first_interior_row n) rest)
  end.

(** The exchange rank by rank: a rank takes the last interior row of its
    predecessor, if it has one, and the first interior row of its successor,
    if it has one. *)
Definition take_leading (prev : option (list T)) (b : list T) : list T :=
  match prev with
  | Some row => with_leading_halo row b
  | None => b
  end.

Definition take_trailing (next : option (list T)) (b : list T) : list T :=
  match next with
  | Some row => with_trailing_halo row b
  | None => b
  end.

Fixpoint exchange_rows (n : Z) (prev : option (list T)) (bs : list (list T))
    : list (list T) :=
  match bs with
  | [] => []
  | b :: rest =>
      take_trailing (option_map (first_interior_row n) (hd_error rest))
                    (take_leading prev b)
      :: exchange_rows n (Some (last_interior_row n b)) rest
  end.

(** [P] for every element but the last. *)
Fixpoint all_but_last {A : Type} (P : A -> Prop) (l : list A) : Prop :=
  match l with
  | [] => True
  | a :: rest =>
      match rest with
      | [] => True
      | _ => P a /\ all_but_last P rest
      end
  end.

End HaloSpec.
End HaloSpec.
Import HaloSpec.

(** ** The same states, with the place of the pending receive *)

Module ChainRows.
Section ChainRows.
Context {T : Type}.

(** A rank blocked in its exchange with [rank + 1], about to receive into
    the last row of its buffer. *)
Definition waiting_for_last_row (n rank : Z) (p : @proc T) : Prop :=
  posted p = true
  /\ exists c, pending p = [c]
       /\ sr_source c = rank + 1 /\ sr_dest c = rank + 1 /\ recv_max c = n
       /\ recv_at c = Buffer.size (buf p) - n /\ n <= Buffer.size (buf p).

Fixpoint waiting_for_rows_then_done (n rank : Z) (ps : list (@proc T)) : Prop :=
  match ps with
  | [] => False
  | p :: rest =>
      match rest with
      | [] => pending p = []
      | _ => waiting_for_last_row n rank p /\ waiting_for_rows_then_done n (rank + 1) rest
      end
  end.

End ChainRows.
End ChainRows.
Import ChainRows.

(** ** The grid of the end-to-end scenario *)

Module Scenario.



End Scenario.
Import Scenario.

(** * Properties *)

(** ** Integers and ranges *)

Lemma wrap64_small z : 0 <= z < 2 ^ 64 -> wrap64 z = z.
Proof. intros H. unfold wrap64. apply Z.mod_small. exact H. Qed.

Lemma wrap64_add_l a b : wrap64 (wrap64 a + b) = wrap64 (a + b).
Proof. unfold wrap64. apply Zplus_mod_idemp_l. Qed.

Lemma wrap64_add_r a b : wrap64 (a + wrap64 b) = wrap64 (a + b).
Proof. unfold wrap64. apply Zplus_mod_idemp_r. Qed.

Lemma int_of_size_t_small z : 0 <= z < 2 ^ 31 -> int_of_size_t z = z.
Proof.
  intros H. unfold int_of_size_t.
  rewrite Z.mod_small; lia.
Qed.

Lemma in_range lo hi x : In x (range lo hi) <-> lo <= x < hi.
Proof.
  unfold range. rewrite in_map_iff. split.
  - intros (k & <- & Hk). apply in_seq in Hk. lia.
  - intros H. exists (Z.to_nat (x - lo)). split; [lia|].
    apply in_seq. lia.
Qed.

Lemma NoDup_range lo hi : NoDup (range lo hi).
Proof.
  unfold range. apply Injective_map_NoDup.
  - intros a b H. lia.
  - apply seq_NoDup.
Qed.

Lemma length_range lo hi : List.length (range lo hi) = Z.to_nat (hi - lo).
Proof. unfold range. now rewrite length_map, length_seq. Qed.

Lemma range_empty lo hi : hi <= lo -> range lo hi = [].
Proof.
  intros H. unfold range. replace (Z.to_nat (hi - lo)) with 0%nat by lia. reflexivity.
Qed.

Lemma range_cons lo hi : lo < hi -> range lo hi = lo :: range (lo + 1) hi.
Proof.
  intros H. unfold range.
  replace (Z.to_nat (hi - lo)) with (S (Z.to_nat (hi - (lo + 1)))) by lia.
  cbn [seq map]. f_equal; [lia|].
  rewrite <- seq_shift, map_map. apply map_ext. intros k. lia.
Qed.

Lemma filter_none {A : Type} (f : A -> bool) (l : list A) :
  (forall y, In y l -> f y = false) -> filter f l = [].
Proof.
  induction l as [|a l IH]; intros H; [reflexivity|].
  cbn [filter]. rewrite (H a) by now left.
  apply IH. intros y Hy. apply H. now right.
Qed.

Lemma filter_singleton {A : Type} (f : A -> bool) (l : list A) (x : A) :
  NoDup l -> In x l -> (forall y, In y l -> (f y = true <-> y = x)) ->
  filter f l = [x].
Proof.
  induction l as [|a l IH]; intros Hnd Hin Hf; [contradiction|].
  inversion Hnd as [|? ? Hnotin Hnd']; subst.
  cbn [filter]. destruct (f a) eqn:Ea.
  - assert (a = x) by (apply Hf; [now left|exact Ea]). subst a.
    f_equal. apply filter_none.
    intros y Hy. destruct (f y) eqn:Ey; [|reflexivity].
    assert (y = x) by (apply Hf; [now right|exact Ey]). subst y. contradiction.
  - destruct Hin as [->|Hin].
    + assert (f x = true) by (apply Hf; [now left|reflexivity]). congruence.
    + apply IH; [exact Hnd'|exact Hin|].
      intros y Hy. apply Hf. now right.
Qed.

(** ** The partition when [size] divides [n] *)

Section Divisible.
Variables n size : Z.
Hypothesis size_pos : 1 <= size.
Hypothesis n_pos : 0 < n.
Hypothesis no_overflow : n * n + 2 * n < 2 ^ 64.
Hypothesis divides : (size | n).

Let q := n / size.

Lemma n_eq : n = size * q.
Proof.
  destruct divides as [k Hk]. unfold q. subst n.
  rewrite Z.div_mul by lia. lia.
Qed.

Lemma q_pos : 0 < q.
Proof. pose proof n_eq. nia. Qed.

Lemma size_le_n : size <= n.
Proof. pose proof n_eq. pose proof q_pos. nia. Qed.

Lemma block_elements : wrap64 (n * n) / wrap64 size = n * q.
Proof.
  pose proof size_le_n.
  rewrite !wrap64_small by nia.
  rewrite n_eq at 2. rewrite (Z.mul_comm size q), Z.mul_assoc.
  apply Z.div_mul. lia.
Qed.

Lemma block_bound : 0 <= n * q /\ n * q <= n * n.
Proof. pose proof n_eq. pose proof q_pos. nia. Qed.

Lemma expected_size_divisible rank :
  expected_size n size rank
  = if (rank =? 0) || (rank =? size - 1) then n * q + n else n * q + 2 * n.
Proof.
  pose proof block_bound.
  unfold expected_size. rewrite block_elements.
  destruct ((rank =? 0) || (rank =? size - 1)).
  - apply wrap64_small. nia.
  - rewrite (wrap64_small (2 * n)) by nia. apply wrap64_small. nia.
Qed.

Lemma interior_count_divisible rank : interior_count n size rank = n * q.
Proof.
  pose proof block_bound.
  unfold interior_count. rewrite expected_size_divisible.
  destruct ((rank =? 0) || (rank =? size - 1)).
  - replace (n * q + n - n) with (n * q) by lia. apply wrap64_small. nia.
  - replace (n * q + 2 * n - n) with (n * q + n) by lia.
    rewrite (wrap64_small (n * q + n)) by nia.
    replace (n * q + n - n) with (n * q) by lia. apply wrap64_small. nia.
Qed.

Lemma slice_offset_divisible rank :
  1 <= rank < size -> slice_offset n size rank = (rank * q - 1) * n.
Proof.
  intros Hr. pose proof size_le_n. pose proof q_pos. pose proof n_eq as Hn.
  assert (Hrq : rank * q < n) by nia.
  unfold slice_offset, send_offset.
  replace (rank =? 0) with false by (symmetry; apply Z.eqb_neq; lia).
  rewrite (wrap64_small rank) by nia.
  rewrite (wrap64_small size) by nia.
  rewrite (wrap64_small (rank * n)) by nia.
  replace (rank * n / size) with (rank * q).
  2:{ rewrite Hn at 1. replace (rank * (size * q)) with (rank * q * size) by lia.
      symmetry. apply Z.div_mul. lia. }
  rewrite (wrap64_small (rank * q - 1)) by nia.
  apply wrap64_small. nia.
Qed.

Lemma interior_global_offset_divisible rank :
  0 <= rank < size -> interior_global_offset n size rank = rank * q * n.
Proof.
  intros Hr. unfold interior_global_offset, interior_local_offset.
  destruct (Z.eqb_spec rank 0) as [->|Hne].
  - reflexivity.
  - rewrite slice_offset_divisible by lia. lia.
Qed.

Lemma owns_divisible rank g :
  0 <= rank < size -> 0 <= g < n -> (owns n size rank g = true <-> rank = g / q).
Proof.
  intros Hr Hg. pose proof q_pos as Hq.
  unfold owns. rewrite interior_global_offset_divisible by exact Hr.
  rewrite interior_count_divisible.
  rewrite andb_true_iff, !Z.leb_le.
  split.
  - intros [H1 H2]. apply Z.div_unique with (r := g - rank * q). 1: left; nia. lia.
  - intros ->. pose proof (Z.mul_div_le g q Hq).
    pose proof (Z.mul_succ_div_gt g q Hq). nia.
Qed.

Lemma owner_in_range g : 0 <= g < n -> 0 <= g / q < size.
Proof.
  intros Hg. pose proof q_pos as Hq. pose proof n_eq as Hn. split.
  - apply Z.div_pos; lia.
  - apply Z.div_lt_upper_bound; [lia|]. nia.
Qed.

Lemma owners_divisible g : 0 <= g < n -> owners n size g = [g / q].
Proof.
  intros Hg. unfold owners. apply filter_singleton.
  - apply NoDup_range.
  - apply in_range. apply owner_in_range. exact Hg.
  - intros y Hy. apply in_range in Hy. apply owns_divisible; assumption.
Qed.

End Divisible.

(** ** C1 *)

(** Claim C1, as the code has it. The grid of [initial_communication] is
    square ([n] rows of [n] columns, blocks of [n*n/size] elements). When the
    worker count divides [n], every row [g] has exactly one owning rank,
    [g / (n/size)], so the interior ranges partition the rows [0, n). *)
Theorem interior_ranges_partition_when_divisible (n size : Z) :
  1 <= size -> 0 <= n -> n * n + 2 * n < 2 ^ 64 -> (size | n) ->
  (forall g, 0 <= g < n -> owners n size g = [g / (n / size)])
  /\ exact_partition n size = true.
Proof.
  intros Hs Hn Hov Hdiv.
  assert (Hown : forall g, 0 <= g < n -> owners n size g = [g / (n / size)]).
  { intros g Hg. apply owners_divisible; try assumption. lia. }
  split; [exact Hown|].
  unfold exact_partition. apply forallb_forall. intros g Hg.
  apply in_range in Hg. rewrite (Hown g) by lia. reflexivity.
Qed.

Lemma interior_ranges_partition_when_divisible_witness :
  (forall g, 0 <= g < 9 -> owners 9 3 g = [g / (9 / 3)]) /\ exact_partition 9 3 = true.
Proof.
  apply (interior_ranges_partition_when_divisible 9 3); try lia.
  exists 3. reflexivity.
Defined.

(** Claim C1 as stated fails: with 3 workers on a grid of 4 rows, the last
    row belongs to no interior range. *)
Lemma interior_ranges_lose_rows :
  ~ (forall g, 0 <= g < 4 -> exists rank, owners 4 3 g = [rank]).
Proof.
  intros H. destruct (H 3 ltac:(lia)) as [rank Hr].
  vm_compute in Hr. discriminate Hr.
Qed.

(** ** C2 *)

(** Claim C2: every message of the initial scatter carries as many elements
    as the receive of its destination expects, and every rank other than the
    coordinator is sent exactly such a message. *)
Theorem scatter_counts_agree (n size : Z) :
  (forall s, In s (scatter_sends n size) -> count s = recv_count n size (dest s))
  /\ (forall rank, 1 <= rank < size ->
        exists s, find (fun s => dest s =? rank) (scatter_sends n size) = Some s
                  /\ dest s = rank /\ count s = recv_count n size rank).
Proof.
  assert (Hall : forall s, In s (scatter_sends n size) ->
                           count s = recv_count n size (dest s)).
  { intros s [<-|Hin]; unfold recv_count; cbn [count dest].
    - f_equal. unfold expected_size. rewrite (Z.eqb_refl (size - 1)), orb_true_r. reflexivity.
    - apply in_map_iff in Hin. destruct Hin as (proc & <- & Hp).
      apply in_range in Hp. cbn [count dest]. f_equal.
      unfold expected_size at 2.
      replace (proc =? 0) with false by (symmetry; apply Z.eqb_neq; lia).
      replace (proc =? size - 1) with false by (symmetry; apply Z.eqb_neq; lia).
      cbn [orb]. unfold expected_size. cbn [Z.eqb orb].
      rewrite wrap64_add_l, wrap64_add_r. f_equal. lia. }
  split; [exact Hall|].
  intros rank Hr.
  destruct (find (fun s => dest s =? rank) (scatter_sends n size)) as [s|] eqn:Ef.
  - exists s. apply find_some in Ef. destruct Ef as [Hin Hd].
    apply Z.eqb_eq in Hd. split; [reflexivity|]. split; [exact Hd|].
    rewrite <- Hd. apply Hall. exact Hin.
  - exfalso.
    assert (Hex : exists s, In s (scatter_sends n size) /\ dest s = rank).
    { destruct (Z.eq_dec rank (size - 1)) as [->|Hne].
      - eexists. split; [left; reflexivity|reflexivity].
      - eexists. split.
        + right. apply in_map_iff. exists rank. split; [reflexivity|].
          apply in_range. lia.
        + reflexivity. }
    destruct Hex as (s & Hin & Hd).
    pose proof (find_none _ _ Ef s Hin) as Hn. cbn beta in Hn.
    rewrite Hd, Z.eqb_refl in Hn. discriminate Hn.
Qed.

Lemma scatter_counts_agree_witness :
  count {| dest := 1; buf_offset := 18; count := 45 |} = recv_count 9 3 1
  /\ exists s, find (fun s => dest s =? 2) (scatter_sends 9 3) = Some s
               /\ dest s = 2 /\ count s = recv_count 9 3 2.
Proof.
  split.
  - apply (proj1 (scatter_counts_agree 9 3)
             {| dest := 1; buf_offset := 18; count := 45 |}).
    right. left. reflexivity.
  - apply (proj2 (scatter_counts_agree 9 3) 2). lia.
Defined.

(** ** C6 *)

(** Claim C6, as the code has it: with at least two workers, rank 0 makes
    one combined send-and-receive with rank 1 (last interior row out,
    trailing halo slot in), the last rank one with rank [size-2] (first
    interior row out, leading halo slot in), and a rank in between one with
    [rank-1] followed by one with [rank+1]. Rank 0 takes the first branch
    also when it is the only rank. *)
Theorem halo_exchange_calls (n size rank mesh_size : Z) :
  0 <= n < 2 ^ 31 -> 2 * n <= mesh_size < 2 ^ 64 ->
  let o := make_offsets n mesh_size in
  (rank = 0 ->
     communicate_boundary n size rank o
     = [exchange_with n 1 (mesh_size - 2 * n) (mesh_size - n)])
  /\ (2 <= size -> rank = size - 1 ->
     communicate_boundary n size rank o = [exchange_with n (size - 2) n 0])
  /\ (0 < rank < size - 1 ->
     communicate_boundary n size rank o
     = [exchange_with n (rank - 1) n 0;
        exchange_with n (rank + 1) (mesh_size - 2 * n) (mesh_size - n)]).
Proof.
  intros Hn Hm o.
  assert (Ho2 : send_offset_2 o = mesh_size - 2 * n).
  { unfold o, make_offsets. cbn [send_offset_2].
    rewrite (wrap64_small (2 * n)) by lia. apply wrap64_small. lia. }
  assert (Hr2 : recv_offset_2 o = mesh_size - n).
  { unfold o, make_offsets. cbn [recv_offset_2]. apply wrap64_small. lia. }
  assert (Hc : int_of_size_t n = n) by (apply int_of_size_t_small; lia).
  unfold communicate_boundary, exchange_with. rewrite Hc, Ho2, Hr2.
  split; [|split].
  - intros ->. reflexivity.
  - intros Hs ->.
    replace (size - 1 =? 0) with false by (symmetry; apply Z.eqb_neq; lia).
    rewrite Z.eqb_refl. cbn [send_offset_1 recv_offset_1 o make_offsets].
    replace (size - 1 - 1) with (size - 2) by lia. reflexivity.
  - intros Hr.
    replace (rank =? 0) with false by (symmetry; apply Z.eqb_neq; lia).
    replace (rank =? size - 1) with false by (symmetry; apply Z.eqb_neq; lia).
    reflexivity.
Qed.

Lemma halo_exchange_calls_witness :
  communicate_boundary 9 3 1 (make_offsets 9 45)
  = [exchange_with 9 (1 - 1) 9 0; exchange_with 9 (1 + 1) (45 - 2 * 9) (45 - 9)].
Proof.
  apply (halo_exchange_calls 9 3 1 45); lia.
Defined.

(** Claim C6 as stated fails for a single worker: rank [size-1] is then
    rank 0, and its one exchange is with rank 1, not with rank [size-2]. *)
Lemma halo_exchange_single_worker :
  ~ (forall size c, 1 <= size ->
       In c (communicate_boundary 9 size (size - 1) (make_offsets 9 90)) ->
       sr_dest c = size - 2).
Proof.
  intros H. specialize (H 1 (exchange_with 9 1 72 81) ltac:(lia)).
  assert (Hin : In (exchange_with 9 1 72 81)
                   (communicate_boundary 9 1 (1 - 1) (make_offsets 9 90)))
    by (left; reflexivity).
  specialize (H Hin). discriminate H.
Qed.

(** ** Buffers *)

Section BufferFacts.
Context {T : Type}.
Implicit Types v d : list T.

Lemma size_nonneg v : 0 <= Buffer.size v.
Proof. unfold Buffer.size. lia. Qed.

Lemma slice_ok v off cnt :
  0 <= off -> 0 <= cnt -> off + cnt <= Buffer.size v ->
  slice v off cnt = Some (firstn (Z.to_nat cnt) (skipn (Z.to_nat off) v)).
Proof.
  intros H1 H2 H3. unfold slice.
  replace (0 <=? off) with true by (symmetry; apply Z.leb_le; lia).
  replace (0 <=? cnt) with true by (symmetry; apply Z.leb_le; lia).
  replace (off + cnt <=? Buffer.size v) with true by (symmetry; apply Z.leb_le; lia).
  reflexivity.
Qed.

Lemma slice_inv v off cnt d :
  slice v off cnt = Some d ->
  0 <= off /\ 0 <= cnt /\ off + cnt <= Buffer.size v
  /\ d = firstn (Z.to_nat cnt) (skipn (Z.to_nat off) v).
Proof.
  unfold slice. intros H.
  destruct (Z.leb_spec 0 off); [|discriminate].
  destruct (Z.leb_spec 0 cnt); [|discriminate].
  destruct (Z.leb_spec (off + cnt) (Buffer.size v)); [|discriminate].
  cbn in H. injection H as <-. auto.
Qed.

Lemma slice_size v off cnt d : slice v off cnt = Some d -> Buffer.size d = cnt.
Proof.
  intros H. apply slice_inv in H. destruct H as (H1 & H2 & H3 & ->).
  unfold Buffer.size in *. rewrite length_firstn, length_skipn. lia.
Qed.

(** A slice of a slice is a slice. *)
Lemma slice_slice v off cnt d off' cnt' :
  slice v off cnt = Some d ->
  0 <= off' -> 0 <= cnt' -> off' + cnt' <= cnt ->
  slice d off' cnt' = slice v (off + off') cnt'.
Proof.
  intros H H1 H2 H3. pose proof (slice_size _ _ _ _ H) as Hs.
  apply slice_inv in H. destruct H as (Ha & Hb & Hc & ->).
  rewrite !slice_ok by lia. f_equal.
  rewrite skipn_firstn_comm, firstn_firstn, skipn_skipn.
  f_equal; [lia|f_equal; lia].
Qed.

Lemma slice_all v : slice v 0 (Buffer.size v) = Some v.
Proof.
  rewrite slice_ok by (pose proof (size_nonneg v); lia).
  cbn [Z.to_nat skipn]. unfold Buffer.size. rewrite Nat2Z.id. f_equal. apply firstn_all.
Qed.

Lemma resize_slice v k : resize v k = slice v 0 k.
Proof.
  unfold resize, slice. cbn [Z.to_nat skipn Z.leb Z.compare andb Z.add]. reflexivity.
Qed.

Lemma overwrite_all v d : Buffer.size d = Buffer.size v -> overwrite v 0 d = Some d.
Proof.
  intros H. unfold overwrite. cbn [Z.leb Z.compare andb Z.add Z.to_nat firstn app Nat.add].
  replace (Buffer.size d <=? Buffer.size v) with true by (symmetry; apply Z.leb_le; lia).
  f_equal. rewrite skipn_all2; [apply app_nil_r|].
  unfold Buffer.size in H. lia.
Qed.

Lemma overwrite_size v off d v' :
  overwrite v off d = Some v' -> Buffer.size v' = Buffer.size v.
Proof.
  unfold overwrite. intros H.
  destruct (Z.leb_spec 0 off); [|discriminate].
  destruct (Z.leb_spec (off + Buffer.size d) (Buffer.size v)); [|discriminate].
  cbn in H. injection H as <-.
  unfold Buffer.size in *.
  rewrite !length_app, length_firstn, length_skipn. lia.
Qed.

Lemma overwrite_ok v off d :
  0 <= off -> off + Buffer.size d <= Buffer.size v ->
  exists v', overwrite v off d = Some v'.
Proof.
  intros H1 H2. unfold overwrite.
  replace (0 <=? off) with true by (symmetry; apply Z.leb_le; lia).
  replace (off + Buffer.size d <=? Buffer.size v) with true by (symmetry; apply Z.leb_le; lia).
  eexists. reflexivity.
Qed.

(** Cutting a buffer into [k] consecutive pieces of [c] elements and
    concatenating them gives the buffer back. *)
Lemma concat_pieces (c k : nat) v :
  List.length v = (k * c)%nat ->
  concat (map (fun r => firstn c (skipn (r * c) v)) (seq 0 k)) = v.
Proof.
  revert v. induction k as [|k IH]; intros v Hv.
  - destruct v; [reflexivity|discriminate].
  - cbn [seq map concat]. change (0 * c)%nat with 0%nat. cbn [skipn].
    rewrite <- seq_shift, map_map.
    transitivity (firstn c v ++ skipn c v); [|apply firstn_skipn].
    f_equal.
    etransitivity; [|apply (IH (skipn c v)); rewrite length_skipn; lia].
    f_equal. apply map_ext. intros r. f_equal. rewrite skipn_skipn. f_equal. lia.
Qed.

End BufferFacts.

Lemma sequence_map_some {A B : Type} (f : A -> option B) (g : A -> B) (l : list A) :
  (forall x, In x l -> f x = Some (g x)) -> sequence (map f l) = Some (map g l).
Proof.
  induction l as [|a l IH]; intros H; [reflexivity|].
  cbn [map sequence]. rewrite (H a) by now left. cbn [bind].
  rewrite IH by (intros x Hx; apply H; now right). reflexivity.
Qed.

Lemma sequence_length {A : Type} (l : list (option A)) r :
  sequence l = Some r -> List.length r = List.length l.
Proof.
  revert r. induction l as [|a l IH]; intros r H.
  - injection H as <-. reflexivity.
  - cbn [sequence] in H. destruct a as [a|]; [|discriminate]. cbn [bind] in H.
    destruct (sequence l) as [t|]; [|discriminate]. cbn [bind] in H.
    injection H as <-. cbn [List.length]. f_equal. now apply IH.
Qed.

Lemma combine_map_r {A B : Type} (f : A -> B) (l : list A) :
  combine l (map f l) = map (fun x => (x, f x)) l.
Proof. induction l as [|a l IH]; [reflexivity|]. cbn. now rewrite IH. Qed.

Lemma Forall2_combine {A B : Type} (P : A -> B -> Prop) (l : list A) (l' : list B) :
  Forall2 P l l' -> forall x y, In (x, y) (combine l l') -> P x y.
Proof.
  induction 1 as [|a b l l' Hab _ IH]; intros x y Hin; [contradiction|].
  destruct Hin as [Heq|Hin]; [injection Heq as <- <-; exact Hab|now apply IH].
Qed.

Lemma ranked_map_range {A : Type} (f : Z -> A) (size : Z) :
  0 <= size ->
  ranked (map f (range 0 size)) = map (fun r => (r, f r)) (range 0 size).
Proof.
  intros H. unfold ranked, comm_size.
  rewrite length_map, length_range.
  replace (Z.of_nat (Z.to_nat (size - 0))) with size by lia.
  apply combine_map_r.
Qed.

Lemma map_fst_combine_eq {A B : Type} (l : list A) (l' : list B) :
  List.length l = List.length l' -> map fst (combine l l') = l.
Proof.
  revert l'. induction l as [|a l IH]; intros [|b l'] H; try discriminate; [reflexivity|].
  cbn. f_equal. apply IH. now injection H.
Qed.

Lemma map_snd_combine_eq {A B : Type} (l : list A) (l' : list B) :
  List.length l = List.length l' -> map snd (combine l l') = l'.
Proof.
  revert l'. induction l as [|a l IH]; intros [|b l'] H; try discriminate; [reflexivity|].
  cbn. f_equal. apply IH. now injection H.
Qed.

Lemma Forall2_with_Forall_l {A B : Type} (Q : A -> Prop) (P : A -> B -> Prop) l l' :
  Forall Q l -> Forall2 P l l' -> Forall2 (fun x y => Q x /\ P x y) l l'.
Proof.
  intros HQ HP. induction HP as [|a b l l' Hab _ IH]; [constructor|].
  inversion HQ; subst. constructor; auto.
Qed.

Lemma Forall2_map_eq {A B C : Type} (f : B -> C) (g : A -> C) rs ws :
  Forall2 (fun r w => f w = g r) rs ws -> map f ws = map g rs.
Proof. induction 1 as [|r w rs ws H _ IH]; [reflexivity|]. cbn. now rewrite H, IH. Qed.

(** ** Scatter and gather when [size] divides [n] *)

Section DivisibleData.
Context {T : Type}.
Variables n size q : Z.
Hypothesis two_workers : 2 <= size.
Hypothesis q_is_pos : 0 < q.
Hypothesis n_is : n = size * q.
Hypothesis counts_fit : n * n + 2 * n < 2 ^ 31.

Local Lemma n_pos' : 0 < n.
Proof. nia. Qed.

Local Lemma divides' : (size | n).
Proof. exists q. lia. Qed.

Local Lemma q_is : n / size = q.
Proof. rewrite n_is, Z.mul_comm. apply Z.div_mul. lia. Qed.

Local Lemma fits64 : n * n + 2 * n < 2 ^ 64.
Proof. assert (2 ^ 31 < 2 ^ 64) by reflexivity. lia. Qed.

Local Lemma q_small : q + 1 <= n.
Proof. nia. Qed.

Local Lemma block_le : n * q + n <= n * n.
Proof.
  pose proof q_small. pose proof n_pos'.
  replace (n * q + n) with (n * (q + 1)) by lia.
  apply Z.mul_le_mono_nonneg_l; lia.
Qed.

Local Lemma block_pos : 0 < n * q.
Proof. pose proof n_pos'. apply Z.mul_pos_pos; lia. Qed.

Lemma expected_size_is rank :
  expected_size n size rank
  = if (rank =? 0) || (rank =? size - 1) then n * q + n else n * q + 2 * n.
Proof.
  rewrite <- q_is.
  apply expected_size_divisible;
    solve [lia | apply n_pos' | apply fits64 | apply divides'].
Qed.

Lemma expected_size_bounds rank :
  n * q + n <= expected_size n size rank <= n * q + 2 * n
  /\ expected_size n size rank <= n * n + n.
Proof.
  pose proof block_le. pose proof n_pos'.
  rewrite expected_size_is.
  destruct ((rank =? 0) || (rank =? size - 1)); lia.
Qed.

Lemma int_expected_size rank :
  int_of_size_t (expected_size n size rank) = expected_size n size rank.
Proof.
  pose proof (expected_size_bounds rank). pose proof block_pos. pose proof n_pos'.
  apply int_of_size_t_small. lia.
Qed.

Lemma scatter_send_shape s :
  In s (scatter_sends n size) ->
  1 <= dest s < size
  /\ buf_offset s = slice_offset n size (dest s)
  /\ count s = expected_size n size (dest s).
Proof.
  intros [<-|Hin]; cbn [dest buf_offset count].
  - split; [lia|].
    split; [unfold slice_offset;
            replace (size - 1 =? 0) with false by (symmetry; apply Z.eqb_neq; lia);
            reflexivity|].
    rewrite int_expected_size. unfold expected_size.
    rewrite (Z.eqb_refl (size - 1)), orb_true_r. reflexivity.
  - apply in_map_iff in Hin. destruct Hin as (proc & <- & Hp).
    apply in_range in Hp. cbn [dest buf_offset count].
    split; [lia|].
    split; [unfold slice_offset;
            replace (proc =? 0) with false by (symmetry; apply Z.eqb_neq; lia);
            reflexivity|].
    pose proof block_pos. pose proof block_le. pose proof n_pos'. pose proof fits64.
    rewrite !expected_size_is.
    replace (proc =? 0) with false by (symmetry; apply Z.eqb_neq; lia).
    replace (proc =? size - 1) with false by (symmetry; apply Z.eqb_neq; lia).
    cbn [Z.eqb orb].
    rewrite (wrap64_small (n * q + n + n)) by lia.
    rewrite int_of_size_t_small by lia. lia.
Qed.

Lemma scatter_send_to rank :
  1 <= rank < size ->
  exists s, find (fun s => dest s =? rank) (scatter_sends n size) = Some s
            /\ In s (scatter_sends n size) /\ dest s = rank.
Proof.
  intros Hr.
  destruct (find (fun s => dest s =? rank) (scatter_sends n size)) as [s|] eqn:Ef.
  - exists s. apply find_some in Ef. destruct Ef as [Hin Hd].
    apply Z.eqb_eq in Hd. auto.
  - exfalso.
    assert (Hex : exists s, In s (scatter_sends n size) /\ dest s = rank).
    { destruct (Z.eq_dec rank (size - 1)) as [->|Hne].
      - eexists. split; [left; reflexivity|reflexivity].
      - eexists. split.
        + right. apply in_map_iff. exists rank. split; [reflexivity|].
          apply in_range. lia.
        + reflexivity. }
    destruct Hex as (s & Hin & Hd).
    pose proof (find_none _ _ Ef s Hin) as Hn. cbn beta in Hn.
    rewrite Hd, Z.eqb_refl in Hn. discriminate Hn.
Qed.

(** The part of the grid a rank holds after the scatter. *)
Let block (grid : list T) (rank : Z) : list T :=
  firstn (Z.to_nat (expected_size n size rank))
         (skipn (Z.to_nat (slice_offset n size rank)) grid).

Lemma slice_offset_is rank :
  1 <= rank < size -> slice_offset n size rank = rank * (n * q) - n.
Proof.
  intros Hr.
  rewrite slice_offset_divisible
    by solve [lia | apply n_pos' | apply fits64 | apply divides'].
  rewrite q_is. lia.
Qed.

Lemma rank_block_le rank : rank < size -> (rank + 1) * (n * q) <= n * n.
Proof.
  intros Hr. pose proof n_pos'.
  replace ((rank + 1) * (n * q)) with (n * ((rank + 1) * q)) by lia.
  apply Z.mul_le_mono_nonneg_l; [lia|].
  rewrite n_is at 1. apply Z.mul_le_mono_nonneg_r; lia.
Qed.

Lemma rank_block_ge rank : 1 <= rank -> n * q <= rank * (n * q).
Proof.
  intros Hr. pose proof block_pos.
  replace (n * q) with (1 * (n * q)) at 1 by lia.
  apply Z.mul_le_mono_nonneg_r; lia.
Qed.

Lemma slice_offset_bounds rank :
  0 <= rank < size ->
  0 <= slice_offset n size rank
  /\ slice_offset n size rank + expected_size n size rank <= n * n.
Proof.
  intros Hr. pose proof block_le. pose proof block_pos. pose proof n_pos'.
  rewrite expected_size_is.
  destruct (Z.eqb_spec rank 0) as [->|Hne]; cbn [orb].
  - cbn. lia.
  - rewrite slice_offset_is by lia.
    pose proof (rank_block_ge rank ltac:(lia)).
    destruct (Z.eqb_spec rank (size - 1)) as [->|Hlast].
    + pose proof (rank_block_le (size - 1) ltac:(lia)).
      replace (size - 1 + 1) with size in * by lia.
      assert (size * (n * q) = n * n) by (rewrite n_is at 3; lia).
      lia.
    + pose proof (rank_block_le (rank + 1) ltac:(lia)).
      replace ((rank + 1 + 1) * (n * q)) with (rank * (n * q) + 2 * (n * q)) in * by lia.
      assert (n <= n * q) by (replace n with (n * 1) at 1 by lia;
                              apply Z.mul_le_mono_nonneg_l; lia).
      lia.
Qed.

Lemma block_slice grid rank :
  Buffer.size grid = n * n -> 0 <= rank < size ->
  slice grid (slice_offset n size rank) (expected_size n size rank)
  = Some (block grid rank).
Proof.
  intros Hg Hr. pose proof (slice_offset_bounds rank Hr).
  pose proof (expected_size_bounds rank). pose proof block_pos. pose proof n_pos'.
  apply slice_ok; lia.
Qed.

Lemma initial_communication_rank_ok grid rank buf :
  Buffer.size grid = n * n -> 0 <= rank < size ->
  Buffer.size buf = expected_size n size rank ->
  initial_communication_rank n size grid rank buf = Some (block grid rank).
Proof.
  intros Hg Hr Hb. unfold initial_communication_rank.
  destruct (Z.eqb_spec rank 0) as [->|Hne].
  - pose proof (block_slice grid 0 Hg Hr) as Hs. cbn [slice_offset Z.eqb] in Hs.
    rewrite Hs. cbn [bind].
    rewrite overwrite_all by (rewrite (slice_size _ _ _ _ Hs); lia). cbn [bind].
    rewrite (sequence_map_some _ (fun s => block grid (dest s))); [reflexivity|].
    intros s Hin. destruct (scatter_send_shape s Hin) as (Hd & -> & ->).
    apply block_slice; [exact Hg|lia].
  - destruct (scatter_send_to rank ltac:(lia)) as (s & -> & Hin & Hd).
    cbn [bind]. destruct (scatter_send_shape s Hin) as (_ & -> & ->).
    rewrite Hd, block_slice by assumption. cbn [bind].
    rewrite int_expected_size, Z.leb_refl.
    apply overwrite_all.
    rewrite (slice_size _ _ _ _ (block_slice grid rank Hg Hr)). lia.
Qed.

Lemma initial_communication_ok grid bufs :
  Buffer.size grid = n * n ->
  Forall2 (fun rank buf => Buffer.size buf = expected_size n size rank)
          (range 0 size) bufs ->
  initial_communication n grid bufs = Some (map (block grid) (range 0 size)).
Proof.
  intros Hg Hb. unfold initial_communication.
  assert (Hlen : comm_size bufs = size).
  { unfold comm_size. rewrite <- (Forall2_length Hb), length_range. lia. }
  unfold ranked. rewrite Hlen.
  rewrite (sequence_map_some _ (fun rm => block grid (fst rm))).
  - f_equal. rewrite <- map_map. f_equal. apply map_fst_combine_eq.
    rewrite length_range.
    apply Forall2_length in Hb. rewrite length_range in Hb. exact Hb.
  - intros [rank buf] Hin. cbn [fst snd].
    pose proof Hin as Hr. apply in_combine_l in Hr. apply in_range in Hr.
    apply initial_communication_rank_ok; [exact Hg|lia|].
    exact (Forall2_combine _ _ _ Hb _ _ Hin).
Qed.

(** The elements of a buffer that the gather takes. *)
Let interior (rank : Z) (mesh : list T) : list T :=
  firstn (Z.to_nat (n * q)) (skipn (Z.to_nat (interior_local_offset n rank)) mesh).

Lemma interior_slice rank (mesh : list T) :
  0 <= rank < size -> Buffer.size mesh = expected_size n size rank ->
  slice mesh (interior_local_offset n rank) (n * q) = Some (interior rank mesh).
Proof.
  intros Hr Hm. pose proof block_pos. pose proof n_pos'.
  pose proof (expected_size_bounds rank).
  apply slice_ok.
  - unfold interior_local_offset. destruct (rank =? 0); lia.
  - lia.
  - rewrite Hm, expected_size_is. unfold interior_local_offset.
    destruct (rank =? 0); cbn [orb]; [lia|].
    destruct (rank =? size - 1); lia.
Qed.

Lemma contribution_ok rank (mesh : list T) :
  0 <= rank < size -> Buffer.size mesh = expected_size n size rank ->
  contribution n size rank mesh = Some (n * q, interior rank mesh).
Proof.
  intros Hr Hm. pose proof block_pos. pose proof block_le. pose proof n_pos'.
  pose proof fits64 as H64.
  pose proof (interior_slice rank mesh Hr Hm) as Hi.
  unfold contribution. unfold interior_local_offset in Hi.
  rewrite Hm, expected_size_is.
  destruct (Z.eqb_spec rank 0) as [->|Hne]; cbn [orb].
  - replace (n * q + n - n) with (n * q) by lia.
    rewrite wrap64_small, int_of_size_t_small by lia.
    rewrite Hi. reflexivity.
  - destruct (Z.eqb_spec rank (size - 1)) as [->|Hlast].
    + replace (n * q + n - n) with (n * q) by lia.
      rewrite wrap64_small, int_of_size_t_small by lia.
      rewrite Hi. reflexivity.
    + replace (n * q + 2 * n - n) with (n * q + n) by lia.
      rewrite wrap64_small by lia.
      rewrite resize_slice.
      assert (Hs : slice mesh 0 (n * q + n)
                   = Some (firstn (Z.to_nat (n * q + n)) (skipn (Z.to_nat 0) mesh))).
      { apply slice_ok; try lia. rewrite Hm, expected_size_is.
        replace (rank =? 0) with false by (symmetry; apply Z.eqb_neq; lia).
        replace (rank =? size - 1) with false by (symmetry; apply Z.eqb_neq; lia).
        cbn [orb]. lia. }
      rewrite Hs. cbn [bind]. rewrite (slice_size _ _ _ _ Hs).
      replace (n * q + n - n) with (n * q) by lia.
      rewrite wrap64_small, int_of_size_t_small by lia.
      rewrite (slice_slice _ _ _ _ n (n * q) Hs) by lia.
      cbn [Z.add]. rewrite Hi. reflexivity.
Qed.

Lemma interior_size rank (mesh : list T) :
  0 <= rank < size -> Buffer.size mesh = expected_size n size rank ->
  Buffer.size (interior rank mesh) = n * q.
Proof. intros Hr Hm. exact (slice_size _ _ _ _ (interior_slice rank mesh Hr Hm)). Qed.

Lemma concat_interior_size (rs : list Z) (meshes : list (list T)) :
  Forall2 (fun rank mesh => 0 <= rank < size
                            /\ Buffer.size mesh = expected_size n size rank) rs meshes ->
  Buffer.size (concat (map (fun rm => interior (fst rm) (snd rm)) (combine rs meshes)))
  = Z.of_nat (List.length rs) * (n * q).
Proof.
  induction 1 as [|r m rs ms [Hr Hm] _ IH]; [reflexivity|].
  cbn [combine map concat fst snd List.length].
  unfold Buffer.size in *. rewrite length_app, Nat2Z.inj_add, IH.
  pose proof (interior_size r m Hr Hm) as Hi. unfold Buffer.size in Hi. lia.
Qed.

Lemma gather_ok (meshes : list (list T)) final0 :
  Forall2 (fun rank mesh => Buffer.size mesh = expected_size n size rank)
          (range 0 size) meshes ->
  Buffer.size final0 = n * n ->
  gather n meshes final0
  = Some (concat (map (fun rm => interior (fst rm) (snd rm)) (ranked meshes))).
Proof.
  intros Hm Hf. unfold gather.
  assert (Hlen : comm_size meshes = size).
  { unfold comm_size. rewrite <- (Forall2_length Hm), length_range. lia. }
  assert (Hm' : Forall2 (fun rank mesh => 0 <= rank < size
                  /\ Buffer.size mesh = expected_size n size rank)
                  (range 0 size) meshes).
  { apply Forall2_with_Forall_l; [|exact Hm].
    apply Forall_forall. intros r Hr. apply in_range in Hr. lia. }
  unfold ranked. rewrite Hlen.
  rewrite (sequence_map_some _ (fun rm => (n * q, interior (fst rm) (snd rm)))).
  2:{ intros [r m] Hin. cbn [fst snd].
      destruct (Forall2_combine _ _ _ Hm' _ _ Hin) as [Hr Hs].
      now apply contribution_ok. }
  cbn [bind].
  assert (Hsz : Buffer.size (concat (map (fun rm => interior (fst rm) (snd rm))
                                       (combine (range 0 size) meshes))) = n * n).
  { rewrite concat_interior_size by exact Hm'. rewrite length_range.
    replace (Z.of_nat (Z.to_nat (size - 0))) with size by lia.
    rewrite n_is at 2. lia. }
  assert (Hne : combine (range 0 size) meshes <> []).
  { intros Ec. apply (f_equal (@List.length _)) in Ec.
    rewrite length_combine, length_range, <- (Forall2_length Hm), length_range in Ec.
    cbn in Ec. lia. }
  set (f := fun rm : Z * list T => (n * q, interior (fst rm) (snd rm))).
  assert (Hall : forallb (fun p : Z * list T => fst p =? n * q)
                         (map f (combine (range 0 size) meshes)) = true).
  { apply forallb_forall. intros p Hp. apply in_map_iff in Hp.
    destruct Hp as (rm & <- & _). cbn [fst f]. apply Z.eqb_refl. }
  assert (Hsnd : map snd (map f (combine (range 0 size) meshes))
                 = map (fun rm => interior (fst rm) (snd rm))
                       (combine (range 0 size) meshes)).
  { rewrite map_map. reflexivity. }
  destruct (combine (range 0 size) meshes) as [|x rest]; [congruence|].
  cbn [map] in *. cbn [f fst] in Hall |- *. fold f in Hall |- *.
  rewrite Hall, Hsnd.
  apply overwrite_all. rewrite Hsz. lia.
Qed.

Lemma gather_ok_size (meshes : list (list T)) final0 :
  Forall2 (fun rank mesh => Buffer.size mesh = expected_size n size rank)
          (range 0 size) meshes ->
  Buffer.size final0 = n * n ->
  exists grid, gather n meshes final0 = Some grid /\ Buffer.size grid = n * n.
Proof.
  intros Hm Hf. pose proof (gather_ok meshes final0 Hm Hf) as Hg.
  eexists. split; [exact Hg|].
  assert (Hlen : comm_size meshes = size).
  { unfold comm_size. rewrite <- (Forall2_length Hm), length_range. lia. }
  unfold ranked. rewrite Hlen.
  rewrite concat_interior_size.
  - rewrite length_range.
    replace (Z.of_nat (Z.to_nat (size - 0))) with size by lia.
    rewrite n_is at 2. lia.
  - apply Forall2_with_Forall_l; [|exact Hm].
    apply Forall_forall. intros r Hr. apply in_range in Hr. lia.
Qed.

Lemma block_size grid rank :
  Buffer.size grid = n * n -> 0 <= rank < size ->
  Buffer.size (block grid rank) = expected_size n size rank.
Proof. intros Hg Hr. exact (slice_size _ _ _ _ (block_slice grid rank Hg Hr)). Qed.

Lemma blocks_sized grid :
  Buffer.size grid = n * n ->
  Forall2 (fun rank mesh => Buffer.size mesh = expected_size n size rank)
          (range 0 size) (map (block grid) (range 0 size)).
Proof.
  intros Hg.
  assert (H : forall l, (forall r, In r l -> 0 <= r < size) ->
            Forall2 (fun rank mesh => Buffer.size mesh = expected_size n size rank)
                    l (map (block grid) l)).
  { induction l as [|r l IH]; intros Hl; [constructor|].
    cbn [map]. constructor.
    - apply block_size; [exact Hg|]. apply Hl. now left.
    - apply IH. intros r' Hr'. apply Hl. now right. }
  apply H. intros r Hr. apply in_range in Hr. lia.
Qed.

(** The interior of the block of [rank] is the [rank]-th piece of the grid. *)
Lemma interior_block grid rank :
  Buffer.size grid = n * n -> 0 <= rank < size ->
  interior rank (block grid rank)
  = firstn (Z.to_nat (n * q)) (skipn (Z.to_nat rank * Z.to_nat (n * q)) grid).
Proof.
  intros Hg Hr. pose proof block_pos. pose proof n_pos'.
  pose proof (interior_slice rank (block grid rank) Hr (block_size grid rank Hg Hr)) as Hi.
  assert (Hl : 0 <= interior_local_offset n rank
               /\ interior_local_offset n rank + n * q <= expected_size n size rank).
  { rewrite expected_size_is. unfold interior_local_offset.
    destruct (rank =? 0); cbn [orb]; [lia|]. destruct (rank =? size - 1); lia. }
  rewrite (slice_slice _ _ _ _ _ _ (block_slice grid rank Hg Hr)) in Hi by lia.
  assert (Ho : slice_offset n size rank + interior_local_offset n rank = rank * (n * q)).
  { unfold interior_local_offset. destruct (Z.eqb_spec rank 0) as [->|Hne].
    - reflexivity.
    - rewrite slice_offset_is by lia. lia. }
  rewrite Ho in Hi.
  pose proof (rank_block_le rank ltac:(lia)).
  rewrite slice_ok in Hi by (try apply Z.mul_nonneg_nonneg; lia).
  injection Hi as Hi. rewrite <- Hi. do 2 f_equal.
  rewrite Z2Nat.inj_mul by lia. reflexivity.
Qed.

Lemma scatter_gather_round_trip grid final0 :
  Buffer.size grid = n * n -> Buffer.size final0 = n * n ->
  gather n (map (block grid) (range 0 size)) final0 = Some grid.
Proof.
  intros Hg Hf. pose proof block_pos.
  rewrite gather_ok by (try apply blocks_sized; assumption).
  f_equal. rewrite ranked_map_range by lia. rewrite map_map. cbn [fst snd].
  rewrite (map_ext_in _ (fun r => firstn (Z.to_nat (n * q))
                                   (skipn (Z.to_nat r * Z.to_nat (n * q)) grid))).
  2:{ intros r Hr. apply in_range in Hr. apply interior_block; [exact Hg|lia]. }
  unfold range. rewrite map_map.
  rewrite (map_ext _ (fun k => firstn (Z.to_nat (n * q))
                                (skipn (k * Z.to_nat (n * q)) grid))).
  2:{ intros k. do 2 f_equal. f_equal. lia. }
  apply concat_pieces.
  unfold Buffer.size in Hg.
  apply Nat2Z.inj. rewrite Hg, Nat2Z.inj_mul, !Z2Nat.id by lia.
  rewrite n_is at 1. lia.
Qed.

(** The interior as the buffer without its halo rows. *)
Lemma interior_without_halo rank (mesh : list T) :
  0 <= rank < size -> Buffer.size mesh = expected_size n size rank ->
  interior rank mesh
  = if rank =? 0 then firstn (List.length mesh - Z.to_nat n) mesh
    else if rank =? size - 1 then skipn (Z.to_nat n) mesh
    else firstn (List.length mesh - 2 * Z.to_nat n) (skipn (Z.to_nat n) mesh).
Proof.
  intros Hr Hm. pose proof block_pos. pose proof n_pos'.
  unfold interior, interior_local_offset.
  rewrite expected_size_is in Hm. unfold Buffer.size in Hm.
  destruct (Z.eqb_spec rank 0) as [->|Hne]; cbn [orb] in Hm.
  - cbn [Z.to_nat skipn]. f_equal. lia.
  - destruct (Z.eqb_spec rank (size - 1)) as [->|Hlast].
    + apply firstn_all2. rewrite length_skipn. lia.
    + f_equal. lia.
Qed.

End DivisibleData.

(** ** C7 *)

(** Claim C7, as the code has it. With at least two workers whose count
    divides [n] and local buffers of the expected sizes: rank 0 contributes
    its buffer without the last [n] elements, the last rank its buffer
    without the first [n], a rank in between its buffer without both; every
    contribution has [n * (n/size)] elements; and the gather of the scattered
    blocks, assembled in rank order, is the original grid. *)
Theorem gather_assembles_interior_rows {T : Type} (n size : Z)
    (grid final0 : list T) (bufs : list (list T)) :
  2 <= size -> 0 < n -> n * n + 2 * n < 2 ^ 31 -> (size | n) ->
  Buffer.size grid = n * n -> Buffer.size final0 = n * n ->
  Forall2 (fun rank buf => Buffer.size buf = expected_size n size rank)
          (range 0 size) bufs ->
  exists local,
    initial_communication n grid bufs = Some local
    /\ Forall2 (fun rank mesh =>
         contribution n size rank mesh
         = Some (n * (n / size),
                 if rank =? 0 then firstn (List.length mesh - Z.to_nat n) mesh
                 else if rank =? size - 1 then skipn (Z.to_nat n) mesh
                 else firstn (List.length mesh - 2 * Z.to_nat n)
                             (skipn (Z.to_nat n) mesh)))
         (range 0 size) local
    /\ gather n local final0 = Some grid.
Proof.
  intros Hs Hn Hfit Hdiv Hg Hf Hb.
  assert (Hq : n = size * (n / size)) by (apply n_eq; solve [assumption | lia]).
  assert (Hqp : 0 < n / size) by (apply q_pos; solve [assumption | lia]).
  eexists. split; [|split].
  - apply (initial_communication_ok n size (n / size)); assumption.
  - pose proof (blocks_sized n size (n / size) Hs Hqp Hq Hfit grid Hg) as Hsz.
    apply Forall2_with_Forall_l with (Q := fun r => 0 <= r < size) in Hsz.
    2:{ apply Forall_forall. intros r Hr. apply in_range in Hr. lia. }
    eapply Forall2_impl; [|exact Hsz].
    intros r m [Hr Hm]. cbn beta in Hm |- *.
    rewrite (contribution_ok n size (n / size)) by assumption.
    rewrite (interior_without_halo n size (n / size)) by assumption.
    reflexivity.
  - apply (scatter_gather_round_trip n size (n / size)); assumption.
Qed.

(** ** The halo exchange on a chain of at least two ranks *)

Section ExchangeChain.
Context {T : Type}.
Variables n size : Z.
Hypothesis n_range : 0 <= n < 2 ^ 31.
Hypothesis two_ranks : 2 <= size.

Implicit Types (p : @proc T) (m : @message T) (mail : list (@message T)).

Lemma take_message_none from to mail :
  Forall (fun m => dst m <> to) mail -> take_message from to mail = None.
Proof.
  induction 1 as [|m mail Hm _ IH]; [reflexivity|].
  cbn [take_message]. replace (dst m =? to) with false by (symmetry; now apply Z.eqb_neq).
  rewrite andb_false_r, IH. reflexivity.
Qed.

Lemma take_message_app from to M m rest :
  Forall (fun m => dst m <> to) M -> src m = from -> dst m = to ->
  take_message from to (M ++ m :: rest) = Some (m, M ++ rest).
Proof.
  intros HM Hs Hd. induction HM as [|m' M Hm' _ IH].
  - cbn [app take_message]. rewrite Hs, Hd, !Z.eqb_refl. reflexivity.
  - cbn [app take_message].
    replace (dst m' =? to) with false by (symmetry; now apply Z.eqb_neq).
    rewrite andb_false_r, IH. reflexivity.
Qed.

Lemma valid_rank_in r : 0 <= r < size -> valid_rank size r = true.
Proof. intros H. unfold valid_rank. apply andb_true_iff. split; [apply Z.leb_le|apply Z.ltb_lt]; lia. Qed.

Lemma int_n : int_of_size_t n = n.
Proof. apply int_of_size_t_small. lia. Qed.

Lemma sweep_cons rank p rest mail :
  sweep size rank (p :: rest) mail
  = (r1 <- advance size rank (buf p) (pending p) (posted p) mail ;;
     let '(p', mail1, moved) := r1 in
     r2 <- sweep size (rank + 1) rest mail1 ;;
     let '(rest', mail2, moved') := r2 in
     Some (p' :: rest', mail2, moved || moved')).
Proof. reflexivity. Qed.

(** Second sweep: every waiting rank finds its message at the head. *)
Lemma sweep_waiting ps : forall rank mail,
  0 <= rank -> rank + Z.of_nat (List.length ps) = size ->
  waiting_then_done n rank ps -> chain_mail n (rank + 1) mail ->
  S (List.length mail) = List.length ps ->
  exists ps' moved,
    sweep size rank ps mail = Some (ps', [], moved)
    /\ Forall (fun p => pending p = []) ps'
    /\ Forall2 (fun p p' => Buffer.size (buf p') = Buffer.size (buf p)) ps ps'
    /\ (2 <= List.length ps -> moved = true)%nat.
Proof.
  induction ps as [|p rest IH]; intros rank mail Hr Hlen Hw Hc Hm; [contradiction|].
  destruct rest as [|p2 rest].
  - cbn [waiting_then_done] in Hw.
    destruct mail; [|discriminate].
    cbn [sweep]. rewrite Hw. cbn [advance bind sweep].
    exists [ {| buf := buf p; pending := []; posted := false |} ], false.
    split; [reflexivity|]. split; [repeat constructor|].
    split; [repeat constructor|]. cbn. lia.
  - destruct Hw as [(Hpost & c & Hp & Hsrc & Hdst & Hmax & Hat0 & Hat) Hrest].
    destruct mail as [|m mail]; [discriminate|].
    destruct Hc as (Hms & Hmd & Hmsz & Hc).
    cbn [List.length] in Hlen, Hm.
    rewrite sweep_cons, Hp, Hpost. cbn [advance].
    rewrite Hsrc, Hdst, valid_rank_in by lia. cbn [andb bind].
    cbn [take_message]. rewrite Hms, Hmd.
    replace (rank + 1 - 1) with rank by lia. rewrite !Z.eqb_refl. cbn [andb].
    rewrite Hmsz, Hmax, Z.leb_refl.
    destruct (overwrite_ok (buf p) (recv_at c) (payload m)) as [b' Hb']; [lia|lia|].
    rewrite Hb'. cbn [bind advance fst snd].
    destruct (IH (rank + 1) mail) as (ps' & moved & Hsw & Hdone & Hsz & _);
      [lia| cbn [List.length]; lia | exact Hrest | exact Hc | cbn [List.length]; lia |].
    rewrite Hsw. cbn [bind].
    eexists. eexists. split; [reflexivity|].
    split; [constructor; [reflexivity|exact Hdone]|].
    split; [constructor; [cbn [buf]; exact (overwrite_size _ _ _ _ Hb')|exact Hsz]|].
    reflexivity.
Qed.

(** First sweep, from a rank other than 0 on: the rank finds the message of
    its predecessor, answers it and, unless it is the last, blocks in the
    exchange with its successor. *)
Lemma sweep_entering ps : forall rank M m,
  1 <= rank -> rank + Z.of_nat (List.length ps) = size -> ps <> [] ->
  all_entering n size rank ps ->
  Forall (fun m => dst m < rank) M ->
  src m = rank - 1 -> dst m = rank -> Buffer.size (payload m) = n ->
  exists ps' tail,
    sweep size rank ps (M ++ [m]) = Some (ps', M ++ tail, true)
    /\ waiting_then_done n rank ps'
    /\ chain_mail n rank tail
    /\ List.length tail = List.length ps
    /\ Forall2 (fun p p' => Buffer.size (buf p') = Buffer.size (buf p)) ps ps'.
Proof.
  induction ps as [|p rest IH]; intros rank M m Hr Hlen Hne Hall HM Hms Hmd Hmsz;
    [congruence|].
  destruct Hall as [(Hpost & Hpend & Hsz) Hall].
  cbn [List.length] in Hlen.
  assert (HM' : Forall (fun m => dst m <> rank) M).
  { eapply Forall_impl; [|exact HM]. cbn beta. intros; lia. }
  (* the exchange with [rank - 1] *)
  assert (Hsend1 : exists d, slice (buf p) n n = Some d /\ Buffer.size d = n).
  { eexists. split; [apply slice_ok; lia|].
    eapply slice_size. apply slice_ok; lia. }
  destruct Hsend1 as (d1 & Hd1 & Hd1sz).
  destruct (overwrite_ok (buf p) 0 (payload m)) as [b1 Hb1]; [lia|lia|].
  pose proof (overwrite_size _ _ _ _ Hb1) as Hb1sz.
  set (m1 := {| src := rank; dst := rank - 1; payload := d1 |}).
  assert (Htake1 : take_message (rank - 1) rank ((M ++ [m]) ++ [m1])
                   = Some (m, M ++ [m1])).
  { rewrite <- app_assoc. cbn [app]. now apply take_message_app. }
  rewrite sweep_cons, Hpend, Hpost.
  unfold communicate_boundary.
  replace (rank =? 0) with false by (symmetry; apply Z.eqb_neq; lia).
  rewrite int_n.
  destruct rest as [|p2 rest].
  - (* the last rank *)
    cbn [List.length] in Hlen.
    replace (rank =? size - 1) with true by (symmetry; apply Z.eqb_eq; lia).
    cbn [advance sr_dest sr_source send_at send_count recv_at recv_max
         make_offsets send_offset_1 recv_offset_1].
    rewrite valid_rank_in by lia. cbn [andb].
    rewrite Hd1. cbn [bind]. fold m1. rewrite Htake1.
    rewrite Hmsz, Z.leb_refl, Hb1. cbn [bind advance fst snd sweep].
    exists [ {| buf := b1; pending := []; posted := false |} ], [m1].
    split; [reflexivity|].
    split; [reflexivity|].
    split; [cbn; auto|].
    split; [reflexivity|].
    repeat constructor. exact Hb1sz.
  - (* a rank in between *)
    cbn [List.length] in Hlen.
    replace (rank =? size - 1) with false by (symmetry; apply Z.eqb_neq; lia).
    cbn [advance sr_dest sr_source send_at send_count recv_at recv_max
         make_offsets send_offset_1 recv_offset_1 send_offset_2 recv_offset_2].
    rewrite !valid_rank_in by lia. cbn [andb].
    rewrite Hd1. cbn [bind]. fold m1. rewrite Htake1.
    rewrite Hmsz, Z.leb_refl, Hb1. cbn [bind].
    rewrite (wrap64_small (2 * n)) by lia.
    rewrite !wrap64_small by lia.
    assert (Hsend2 : exists d, slice b1 (Buffer.size (buf p) - 2 * n) n = Some d
                               /\ Buffer.size d = n).
    { eexists. split; [apply slice_ok; lia|].
      eapply slice_size. apply slice_ok; lia. }
    destruct Hsend2 as (d2 & Hd2 & Hd2sz).
    rewrite Hd2. cbn [bind].
    set (m2 := {| src := rank; dst := rank + 1; payload := d2 |}).
    rewrite take_message_none.
    2:{ apply Forall_app. split; [apply Forall_app; split|].
        - exact HM'.
        - repeat constructor. cbn. lia.
        - repeat constructor. cbn. lia. }
    cbn [bind fst snd negb].
    destruct (IH (rank + 1) (M ++ [m1]) m2) as (ps' & tail & Hsw & Hw & Hc & Hl & Hsz2).
    + lia.
    + cbn [List.length]. lia.
    + discriminate.
    + exact Hall.
    + apply Forall_app. split.
      * eapply Forall_impl; [|exact HM]. cbn beta. intros; lia.
      * repeat constructor. cbn. lia.
    + cbn. lia.
    + reflexivity.
    + exact Hd2sz.
    + rewrite Hsw. cbn [bind].
      eexists. exists (m1 :: tail).
      split; [rewrite <- app_assoc; reflexivity|].
      split.
      { cbn [waiting_then_done]. destruct ps' as [|q ps']; [contradiction|].
        split; [|exact Hw].
        split; [reflexivity|]. eexists. split; [reflexivity|].
        cbn [sr_source sr_dest recv_max recv_at buf].
        repeat split; try reflexivity; lia. }
      split; [cbn [chain_mail]; repeat split; auto|].
      split; [cbn [List.length] in *; lia|].
      constructor; [exact Hb1sz|exact Hsz2].
Qed.


Lemma exchange_done fuel (ps : list (@proc T)) mail :
  Forall (fun p => pending p = []) ps -> exchange fuel size ps mail = Some ps.
Proof.
  intros H.
  assert (E : forallb (fun p : @proc T => match pending p with [] => true | _ => false end) ps
              = true).
  { apply forallb_forall. intros p Hp.
    rewrite Forall_forall in H. now rewrite (H p Hp). }
  destruct fuel; cbn [exchange]; rewrite E; reflexivity.
Qed.

Lemma exchange_step fuel (p : @proc T) c calls ps mail :
  pending p = c :: calls ->
  exchange (S fuel) size (p :: ps) mail
  = (r <- sweep size 0 (p :: ps) mail ;;
     let '(ps', mail', moved) := r in
     if moved then exchange fuel size ps' mail' else None).
Proof. intros H. cbn [exchange forallb]. rewrite H. reflexivity. Qed.

(** The ranks as they enter the exchange. *)
Let enter (rw : Z * (offsets * list T)) : @proc T :=
  {| buf := snd (snd rw);
     pending := communicate_boundary n size (fst rw) (fst (snd rw));
     posted := false |}.

Let well_formed (w : offsets * list T) : Prop :=
  fst w = make_offsets n (Buffer.size (snd w))
  /\ 2 * n <= Buffer.size (snd w) < 2 ^ 64.

Lemma all_entering_world (world : list (offsets * list T)) : forall rank,
  Forall well_formed world ->
  all_entering n size rank
    (map enter (combine (range rank (rank + Z.of_nat (List.length world))) world)).
Proof.
  induction world as [|w world IH]; intros rank Hw; [cbn; rewrite range_empty by lia; exact I|].
  inversion Hw as [|? ? [Ho Hsz] Hw']; subst.
  rewrite range_cons by (cbn [List.length]; lia).
  replace (rank + Z.of_nat (List.length (w :: world)))
    with (rank + 1 + Z.of_nat (List.length world)) by (cbn [List.length]; lia).
  cbn [combine map all_entering]. split; [|apply IH; exact Hw'].
  unfold entering, enter. cbn [buf pending posted fst snd].
  rewrite Ho. auto.
Qed.

Lemma waiting_then_done_nonempty rank (ps : list (@proc T)) :
  waiting_then_done n rank ps -> ps <> [].
Proof. destruct ps; [contradiction|discriminate]. Qed.

(** With at least two ranks, buffers of at least two rows and the offsets of
    the constructor, the exchange goes through and leaves every buffer with
    its length. *)
Lemma communicate_boundary_all_ok (world : list (offsets * list T)) :
  comm_size world = size -> Forall well_formed world ->
  exists out,
    communicate_boundary_all n world = Some out
    /\ Forall2 (fun w b => Buffer.size b = Buffer.size (snd w)) world out.
Proof.
  intros Hsize Hwf. unfold communicate_boundary_all. rewrite Hsize.
  pose proof (all_entering_world world 0 Hwf) as Hent.
  unfold comm_size in Hsize.
  replace (0 + Z.of_nat (List.length world)) with size in Hent by lia.
  fold enter. unfold ranked, comm_size. rewrite Hsize.
  remember (map enter (combine (range 0 size) world)) as ps eqn:Eps0.
  assert (Hps : List.length ps = List.length world).
  { rewrite Eps0. rewrite length_map, length_combine, length_range. lia. }
  assert (Hbufs : map buf ps = map snd world).
  { rewrite Eps0. rewrite map_map. unfold enter. cbn [buf].
    rewrite <- (map_map snd snd). f_equal. apply map_snd_combine_eq.
    rewrite length_range. lia. }
  clear Eps0.
  destruct ps as [|p0 ps1]; [cbn in Hps; lia|].
  destruct ps1 as [|p1 ps2] eqn:Eps1; [cbn in Hps; lia|].
  rewrite <- Eps1 in *.
  assert (Hne1 : ps1 <> []) by (rewrite Eps1; discriminate).
  clear Eps1 p1 ps2.
  destruct Hent as [(Hpost0 & Hpend0 & Hsz0) Hent1].
  unfold communicate_boundary in Hpend0. cbn [Z.eqb] in Hpend0.
  rewrite int_n in Hpend0.
  cbn [make_offsets send_offset_2 recv_offset_2] in Hpend0.
  rewrite (wrap64_small (2 * n)) in Hpend0 by lia.
  rewrite !wrap64_small in Hpend0 by lia.
  (* enough fuel for two sweeps *)
  assert (Hfuel : exists f, (2 * List.length (concat (map pending (p0 :: ps1))) = S (S f))%nat).
  { cbn [map concat]. rewrite Hpend0, length_app. cbn [List.length].
    exists (2 * List.length (concat (map pending ps1)))%nat. lia. }
  destruct Hfuel as [f ->].
  (* first sweep *)
  rewrite (exchange_step _ _ _ _ _ _ Hpend0).
  rewrite sweep_cons, Hpend0, Hpost0.
  cbn [advance sr_dest sr_source send_at send_count recv_at recv_max].
  rewrite valid_rank_in by lia. cbn [andb].
  assert (Hsend : exists d, slice (buf p0) (Buffer.size (buf p0) - 2 * n) n = Some d
                            /\ Buffer.size d = n).
  { eexists. split; [apply slice_ok; lia|].
    eapply slice_size. apply slice_ok; lia. }
  destruct Hsend as (d0 & Hd0 & Hd0sz). rewrite Hd0. cbn [bind app take_message src dst].
  cbn [Z.eqb andb negb].
  set (m0 := {| src := 0; dst := 1; payload := d0 |}).
  destruct (sweep_entering ps1 1 [] m0) as (ps1' & tail & Hsw & Hw & Hc & Hl & Hsz1);
    try reflexivity; try assumption; try lia.
  { cbn [List.length] in Hps. lia. }
  { constructor. }
  cbn [app] in Hsw. change (0 + 1) with 1. cbn [bind]. rewrite Hsw. cbn [bind orb].
  (* second sweep *)
  set (p0' := {| buf := buf p0; pending := _; posted := true |}).
  rewrite (exchange_step _ p0' _ _ _ _ eq_refl).
  pose proof (waiting_then_done_nonempty _ _ Hw) as Hne1'.
  destruct (sweep_waiting (p0' :: ps1') 0 tail) as (ps'' & moved & Hsw2 & Hdone & Hsz2 & Hmoved).
  - lia.
  - cbn [List.length] in Hps |- *. rewrite <- (Forall2_length Hsz1). lia.
  - cbn [waiting_then_done]. destruct ps1' as [|q ps1']; [congruence|].
    split; [|exact Hw].
    split; [reflexivity|]. eexists. split; [reflexivity|].
    cbn [sr_source sr_dest recv_max recv_at buf p0']. repeat split; try reflexivity; lia.
  - exact Hc.
  - cbn [List.length]. rewrite <- (Forall2_length Hsz1). lia.
  - rewrite Hsw2. cbn [bind]. rewrite Hmoved.
    2:{ cbn [List.length]. destruct ps1'; [congruence|]. cbn [List.length]. lia. }
    rewrite exchange_done by exact Hdone. cbn [bind].
    eexists. split; [reflexivity|].
    (* lengths *)
    assert (Hall : Forall2 (fun p p'' => Buffer.size (buf p'') = Buffer.size (buf p))
                           (p0 :: ps1) ps'').
    { inversion Hsz2 as [|? q ? qs Hq Hqs]; subst. constructor; [exact Hq|].
      clear - Hsz1 Hqs. revert qs Hqs.
      induction Hsz1 as [|a b la lb Hab _ IH]; intros qs Hqs; inversion Hqs; subst;
        constructor; [congruence|auto]. }
    clear - Hall Hbufs. revert Hall Hbufs. generalize (p0 :: ps1) as qs. 
    intros qs. revert qs ps''.
    induction world as [|w world IH]; intros qs ps'' Hall Hbufs.
    + destruct qs; [|discriminate]. inversion Hall. constructor.
    + destruct qs as [|q qs]; [discriminate|]. cbn [map] in Hbufs.
      injection Hbufs as Hq Hqs. inversion Hall; subst. cbn [map].
      constructor; [congruence|]. apply IH with (qs := qs); assumption.
Qed.

End ExchangeChain.

(** ** The distributed loop *)

Section Loop.
Context {T K : Type} (M : Kernel T K) (c : @conditions T).
Variable thread : Z.

Implicit Types (w : @worker T K) (ws : list (@worker T K)).


Lemma local_update_i w : i (local_update M c thread w) = i w.
Proof. unfold local_update. destruct (exit_local w); reflexivity. Qed.

Lemma local_update_offs w : offs (local_update M c thread w) = offs w.
Proof. unfold local_update. destruct (exit_local w); reflexivity. Qed.


Lemma local_update_at_cap w :
  i w = n_max c - 1 -> exit_local (local_update M c thread w) = true.
Proof.
  intros H. unfold local_update. destruct (exit_local w) eqn:E; [exact E|].
  cbn [exit_local]. rewrite H, Z.eqb_refl. apply orb_true_r.
Qed.

Lemma local_update_trace w :
  trace (local_update M c thread w)
  = trace w ++ (if exit_local w then [] else [EvUpdate]).
Proof.
  unfold local_update. destruct (exit_local w); cbn [trace]; [now rewrite app_nil_r|reflexivity].
Qed.

Lemma round_of_exit_local exit m w :
  exit_local (round_of M c thread exit m w) = exit_local (local_update M c thread w).
Proof. unfold round_of, write_back. destruct exit; reflexivity. Qed.

Lemma round_of_i exit m w :
  i (round_of M c thread exit m w) = if exit then i w else i w + 1.
Proof.
  unfold round_of, write_back. destruct exit; cbn [after_exchange after_allreduce i];
    now rewrite local_update_i.
Qed.

Lemma round_of_offs exit m w :
  offs (round_of M c thread exit m w) = offs w.
Proof.
  unfold round_of, write_back. destruct exit; cbn [after_exchange after_allreduce offs];
    now rewrite local_update_offs.
Qed.

Lemma round_of_trace exit m w :
  trace (round_of M c thread exit m w)
  = trace w ++ (if exit_local w then [] else [EvUpdate])
    ++ [EvAllreduce; EvExchange] ++ (if exit then [] else [EvSetMesh]).
Proof.
  unfold round_of, write_back.
  destruct exit; cbn [after_exchange after_allreduce trace];
    rewrite local_update_trace, <- ?app_assoc; cbn [app]; reflexivity.
Qed.

Lemma round_of_mesh_obj_exit m w :
  mesh_obj (round_of M c thread true m w) = mesh_obj (local_update M c thread w).
Proof. reflexivity. Qed.

Lemma round_of_mesh_obj_continue m w :
  mesh_obj (round_of M c thread false m w)
  = set_mesh M m (mesh_obj (local_update M c thread w)).
Proof. reflexivity. Qed.

Lemma round_map exit ws ms :
  List.length ms = List.length ws ->
  map (write_back M exit)
      (map after_exchange
           (combine (map (after_allreduce M) (map (local_update M c thread) ws)) ms))
  = map (fun wm => round_of M c thread exit (snd wm) (fst wm)) (combine ws ms).
Proof.
  revert ms. induction ws as [|w ws IH]; intros [|m ms] Hl;
    try discriminate; [reflexivity|].
  cbn [map combine]. f_equal.
  apply (IH ms). now injection Hl.
Qed.

(** What a pass through the loop body does, for any exchange. *)
Lemma mpi_round_inv comm ws ws' exit :
  mpi_round M c comm thread ws = Some (ws', exit) ->
  exit = allreduce_land (map (local_update M c thread) ws)
  /\ exists ms,
       comm (map (fun w => (offs w, mesh w))
                 (map (after_allreduce M) (map (local_update M c thread) ws))) = Some ms
       /\ List.length ms = List.length ws
       /\ ws' = map (fun wm => round_of M c thread exit (snd wm) (fst wm)) (combine ws ms).
Proof.
  unfold mpi_round. intros H.
  destruct (comm _) as [ms|] eqn:Ec; [|discriminate]. cbn [bind] in H.
  destruct (Nat.eqb_spec (List.length ms)
              (List.length (map (after_allreduce M) (map (local_update M c thread) ws))))
    as [Hl|]; [|discriminate].
  rewrite !length_map in Hl.
  injection H as <- <-. split; [reflexivity|].
  exists ms. split; [reflexivity|]. split; [exact Hl|].
  now apply round_map.
Qed.

Lemma mpi_round_intro comm ws ms :
  comm (map (fun w => (offs w, mesh w))
            (map (after_allreduce M) (map (local_update M c thread) ws))) = Some ms ->
  List.length ms = List.length ws ->
  mpi_round M c comm thread ws
  = Some (map (fun wm => round_of M c thread
                           (allreduce_land (map (local_update M c thread) ws))
                           (snd wm) (fst wm)) (combine ws ms),
          allreduce_land (map (local_update M c thread) ws)).
Proof.
  intros Hc Hl. unfold mpi_round. rewrite Hc. cbn [bind].
  rewrite !length_map, Hl, Nat.eqb_refl. f_equal. f_equal.
  now apply round_map.
Qed.

Lemma Forall2_round ws ms exit :
  List.length ms = List.length ws ->
  Forall2 (fun w w' => exists m, w' = round_of M c thread exit m w)
          ws (map (fun wm => round_of M c thread exit (snd wm) (fst wm)) (combine ws ms)).
Proof.
  revert ms. induction ws as [|w ws IH]; intros [|m ms] Hl; try discriminate;
    [constructor|].
  cbn [combine map fst snd]. constructor; [now exists m|].
  apply IH. now injection Hl.
Qed.

Lemma Forall2_compose {A B C : Type} (R1 : A -> B -> Prop) (R2 : B -> C -> Prop) l1 l2 l3 :
  Forall2 R1 l1 l2 -> Forall2 R2 l2 l3 ->
  Forall2 (fun a c => exists b, R1 a b /\ R2 b c) l1 l3.
Proof.
  intros H1. revert l3. induction H1 as [|a b l1 l2 Hab _ IH]; intros l3 H2;
    inversion H2; subst; constructor; eauto.
Qed.

Lemma occurrences_app e tr tr' :
  occurrences e (tr ++ tr') = (occurrences e tr + occurrences e tr')%nat.
Proof. apply count_occ_app. Qed.


(** Any rank: at most one update per pass. *)
Lemma round_of_updates exit m w :
  (occurrences EvUpdate (trace (round_of M c thread exit m w))
   <= S (occurrences EvUpdate (trace w)))%nat.
Proof.
  rewrite round_of_trace, !occurrences_app.
  destruct exit, (exit_local w); cbn; lia.
Qed.

Lemma mpi_loop_step comm fuel ws r0 :
  mpi_loop M c comm thread (S fuel) ws r0
  = match mpi_round M c comm thread ws with
    | None => Abort
    | Some (ws', exit) =>
        if exit then Done (ws', S r0)
        else mpi_loop M c comm thread fuel ws' (S r0)
    end.
Proof. reflexivity. Qed.


Lemma allreduce_at_cap ws :
  Forall (fun w => i w = n_max c - 1) ws ->
  allreduce_land (map (local_update M c thread) ws) = true.
Proof.
  intros H. unfold allreduce_land. apply forallb_forall. intros w' Hw'.
  apply in_map_iff in Hw'. destruct Hw' as (w & <- & Hw).
  apply local_update_at_cap. rewrite Forall_forall in H. now apply H.
Qed.

Lemma mpi_loop_bounded comm fuel : forall ws r0 j,
  Forall (fun w => i w = j) ws -> 1 <= j <= n_max c - 1 ->
  (Z.to_nat (n_max c - j) <= fuel)%nat ->
  mpi_loop M c comm thread fuel ws r0 <> Timeout
  /\ forall ws' r,
       mpi_loop M c comm thread fuel ws r0 = Done (ws', r) ->
       (r <= r0 + Z.to_nat (n_max c - j))%nat
       /\ Forall2 (fun w w' =>
            (occurrences EvUpdate (trace w')
             <= occurrences EvUpdate (trace w) + Z.to_nat (n_max c - j))%nat) ws ws'.
Proof.
  induction fuel as [|fuel IH]; intros ws r0 j Hi Hj Hf; [lia|].
  rewrite mpi_loop_step.
  destruct (mpi_round M c comm thread ws) as [[ws1 exit]|] eqn:Er.
  2:{ split; [discriminate|]. intros ? ? H. discriminate H. }
  apply mpi_round_inv in Er. destruct Er as (Hexit & ms & _ & Hl & ->).
  pose proof (Forall2_round ws ms exit Hl) as Hstep.
  destruct exit.
  - split; [discriminate|]. intros ws' r H. injection H as <- <-.
    split; [lia|].
    eapply Forall2_impl; [|exact Hstep].
    intros w w' [m ->]. pose proof (round_of_updates true m w). lia.
  - assert (Hlt : j < n_max c - 1).
    { destruct (Z.eq_dec j (n_max c - 1)) as [->|]; [|lia].
      rewrite (allreduce_at_cap ws Hi) in Hexit. discriminate Hexit. }
    assert (Hi1 : Forall (fun w => i w = j + 1)
              (map (fun wm => round_of M c thread false (snd wm) (fst wm)) (combine ws ms))).
    { apply Forall_forall. intros w' Hw'. apply in_map_iff in Hw'.
      destruct Hw' as ([w m] & <- & Hin). cbn [fst snd].
      rewrite round_of_i. apply in_combine_l in Hin.
      rewrite Forall_forall in Hi. rewrite (Hi w Hin). reflexivity. }
    destruct (IH _ (S r0) (j + 1) Hi1 ltac:(lia) ltac:(lia)) as [Hnt Hdone].
    split; [exact Hnt|]. intros ws' r H.
    destruct (Hdone ws' r H) as [Hr Hrest]. split; [lia|].
    eapply Forall2_impl; [|exact (Forall2_compose _ _ _ _ _ Hstep Hrest)].
    intros w w' (w1 & [m ->] & Hw1). cbn beta in Hw1.
    pose proof (round_of_updates false m w). lia.
Qed.

Lemma local_loop_step update fuel (s : @local_state K) :
  local_loop M c update (S fuel) s
  = let k := update (l_mesh_obj s) in
    let exit := lt M (get_error M k) (tolerance c) || (l_i s =? n_max c - 1) in
    let out := if exit then l_console s ++ [Iter (l_i s)] else l_console s in
    let s' := {| l_mesh_obj := k; l_i := l_i s + 1; l_console := out;
                 l_trace := l_trace s ++ [EvUpdate] |} in
    if exit then Done s' else local_loop M c update fuel s'.
Proof. reflexivity. Qed.

Lemma local_loop_bounded update fuel : forall (s : @local_state K),
  1 <= l_i s <= n_max c - 1 ->
  (Z.to_nat (n_max c - l_i s) <= fuel)%nat ->
  exists s', local_loop M c update fuel s = Done s'
    /\ (occurrences EvUpdate (l_trace s')
        <= occurrences EvUpdate (l_trace s) + Z.to_nat (n_max c - l_i s))%nat.
Proof.
  induction fuel as [|fuel IH]; intros s Hi Hf; [lia|].
  rewrite local_loop_step. cbv zeta.
  destruct (lt M _ _ || (l_i s =? n_max c - 1)) eqn:Ex.
  - eexists. split; [reflexivity|]. cbn [l_trace].
    rewrite occurrences_app. cbn. lia.
  - apply orb_false_iff in Ex. destruct Ex as [_ Ex]. apply Z.eqb_neq in Ex.
    edestruct IH as (s' & Hs' & Hocc); [| |exists s'; split; [exact Hs'|]].
    + cbn [l_i]. lia.
    + cbn [l_i]. lia.
    + cbn [l_trace l_i] in Hocc. rewrite occurrences_app in Hocc. cbn in Hocc. lia.
Qed.

End Loop.

(** ** The distributed loop with the halo exchange of the solver *)

Section ShapedLoop.
Context {T K : Type} (M : Kernel T K) (c : @conditions T).
Hypothesis laws : KernelLaws M.
Variables (thread n : Z).
Hypothesis n_range : 0 <= n < 2 ^ 31.

Implicit Types (w : @worker T K) (ws : list (@worker T K)).

Lemma local_update_size w :
  Buffer.size (get_mesh M (mesh_obj (local_update M c thread w)))
  = Buffer.size (get_mesh M (mesh_obj w)).
Proof.
  unfold local_update. destruct (exit_local w); [reflexivity|].
  cbn [mesh_obj]. unfold Buffer.size. now rewrite (length_update_par M laws).
Qed.

Lemma round_of_size exit m w :
  Buffer.size m = Buffer.size (get_mesh M (mesh_obj w)) ->
  Buffer.size (get_mesh M (mesh_obj (round_of M c thread exit m w)))
  = Buffer.size (get_mesh M (mesh_obj w)).
Proof.
  intros Hm. destruct exit.
  - rewrite round_of_mesh_obj_exit. apply local_update_size.
  - rewrite round_of_mesh_obj_continue.
    rewrite (get_mesh_set M laws). exact Hm.
Qed.

(** The exchange goes through on shaped workers, and the pass keeps the
    shape. *)
Lemma mpi_round_shaped sizes ws :
  shaped M n sizes ws -> 2 <= comm_size ws ->
  exists ws',
    mpi_round M c (communicate_boundary_all n) thread ws
    = Some (ws', allreduce_land (map (local_update M c thread) ws))
    /\ shaped M n sizes ws'
    /\ Forall2 (fun w w' => exists m,
                  w' = round_of M c thread
                         (allreduce_land (map (local_update M c thread) ws)) m w) ws ws'.
Proof.
  intros Hsh Hsize.
  set (world := map (fun w => (offs w, mesh w))
                    (map (after_allreduce M) (map (local_update M c thread) ws))).
  assert (Hworld : world = map (fun w => (offs w, get_mesh M (mesh_obj (local_update M c thread w)))) ws).
  { unfold world. rewrite !map_map. apply map_ext. intros w.
    cbn [after_allreduce offs mesh]. now rewrite local_update_offs. }
  destruct (communicate_boundary_all_ok n (comm_size ws) n_range Hsize world)
    as (ms & Hms & Hlen).
  - unfold world, comm_size. now rewrite !length_map.
  - rewrite Hworld. apply Forall_forall. intros x Hx. apply in_map_iff in Hx.
    destruct Hx as (w & <- & Hw). cbn [fst snd]. rewrite local_update_size.
    unfold shaped in Hsh.
    assert (Hex : exists len, Buffer.size (get_mesh M (mesh_obj w)) = len
                      /\ offs w = make_offsets n len /\ 2 * n <= len < 2 ^ 64).
    { clear - Hsh Hw. induction Hsh as [|len w0 ls ws0 H0 _ IH]; [contradiction|].
      destruct Hw as [->|Hw]; [eauto|auto]. }
    destruct Hex as (len & Hl & Ho & Hb). rewrite Hl. auto.
  - assert (Hl : List.length ms = List.length ws).
    { apply Forall2_length in Hlen. rewrite <- Hlen, Hworld. now rewrite length_map. }
    eexists. split; [apply mpi_round_intro; [exact Hms|exact Hl]|].
    split; [|now apply Forall2_round].
    rewrite Hworld in Hlen. unfold shaped in *.
    clear - Hsh Hlen laws. revert ms Hlen.
    generalize (allreduce_land (map (local_update M c thread) ws)) as exit.
    induction Hsh as [|len w ls ws0 (Hl & Ho & Hb) _ IH]; intros exit ms Hlen.
    + inversion Hlen. constructor.
    + cbn [map] in Hlen. inversion Hlen as [|? m ? ms' Hm Hms]; subst.
      cbn [combine map fst snd]. constructor; [|apply IH; exact Hms].
      cbn [snd] in Hm. rewrite local_update_size in Hm.
      rewrite round_of_size by exact Hm. rewrite round_of_offs. auto.
Qed.

Lemma shaped_length sizes ws : shaped M n sizes ws -> List.length ws = List.length sizes.
Proof. intros H. symmetry. exact (Forall2_length H). Qed.

Lemma forall2_exists_i {A : Type} (R : A -> A -> Prop) (P Q : A -> Prop) l l' :
  Forall2 R l l' -> Forall P l -> (forall a b, R a b -> P a -> Q b) -> Forall Q l'.
Proof.
  intros H. induction H as [|a b l l' Hab _ IH]; intros HP Himp; [constructor|].
  inversion HP; subst. constructor; eauto.
Qed.

(** Enough fuel: the loop ends normally, the workers keep their shape. *)
Lemma mpi_loop_shaped sizes fuel : forall ws r0 j,
  shaped M n sizes ws -> 2 <= comm_size ws ->
  Forall (fun w => i w = j) ws -> 1 <= j <= n_max c - 1 ->
  (Z.to_nat (n_max c - j) <= fuel)%nat ->
  exists ws' r,
    mpi_loop M c (communicate_boundary_all n) thread fuel ws r0 = Done (ws', r)
    /\ shaped M n sizes ws'.
Proof.
  induction fuel as [|fuel IH]; intros ws r0 j Hsh Hsize Hi Hj Hf; [lia|].
  rewrite mpi_loop_step.
  destruct (mpi_round_shaped sizes ws Hsh Hsize) as (ws1 & -> & Hsh1 & Hstep).
  destruct (allreduce_land _) eqn:Hexit; [eauto|].
  assert (Hlt : j < n_max c - 1).
  { destruct (Z.eq_dec j (n_max c - 1)) as [->|]; [|lia].
    rewrite (allreduce_at_cap M c thread ws Hi) in Hexit. discriminate Hexit. }
  apply (IH ws1 (S r0) (j + 1)); try lia; try assumption.
  - unfold comm_size in *. rewrite (shaped_length _ _ Hsh1), <- (shaped_length _ _ Hsh). exact Hsize.
  - apply (forall2_exists_i _ _ _ _ _ Hstep Hi).
    intros a b [m ->] Ha. rewrite round_of_i, Ha. reflexivity.
Qed.

(** A tolerance above every residual: one pass. *)
Lemma mpi_loop_one_pass sizes fuel ws r0 :
  (forall k, lt M (get_error M k) (tolerance c) = true) ->
  shaped M n sizes ws -> 2 <= comm_size ws ->
  exists ws',
    mpi_loop M c (communicate_boundary_all n) thread (S fuel) ws r0 = Done (ws', S r0)
    /\ shaped M n sizes ws'
    /\ Forall2 (fun w w' => exists m, w' = round_of M c thread true m w) ws ws'.
Proof.
  intros Hbelow Hsh Hsize. rewrite mpi_loop_step.
  destruct (mpi_round_shaped sizes ws Hsh Hsize) as (ws1 & -> & Hsh1 & Hstep).
  assert (Hexit : allreduce_land (map (local_update M c thread) ws) = true).
  { unfold allreduce_land. apply forallb_forall. intros w' Hw'.
    apply in_map_iff in Hw'. destruct Hw' as (w & <- & _).
    unfold local_update. destruct (exit_local w) eqn:E; [exact E|].
    cbn [exit_local]. now rewrite Hbelow. }
  rewrite Hexit in *. eauto.
Qed.


End ShapedLoop.

(** ** The distributed mode end to end, when [size] divides [n] *)

Section EndToEnd.
Context {T K : Type} (M : Kernel T K) (c : @conditions T).
Hypothesis laws : KernelLaws M.
Variables (thread n size : Z).
Hypothesis two_workers : 2 <= size.
Hypothesis n_pos : 0 < n.
Hypothesis counts_fit : n * n + 2 * n < 2 ^ 31.
Hypothesis divides : (size | n).

Implicit Types (w : @worker T K) (ws : list (@worker T K)).

Let sizes := map (expected_size n size) (range 0 size).

Local Lemma quotient_pos : 0 < n / size.
Proof. apply q_pos; solve [assumption | lia]. Qed.

Local Lemma quotient_eq : n = size * (n / size).
Proof. apply n_eq; solve [assumption | lia]. Qed.

Local Lemma n_small : 0 <= n < 2 ^ 31.
Proof. nia. Qed.

Lemma expected_size_two_rows rank : 2 * n <= expected_size n size rank < 2 ^ 64.
Proof.
  pose proof (expected_size_bounds n size (n / size) two_workers quotient_pos
                quotient_eq counts_fit rank) as [H1 H2].
  pose proof quotient_pos.
  assert (n <= n * (n / size)).
  { replace n with (n * 1) at 1 by lia. apply Z.mul_le_mono_nonneg_l; lia. }
  assert (2 ^ 31 < 2 ^ 64) by reflexivity. lia.
Qed.

(** The workers right after the scatter. *)
Lemma start_shaped (local : list (list T)) :
  Forall2 (fun rank mesh => Buffer.size mesh = expected_size n size rank)
          (range 0 size) local ->
  shaped M n sizes (map (start_worker M n) local).
Proof.
  unfold shaped, sizes. generalize (range 0 size) as rs.
  intros rs H. induction H as [|r b rs bs Hb _ IH]; [constructor|].
  cbn [map]. constructor; [|exact IH].
  cbn [start_worker mesh_obj offs]. rewrite (get_mesh_ctor M laws), Hb.
  split; [reflexivity|]. split; [reflexivity|]. apply expected_size_two_rows.
Qed.

Lemma shaped_size ws : shaped M n sizes ws -> comm_size ws = size.
Proof.
  intros H. unfold comm_size. rewrite (shaped_length M n _ _ H).
  unfold sizes. rewrite length_map, length_range. lia.
Qed.

Lemma reload_meshes ws :
  map mesh (map (reload M) ws) = map (fun w => get_mesh M (mesh_obj w)) ws.
Proof. rewrite map_map. reflexivity. Qed.

Lemma shaped_meshes ws :
  shaped M n sizes ws ->
  Forall2 (fun rank mesh => Buffer.size mesh = expected_size n size rank)
          (range 0 size) (map (fun w => get_mesh M (mesh_obj w)) ws).
Proof.
  unfold shaped, sizes. generalize (range 0 size) as rs. intros rs.
  revert ws. induction rs as [|r rs IH]; intros ws H; inversion H; subst;
    cbn [map]; constructor.
  - tauto.
  - now apply IH.
Qed.

(** The gather of shaped workers gives a grid of [n] rows, which is written
    under the name built from [size] and [n]. *)
Lemma final_communication_shaped ws final0 :
  shaped M n sizes ws -> Buffer.size final0 = n * n ->
  exists grid,
    final_communication M n (map (reload M) ws) final0 = Some (grid, [result_file n size grid])
    /\ Buffer.size grid = n * n.
Proof.
  intros Hsh Hf. unfold final_communication. rewrite reload_meshes.
  destruct (gather_ok_size n size (n / size) two_workers quotient_pos quotient_eq
              counts_fit _ final0 (shaped_meshes ws Hsh) Hf) as (grid & -> & Hg).
  cbn [bind]. exists grid. split; [|exact Hg].
  unfold result_file. rewrite (get_size_ctor M laws), (get_mesh_ctor M laws), Hg.
  rewrite Z.div_mul by lia.
  replace (comm_size (map (reload M) ws)) with size; [reflexivity|].
  unfold comm_size. rewrite length_map. symmetry. apply (shaped_size ws Hsh).
Qed.

Lemma start_i (local : list (list T)) :
  Forall (fun w => i w = 1 /\ exit_local w = false) (map (start_worker M n) local).
Proof. apply Forall_forall. intros w Hw. apply in_map_iff in Hw. destruct Hw as (b & <- & _). now split. Qed.

Lemma shaped_nonempty ws : shaped M n sizes ws -> ws <> [].
Proof.
  intros H Hn. apply shaped_size in H. subst ws. cbn in H. lia.
Qed.

Lemma reload_sizes ws :
  shaped M n sizes ws ->
  Forall2 (fun rank w => Buffer.size (mesh w) = expected_size n size rank)
          (range 0 size) (map (reload M) ws).
Proof.
  intros H. apply shaped_meshes in H. revert H.
  generalize (range 0 size) as rs. intros rs. revert ws.
  induction rs as [|r rs IH]; intros [|w ws] H; inversion H; subst; cbn [map]; constructor.
  - assumption.
  - now apply IH.
Qed.

(** After the loop: the summary line of rank 0, the gather and the file. *)
Lemma finish_shaped fuel ws ws' r final0 :
  mpi_loop M c (communicate_boundary_all n) thread fuel ws 0 = Done (ws', r) ->
  shaped M n sizes ws' -> Buffer.size final0 = n * n ->
  exists res,
    solution_finder_mpi M c n fuel thread ws final0 = Done res
    /\ rounds (final res) = r
    /\ console res = [Iter (hd 0 (map i ws'))]
    /\ workers (final res) = map (reload M) ws'
    /\ Buffer.size (final_mesh (final res)) = n * n
    /\ written res = [result_file n size (final_mesh (final res))].
Proof.
  intros Hrun Hsh Hf. unfold solution_finder_mpi, solution_finder_mpi_with.
  rewrite Hrun.
  destruct (final_communication_shaped ws' final0 Hsh Hf) as (grid & -> & Hg).
  eexists. split; [reflexivity|]. cbn [final console written workers rounds final_mesh].
  pose proof (shaped_nonempty ws' Hsh).
  destruct ws' as [|w0 ws']; [congruence|]. auto.
Qed.

Section Scattered.
Variables (grid final0 : list T) (bufs : list (list T)).
Hypothesis grid_size : Buffer.size grid = n * n.
Hypothesis final_size : Buffer.size final0 = n * n.
Hypothesis bufs_sized :
  Forall2 (fun rank buf => Buffer.size buf = expected_size n size rank)
          (range 0 size) bufs.

Lemma scattered_start :
  exists local,
    initial_communication n grid bufs = Some local
    /\ shaped M n sizes (map (start_worker M n) local).
Proof.
  eexists. split.
  - apply (initial_communication_ok n size (n / size) two_workers quotient_pos
             quotient_eq counts_fit grid bufs grid_size bufs_sized).
  - apply start_shaped.
    apply (blocks_sized n size (n / size) two_workers quotient_pos quotient_eq
             counts_fit grid grid_size).
Qed.

(** Every distributed run with enough fuel ends normally and writes the
    gathered grid. *)
Lemma distributed_run_done fuel :
  2 <= n_max c -> (Z.to_nat (n_max c - 1) <= fuel)%nat ->
  exists res,
    distributed_run M c n fuel thread grid bufs final0 = Done res
    /\ Buffer.size (final_mesh (final res)) = n * n
    /\ written res = [result_file n size (final_mesh (final res))].
Proof.
  intros Hmax Hfuel. destruct scattered_start as (local & Hsc & Hsh).
  unfold distributed_run. rewrite Hsc.
  destruct (mpi_loop_shaped M c laws thread n n_small sizes fuel
              (map (start_worker M n) local) 0%nat 1 Hsh) as (ws' & r & Hrun & Hsh').
  - rewrite (shaped_size _ Hsh). exact two_workers.
  - eapply Forall_impl; [|apply start_i]. cbn beta. tauto.
  - lia.
  - exact Hfuel.
  - destruct (finish_shaped fuel _ ws' r final0 Hrun Hsh' final_size)
      as (res & Hres & _ & _ & _ & Hsz & Hw).
    eauto.
Qed.

(** A tolerance above every residual: one pass. *)
Lemma distributed_run_one_pass fuel :
  (forall k, lt M (get_error M k) (tolerance c) = true) ->
  exists res,
    distributed_run M c n (S fuel) thread grid bufs final0 = Done res
    /\ rounds (final res) = 1%nat
    /\ console res = [Iter 1]
    /\ Forall2 (fun rank w => Buffer.size (mesh w) = expected_size n size rank)
               (range 0 size) (workers (final res))
    /\ Buffer.size (final_mesh (final res)) = n * n
    /\ written res = [result_file n size (final_mesh (final res))].
Proof.
  intros Hbelow. destruct scattered_start as (local & Hsc & Hsh).
  unfold distributed_run. rewrite Hsc.
  destruct (mpi_loop_one_pass M c laws thread n n_small sizes fuel
              (map (start_worker M n) local) 0%nat Hbelow Hsh) as (ws' & Hrun & Hsh' & Hstep).
  { rewrite (shaped_size _ Hsh). exact two_workers. }
  destruct (finish_shaped (S fuel) _ ws' 1%nat final0 Hrun Hsh' final_size)
    as (res & Hres & Hr & Hc & Hw & Hsz & Hfile).
  exists res. split; [exact Hres|]. split; [exact Hr|].
  split; [|split; [rewrite Hw; now apply reload_sizes|auto]].
  rewrite Hc. do 2 f_equal.
  pose proof (shaped_nonempty _ Hsh) as Hne.
  destruct local as [|b local]; [cbn in Hne; congruence|]. cbn [map] in Hstep.
  inversion Hstep as [|w w' l l' [m Hm] _]; subst.
  cbn [map hd]. rewrite round_of_i. reflexivity.
Qed.


End Scattered.

End EndToEnd.

(** ** The single-process loops up to the cap *)

Section LocalCap.
Context {T K : Type} (M : Kernel T K) (c : @conditions T).
Variable update : K -> K.


End LocalCap.

(** ** The example kernel *)


(** ** C3 *)

Section NineByThree.
Context {T K : Type} (M : Kernel T K) (c : @conditions T).
Hypothesis laws : KernelLaws M.
Variables (thread k : Z).
Hypothesis k_range : 3 <= k <= 9.

Implicit Types (w : @worker T K) (ws : list (@worker T K)).





Variables (grid final0 b0 b1 b2 : list T).
Hypothesis grid_size : Buffer.size grid = 9 * 3.
Hypothesis final_size : Buffer.size final0 = 9 * 3.
Hypothesis b0_size : Buffer.size b0 = k + 3.
Hypothesis b1_size : Buffer.size b1 = k + 2 * 3.
Hypothesis b2_size : Buffer.size b2 = k + 3.
Hypothesis one_pass : forall m, lt M (get_error M m) (tolerance c) = true.

Let local : list (list T) :=
  [ firstn 6 grid ++ skipn 6 b0;
    firstn 9 grid ++ skipn 9 b1;
    firstn 6 (skipn 3 grid) ++ skipn 6 b2 ].





End NineByThree.




(** ** C7: witness and counterexample *)

Lemma gather_assembles_interior_rows_witness :
  exists local,
    initial_communication 4 grid4 [zeros 12; zeros 12] = Some local
    /\ Forall2 (fun rank mesh =>
         contribution 4 2 rank mesh
         = Some (4 * (4 / 2),
                 if rank =? 0 then firstn (List.length mesh - Z.to_nat 4) mesh
                 else if rank =? 2 - 1 then skipn (Z.to_nat 4) mesh
                 else firstn (List.length mesh - 2 * Z.to_nat 4)
                             (skipn (Z.to_nat 4) mesh)))
         (range 0 2) local
    /\ gather 4 local (zeros 16) = Some grid4.
Proof.
  apply (gather_assembles_interior_rows 4 2 grid4 (zeros 16) [zeros 12; zeros 12]);
    try reflexivity; try lia.
  - exists 2. reflexivity.
  - repeat constructor.
Defined.

(** Claim C7 as stated fails when [size] does not divide [n]: with 3 workers
    on the 4 x 4 grid the contributions overlap (the samples 1 and 3 at the
    block borders appear twice) and the last three samples are never
    gathered. *)
Lemma gather_duplicates_and_loses_rows :
  exists local,
    initial_communication 4 grid4 [zeros 9; zeros 13; zeros 9] = Some local
    /\ gather 4 local (zeros 16) = Some [0;0;0;0;1; 1;1;1;1;3; 3;3;3;3;5; 0]
    /\ gather 4 local (zeros 16) <> Some grid4.
Proof.
  eexists. split; [vm_compute; reflexivity|]. split; [reflexivity|discriminate].
Qed.

(** ** C4 *)

Section SingleWorker.
Context {T K : Type} (M : Kernel T K) (c : @conditions T).

(** The halo exchange of a single rank addresses rank 1. *)
Lemma single_rank_exchange_aborts n (o : offsets) (m : list T) :
  communicate_boundary_all n [(o, m)] = None.
Proof. reflexivity. Qed.

Lemma single_rank_round_aborts n thread (w : @worker T K) :
  mpi_round M c (communicate_boundary_all n) thread [w] = None.
Proof.
  unfold mpi_round. cbn [map]. rewrite single_rank_exchange_aborts. reflexivity.
Qed.

(** Whatever the single worker holds when it enters the loop, the run ends
    in its first pass. *)
Lemma single_rank_solver_aborts n thread fuel (w : @worker T K) final0 :
  solution_finder_mpi M c n (S fuel) thread [w] final0 = Abort.
Proof.
  unfold solution_finder_mpi, solution_finder_mpi_with.
  rewrite mpi_loop_step, single_rank_round_aborts. reflexivity.
Qed.

End SingleWorker.

(** Claim C4, as the code has it. The distributed mode has no case for a
    single worker. In the first pass of the loop rank 0 takes the first-rank
    branch of the halo exchange: its one [MPI_Sendrecv] names rank 1 as
    destination and as source, which is not a rank of a communicator of one
    process, an MPI error. This does not depend on what the scatter left in
    the local buffer: from every state of the single worker the solver ends
    there, before any gather. The sequential mode on the same grid ends
    normally and writes the grid of its kernel under worker count 1. *)
Theorem single_worker_distributed_aborts {T K : Type} (M : Kernel T K)
    (c : @conditions T) (n thread : Z) (fuel : nat)
    (grid buf final0 : list T) :
  2 <= n_max c -> (Z.to_nat (n_max c - 1) <= fuel)%nat ->
  (forall o : offsets,
     Forall (fun call => sr_dest call = 1 /\ sr_source call = 1)
            (communicate_boundary n 1 0 o))
  /\ valid_rank 1 1 = false
  /\ (forall (o : offsets) (m : list T), communicate_boundary_all n [(o, m)] = None)
  /\ (forall w : @worker T K,
        mpi_round M c (communicate_boundary_all n) thread [w] = None
        /\ solution_finder_mpi M c n fuel thread [w] final0 = Abort)
  /\ distributed_run M c n fuel thread grid [buf] final0 = Abort
  /\ exists res,
       sequential_run M c n fuel grid = Done res
       /\ written res
          = [ {| file_name := ("vtk_files/approx_sol-1-"
                               ++ to_string (fst (get_size M (l_mesh_obj (final res))))
                               ++ ".vtk")%string;
                 file_grid := get_mesh M (l_mesh_obj (final res)) |} ].
Proof.
  intros Hmax Hfuel.
  destruct fuel as [|fuel]; [lia|].
  split; [intros o; repeat constructor|].
  split; [reflexivity|].
  split; [intros o m; apply single_rank_exchange_aborts|].
  split.
  { intros w. split; [apply single_rank_round_aborts|apply single_rank_solver_aborts]. }
  split.
  - unfold distributed_run.
    destruct (initial_communication n grid [buf]) as [local|] eqn:Es; [|reflexivity].
    unfold initial_communication in Es. apply sequence_length in Es.
    destruct local as [|b [|b' local]]; try discriminate Es.
    cbn [map]. apply single_rank_solver_aborts.
  - unfold sequential_run, solution_finder_sequential.
    destruct (local_loop_bounded M c (update_seq M) (S fuel)
                (local_start (Mesh_ctor M grid n)))
      as (s & -> & _); cbn [local_start l_i]; try lia.
    eexists. split; reflexivity.
Qed.

Lemma single_worker_distributed_aborts_witness :
  (forall o : offsets,
     Forall (fun call => sr_dest call = 1 /\ sr_source call = 1)
            (communicate_boundary 4 1 0 o))
  /\ valid_rank 1 1 = false
  /\ (forall (o : offsets) (m : list Z), communicate_boundary_all 4 [(o, m)] = None)
  /\ (forall w : @worker Z toy,
        mpi_round (toy_kernel (second_row 4)) {| tolerance := 1; n_max := 10 |}
          (communicate_boundary_all 4) 1 [w] = None
        /\ solution_finder_mpi (toy_kernel (second_row 4))
             {| tolerance := 1; n_max := 10 |} 4 9 1 [w] (zeros 16) = Abort)
  /\ distributed_run (toy_kernel (second_row 4)) {| tolerance := 1; n_max := 10 |}
       4 9 1 grid4 [zeros 20] (zeros 16) = Abort
  /\ exists res,
       sequential_run (toy_kernel (second_row 4)) {| tolerance := 1; n_max := 10 |}
         4 9 grid4 = Done res
       /\ written res
          = [ {| file_name := ("vtk_files/approx_sol-1-"
                               ++ to_string (fst (get_size (toy_kernel (second_row 4))
                                                           (l_mesh_obj (final res))))
                               ++ ".vtk")%string;
                 file_grid := get_mesh (toy_kernel (second_row 4))
                                       (l_mesh_obj (final res)) |} ].
Proof.
  apply (single_worker_distributed_aborts (toy_kernel (second_row 4))
           {| tolerance := 1; n_max := 10 |} 4 1 9 grid4 (zeros 20) (zeros 16)).
  - cbn. lia.
  - cbn. lia.
Defined.

(** Claim C4 as stated fails: on the 4 x 4 grid with one worker the
    sequential mode ends with a final grid; the distributed mode gives none,
    neither as a whole nor when the single worker is started on the buffer a
    scatter of [n*n + n] elements leaves (the grid followed by four stray
    samples). *)
Lemma single_worker_modes_differ :
  (exists res',
     sequential_run (toy_kernel (second_row 4)) {| tolerance := 1; n_max := 10 |}
       4 9 grid4 = Done res'
     /\ map (@file_grid Z) (written res') = [[-1;-1;-1;-1; 0;0;0;0; 2;2;2;2; 4;4;4;4]])
  /\ ~ (exists res res',
          distributed_run (toy_kernel (second_row 4)) {| tolerance := 1; n_max := 10 |}
            4 9 1 grid4 [zeros 20] (zeros 16) = Done res
          /\ sequential_run (toy_kernel (second_row 4)) {| tolerance := 1; n_max := 10 |}
               4 9 grid4 = Done res'
          /\ map (@file_grid Z) (written res) = map (@file_grid Z) (written res'))
  /\ ~ (exists res,
          solution_finder_mpi (toy_kernel (second_row 4)) {| tolerance := 1; n_max := 10 |}
            4 9 1 [start_worker (toy_kernel (second_row 4)) 4 (grid4 ++ zeros 4)]
            (zeros 16) = Done res).
Proof.
  split; [|split].
  - eexists. split; [vm_compute; reflexivity|reflexivity].
  - intros (res & res' & H & _). vm_compute in H. discriminate H.
  - intros (res & H). vm_compute in H. discriminate H.
Qed.

(** ** C5 *)


(** ** C10 *)

Lemma last_event_exchange {T K : Type} (M : Kernel T K) (c : @conditions T)
    thread m (w : @worker T K) :
  exists tr, trace (round_of M c thread true m w) = tr ++ [EvExchange].
Proof.
  rewrite round_of_trace.
  exists (trace w ++ (if exit_local w then [] else [EvUpdate]) ++ [EvAllreduce]).
  rewrite <- !app_assoc. reflexivity.
Qed.

Lemma reload_round_of_exit {T K : Type} (M : Kernel T K) (c : @conditions T)
    thread m m' (w : @worker T K) :
  reload M (round_of M c thread true m w) = reload M (round_of M c thread true m' w).
Proof. reflexivity. Qed.

(** Claim C10: in the pass in which the reduction yields global done, the
    halo exchange is performed (it is the last event of every worker), the
    kernel keeps the state the update left ([set_mesh] is not called), and
    the workers as reloaded for the gather, hence the gathered grid and the
    file, are the same whatever the exchange delivered. *)
Theorem last_exchange_has_no_effect {T K : Type} (M : Kernel T K)
    (c : @conditions T) (comm comm' : @exchange_fn T) (thread n : Z)
    (ws ws1 ws2 : list (@worker T K)) (exit2 : bool) (final0 : list T) :
  mpi_round M c comm thread ws = Some (ws1, true) ->
  mpi_round M c comm' thread ws = Some (ws2, exit2) ->
  exit2 = true
  /\ Forall (fun w => exists tr, trace w = tr ++ [EvExchange]) ws1
  /\ map mesh_obj ws1 = map (fun w => mesh_obj (local_update M c thread w)) ws
  /\ map (reload M) ws1 = map (reload M) ws2
  /\ final_communication M n (map (reload M) ws1) final0
     = final_communication M n (map (reload M) ws2) final0.
Proof.
  intros H1 H2.
  apply mpi_round_inv in H1. destruct H1 as (He1 & ms1 & _ & Hl1 & ->).
  apply mpi_round_inv in H2. destruct H2 as (He2 & ms2 & _ & Hl2 & Hws2).
  assert (Hexit : exit2 = true) by congruence.
  clear He1 He2. subst exit2 ws2.
  assert (Hreload : map (reload M) (map (fun wm => round_of M c thread true (snd wm) (fst wm))
                                        (combine ws ms1))
                    = map (reload M) (map (fun wm => round_of M c thread true (snd wm) (fst wm))
                                          (combine ws ms2))).
  { revert ms1 ms2 Hl1 Hl2.
    induction ws as [|w ws IH]; intros [|m1 ms1] [|m2 ms2] Hl1 Hl2;
      try discriminate; [reflexivity|].
    cbn [combine map fst snd]. f_equal.
    apply IH; [now injection Hl1|now injection Hl2]. }
  split; [reflexivity|]. split; [|split; [|split]].
  - apply Forall_forall. intros w' Hw'. apply in_map_iff in Hw'.
    destruct Hw' as ([w m] & <- & _). apply last_event_exchange.
  - clear - Hl1. revert ms1 Hl1.
    induction ws as [|w ws IH]; intros [|m1 ms1] Hl1; try discriminate; [reflexivity|].
    cbn [combine map fst snd]. f_equal. apply IH. now injection Hl1.
  - exact Hreload.
  - now rewrite Hreload.
Qed.

(** ** C9 *)

(** Claim C9: with an iteration cap of at least 2, each loop ends within
    [n_max - 1] passes and each worker makes at most [n_max - 1] updates.
    The sequential and the thread-parallel mode end normally; the
    distributed loop never runs on (it ends normally or aborts in a failing
    exchange), and with the solver's exchange on a scattered square grid
    whose row count the worker count divides it ends normally. *)
Theorem solver_loops_terminate {T K : Type} (M : Kernel T K) (c : @conditions T)
    (fuel : nat) :
  2 <= n_max c -> (Z.to_nat (n_max c - 1) <= fuel)%nat ->
  (forall mesh_obj,
     exists res, solution_finder_sequential M c fuel mesh_obj = Done res
       /\ (occurrences EvUpdate (l_trace (final res)) <= Z.to_nat (n_max c - 1))%nat)
  /\ (forall n_tasks mesh_obj,
     exists res, solution_finder_parallel M c fuel n_tasks mesh_obj = Done res
       /\ (occurrences EvUpdate (l_trace (final res)) <= Z.to_nat (n_max c - 1))%nat)
  /\ (forall comm thread (ws : list (@worker T K)),
     Forall (fun w => i w = 1) ws ->
     mpi_loop M c comm thread fuel ws 0 <> Timeout
     /\ forall ws' r,
          mpi_loop M c comm thread fuel ws 0 = Done (ws', r) ->
          (r <= Z.to_nat (n_max c - 1))%nat
          /\ Forall2 (fun w w' =>
               (occurrences EvUpdate (trace w')
                <= occurrences EvUpdate (trace w) + Z.to_nat (n_max c - 1))%nat) ws ws')
  /\ (forall n size thread grid bufs final0,
     KernelLaws M -> 2 <= size -> 0 < n -> n * n + 2 * n < 2 ^ 31 -> (size | n) ->
     Buffer.size grid = n * n -> Buffer.size final0 = n * n ->
     Forall2 (fun rank buf => Buffer.size buf = expected_size n size rank)
             (range 0 size) bufs ->
     exists res, distributed_run M c n fuel thread grid bufs final0 = Done res).
Proof.
  intros Hmax Hfuel. split; [|split; [|split]].
  - intros k. unfold solution_finder_sequential.
    destruct (local_loop_bounded M c (update_seq M) fuel (local_start k))
      as (s & -> & Hocc); cbn [local_start l_i l_trace] in *; try lia.
    eexists. split; [reflexivity|]. cbn [save_local final]. cbn in Hocc. lia.
  - intros t k. unfold solution_finder_parallel.
    destruct (local_loop_bounded M c (update_par M t) fuel (local_start k))
      as (s & -> & Hocc); cbn [local_start l_i l_trace] in *; try lia.
    eexists. split; [reflexivity|]. cbn [save_local final]. cbn in Hocc. lia.
  - intros comm thread ws Hi.
    destruct (mpi_loop_bounded M c thread comm fuel ws 0%nat 1 Hi ltac:(lia) Hfuel)
      as [Hnt Hdone].
    split; [exact Hnt|]. intros ws' r H. destruct (Hdone ws' r H) as [Hr Hall].
    split; [lia|exact Hall].
  - intros n size thread grid bufs final0 laws Hs Hn Hfit Hdiv Hg Hf Hb.
    destruct (distributed_run_done M c laws thread n size Hs Hn Hfit Hdiv
                grid final0 bufs Hg Hf Hb fuel Hmax Hfuel) as (res & Hres & _).
    eauto.
Qed.

Lemma solver_loops_terminate_witness :
  exists res,
    solution_finder_sequential (toy_kernel (fun _ => 1)) {| tolerance := 1; n_max := 3 |}
      2 {| t_mesh := grid4; t_n := 4 |} = Done res
    /\ (occurrences EvUpdate (l_trace (final res)) <= Z.to_nat (3 - 1))%nat.
Proof.
  apply (solver_loops_terminate (toy_kernel (fun _ => 1))
           {| tolerance := 1; n_max := 3 |} 2).
  - cbn. lia.
  - cbn. lia.
Defined.


Lemma last_exchange_has_no_effect_witness :
  exists ws1 ws2,
    mpi_round (toy_kernel (fun _ => 0)) {| tolerance := 1; n_max := 10 |}
      (communicate_boundary_all 4) 1 (two_workers_4x4 (fun _ => 0)) = Some (ws1, true)
    /\ mpi_round (toy_kernel (fun _ => 0)) {| tolerance := 1; n_max := 10 |}
         garbled 1 (two_workers_4x4 (fun _ => 0)) = Some (ws2, true)
    /\ map (@mesh Z toy) ws1 <> map (@mesh Z toy) ws2
    /\ map (reload (toy_kernel (fun _ => 0))) ws1 = map (reload (toy_kernel (fun _ => 0))) ws2
    /\ final_communication (toy_kernel (fun _ => 0)) 4
         (map (reload (toy_kernel (fun _ => 0))) ws1) (zeros 16)
       = final_communication (toy_kernel (fun _ => 0)) 4
           (map (reload (toy_kernel (fun _ => 0))) ws2) (zeros 16).
Proof.
  eexists. eexists.
  match goal with
  | |- ?r1 = Some (?a, true) /\ ?r2 = Some (?b, true) /\ _ =>
      assert (H1 : r1 = Some (a, true)) by (vm_compute; reflexivity);
      assert (H2 : r2 = Some (b, true)) by (vm_compute; reflexivity)
  end.
  split; [exact H1|]. split; [exact H2|].
  split; [intros E; vm_compute in E; discriminate E|].
  pose proof (last_exchange_has_no_effect _ _ _ _ _ 4 _ _ _ _ (zeros 16) H1 H2)
    as (_ & _ & _ & Hr & Hf).
  split; [exact Hr|exact Hf].
Defined.

(** ** C8 *)




(** * Further properties of the solver *)

(** ** The offsets of the constructor *)

(** With a buffer of at least two rows, the four offsets of the first
    constructor name four rows inside the buffer: the leading halo slot, the
    first interior row, the last interior row and the trailing halo slot; the
    row sent in a call never overlaps the slot received into in that call;
    with three rows or more the halo slots and the sent rows are all apart. *)
Theorem offsets_inside_buffer (n len : Z) :
  0 <= n -> 2 * n <= len < 2 ^ 64 ->
  let o := make_offsets n len in
  recv_offset_1 o = 0 /\ send_offset_1 o = n
  /\ send_offset_2 o = len - 2 * n /\ recv_offset_2 o = len - n
  /\ recv_offset_1 o + n <= send_offset_1 o
  /\ send_offset_2 o + n <= recv_offset_2 o
  /\ recv_offset_2 o + n <= len
  /\ (3 * n <= len -> recv_offset_1 o + n <= send_offset_2 o).
Proof.
  intros Hn Hl o. unfold o, make_offsets.
  cbn [recv_offset_1 send_offset_1 send_offset_2 recv_offset_2].
  rewrite (wrap64_small (2 * n)) by lia.
  rewrite !wrap64_small by lia. lia.
Qed.

Lemma offsets_inside_buffer_witness :
  let o := make_offsets 4 12 in
  recv_offset_1 o = 0 /\ send_offset_1 o = 4
  /\ send_offset_2 o = 12 - 2 * 4 /\ recv_offset_2 o = 12 - 4
  /\ recv_offset_1 o + 4 <= send_offset_1 o
  /\ send_offset_2 o + 4 <= recv_offset_2 o
  /\ recv_offset_2 o + 4 <= 12
  /\ (3 * 4 <= 12 -> recv_offset_1 o + 4 <= send_offset_2 o).
Proof. apply (offsets_inside_buffer 4 12); [lia|split; [lia|reflexivity]]. Defined.

(** With a buffer shorter than two rows the unsigned subtraction of the
    constructor wraps around: the third offset lies beyond the buffer. *)
Theorem offsets_wrap_on_short_buffer (n len : Z) :
  0 <= len < 2 * n -> 2 * n < 2 ^ 64 ->
  len < send_offset_2 (make_offsets n len).
Proof.
  intros Hl Hn. unfold make_offsets. cbn [send_offset_2].
  rewrite (wrap64_small (2 * n)) by lia.
  unfold wrap64.
  replace (len - 2 * n) with (len - 2 * n + 2 ^ 64 + (-1) * 2 ^ 64) by lia.
  rewrite Z.mod_add by discriminate.
  rewrite Z.mod_small by lia. lia.
Qed.

Lemma offsets_wrap_on_short_buffer_witness :
  4 < send_offset_2 (make_offsets 4 4).
Proof. apply (offsets_wrap_on_short_buffer 4 4); [lia|reflexivity]. Defined.

(** ** The halo exchange *)

(** With at least two ranks, every buffer at least two rows long and the
    offsets of the constructor, the calls of [communicate_boundary] on all
    ranks pair up: the exchange completes (no rank is left blocked, no call
    fails) and every buffer keeps its length. *)
Theorem halo_exchange_completes {T : Type} (n : Z) (world : list (offsets * list T)) :
  0 <= n < 2 ^ 31 -> 2 <= comm_size world ->
  Forall (fun w => fst w = make_offsets n (Buffer.size (snd w))
                   /\ 2 * n <= Buffer.size (snd w) < 2 ^ 64) world ->
  exists out,
    communicate_boundary_all n world = Some out
    /\ Forall2 (fun w b => Buffer.size b = Buffer.size (snd w)) world out.
Proof.
  intros Hn Hs Hw.
  destruct (communicate_boundary_all_ok n (comm_size world) Hn Hs world eq_refl Hw)
    as (out & Hout & Hlen).
  eauto.
Qed.

Lemma halo_exchange_completes_witness :
  exists out,
    communicate_boundary_all 2
      [ (make_offsets 2 4, [1;2;3;4]); (make_offsets 2 6, [10;20;30;40;50;60]);
        (make_offsets 2 4, [5;6;7;8]) ] = Some out
    /\ Forall2 (fun w b => Buffer.size b = Buffer.size (snd w))
         [ (make_offsets 2 4, [1;2;3;4]); (make_offsets 2 6, [10;20;30;40;50;60]);
           (make_offsets 2 4, [5;6;7;8]) ] out.
Proof.
  apply (halo_exchange_completes 2).
  - split; [lia|reflexivity].
  - cbn. lia.
  - repeat constructor; cbn; lia.
Defined.

(** ** The distributed loop *)

Section LoopEnd.
Context {T K : Type} (M : Kernel T K) (c : @conditions T).
Variables (comm : @exchange_fn T) (thread : Z).

Lemma mpi_loop_end fuel : forall (ws : list (@worker T K)) r0 j ws' r,
  Forall (fun w => i w = j) ws ->
  mpi_loop M c comm thread fuel ws r0 = Done (ws', r) ->
  (r0 < r)%nat
  /\ Forall (fun w' => i w' = j + Z.of_nat (r - r0) - 1 /\ exit_local w' = true) ws'.
Proof.
  induction fuel as [|fuel IH]; intros ws r0 j ws' r Hi H; [discriminate|].
  rewrite mpi_loop_step in H.
  destruct (mpi_round M c comm thread ws) as [[ws1 exit]|] eqn:Er; [|discriminate].
  apply mpi_round_inv in Er. destruct Er as (Hexit & ms & _ & Hl & ->).
  pose proof (Forall2_round M c thread ws ms exit Hl) as Hstep.
  destruct exit.
  - assert (Hws : ws' = map (fun wm => round_of M c thread true (snd wm) (fst wm))
                            (combine ws ms)) by congruence.
    assert (Hr : r = S r0) by congruence.
    rewrite <- Hws in Hstep. clear H Hws. subst r. split; [lia|].
    assert (Hi2 : Forall (fun w => In w ws /\ i w = j) ws).
    { apply Forall_forall. intros w Hw. rewrite Forall_forall in Hi. auto. }
    apply (forall2_exists_i _ _ _ _ _ Hstep Hi2).
    intros w w' [m ->] [Hin Hw]. rewrite round_of_i, round_of_exit_local. split; [lia|].
    symmetry in Hexit. unfold allreduce_land in Hexit.
    rewrite forallb_forall in Hexit. apply Hexit. now apply in_map.
  - assert (Hi1 : Forall (fun w => i w = j + 1)
              (map (fun wm => round_of M c thread false (snd wm) (fst wm)) (combine ws ms))).
    { apply Forall_forall. intros w' Hw'. apply in_map_iff in Hw'.
      destruct Hw' as ([w m] & <- & Hin). cbv beta. cbn [fst snd].
      rewrite round_of_i. apply in_combine_l in Hin.
      rewrite Forall_forall in Hi. rewrite (Hi w Hin). reflexivity. }
    destruct (IH _ _ _ _ _ Hi1 H) as [Hr Hall]. split; [lia|].
    eapply Forall_impl; [|exact Hall]. cbn beta. intros w' [Hw' He]. split; [lia|exact He].
Qed.

End LoopEnd.

(** The workers leave the distributed loop together: when the loop ends
    after [r] passes, every worker is locally done and every worker's
    counter [i] is [r], the number the coordinator prints. *)
Theorem workers_leave_loop_together {T K : Type} (M : Kernel T K) (c : @conditions T)
    (comm : @exchange_fn T) (thread : Z) (fuel : nat)
    (ws ws' : list (@worker T K)) (r : nat) :
  Forall (fun w => i w = 1) ws ->
  mpi_loop M c comm thread fuel ws 0 = Done (ws', r) ->
  Forall (fun w' => i w' = Z.of_nat r /\ exit_local w' = true) ws'.
Proof.
  intros Hi H. destruct (mpi_loop_end M c comm thread fuel ws 0%nat 1 ws' r Hi H) as [Hr Hall].
  eapply Forall_impl; [|exact Hall]. cbn beta. intros w' [Hw He]. split; [lia|exact He].
Qed.

Lemma workers_leave_loop_together_witness :
  exists ws' r,
    mpi_loop (toy_kernel (second_row 4)) {| tolerance := 1; n_max := 10 |}
      (communicate_boundary_all 4) 1 9 (two_workers_4x4 (second_row 4)) 0 = Done (ws', r)
    /\ r = 3%nat
    /\ Forall (fun w' => i w' = Z.of_nat r /\ exit_local w' = true) ws'.
Proof.
  eexists. eexists.
  match goal with
  | |- ?run = Done (?ws', ?r) /\ _ =>
      assert (Hrun : run = Done (ws', r)) by (vm_compute; reflexivity)
  end.
  split; [exact Hrun|]. split; [reflexivity|].
  assert (Hi : Forall (fun w : @worker Z toy => i w = 1) (two_workers_4x4 (second_row 4)))
    by (repeat constructor).
  exact (workers_leave_loop_together _ _ _ _ _ _ _ _ Hi Hrun).
Defined.

(** ** The single-process modes *)

Section LocalConverge.
Context {T K : Type} (M : Kernel T K) (c : @conditions T).
Variable update : K -> K.

Lemma local_loop_converges d : forall fuel (s : @local_state K),
  (S d <= fuel)%nat ->
  (forall d' : nat, (d' < d)%nat ->
     lt M (get_error M (Nat.iter (S d') update (l_mesh_obj s))) (tolerance c) = false
     /\ l_i s + Z.of_nat d' <> n_max c - 1) ->
  lt M (get_error M (Nat.iter (S d) update (l_mesh_obj s))) (tolerance c) = true ->
  local_loop M c update fuel s
  = Done {| l_mesh_obj := Nat.iter (S d) update (l_mesh_obj s);
            l_i := l_i s + Z.of_nat d + 1;
            l_console := l_console s ++ [Iter (l_i s + Z.of_nat d)];
            l_trace := l_trace s ++ repeat EvUpdate (S d) |}.
Proof.
  induction d as [|d IH]; intros fuel s Hf Hbefore Hbelow;
    (destruct fuel as [|fuel]; [lia|]); rewrite local_loop_step; cbv zeta.
  - cbn [Nat.iter nat_rect] in Hbelow |- *. rewrite Hbelow. cbn [orb repeat].
    replace (l_i s + Z.of_nat 0) with (l_i s) by lia. reflexivity.
  - destruct (Hbefore 0%nat ltac:(lia)) as [H0 Hi0]. cbn [Nat.iter nat_rect] in H0.
    rewrite H0. replace (l_i s =? n_max c - 1) with false
      by (symmetry; apply Z.eqb_neq; lia).
    cbn [orb]. rewrite IH; cbn [l_i l_mesh_obj l_console l_trace]; try lia.
    + rewrite <- !Nat.iter_succ_r. cbn [repeat]. rewrite <- app_assoc.
      replace (l_i s + Z.of_nat (S d)) with (l_i s + 1 + Z.of_nat d) by lia.
      reflexivity.
    + intros d' Hd'. rewrite <- Nat.iter_succ_r.
      destruct (Hbefore (S d') ltac:(lia)) as [H1 H2]. split; [exact H1|lia].
    + rewrite <- Nat.iter_succ_r. exact Hbelow.
Qed.

End LocalConverge.

(** The sequential mode stops in the first sweep after which the residual is
    below the tolerance: if this is sweep [j], before the cap, the summary
    line reports [j] iterations and the file holds the grid after [j]
    sweeps. *)
Theorem sequential_stops_at_first_convergence {T K : Type} (M : Kernel T K)
    (c : @conditions T) (fuel j : nat) (mesh_obj : K) :
  (1 <= j <= fuel)%nat -> Z.of_nat j < n_max c - 1 ->
  (forall j' : nat, (1 <= j' < j)%nat ->
     lt M (get_error M (Nat.iter j' (update_seq M) mesh_obj)) (tolerance c) = false) ->
  lt M (get_error M (Nat.iter j (update_seq M) mesh_obj)) (tolerance c) = true ->
  let last := Nat.iter j (update_seq M) mesh_obj in
  exists res,
    solution_finder_sequential M c fuel mesh_obj = Done res
    /\ console res = [Iter (Z.of_nat j)]
    /\ l_trace (final res) = repeat EvUpdate j
    /\ written res
       = [ {| file_name := ("vtk_files/approx_sol-1-"
                            ++ to_string (fst (get_size M last)) ++ ".vtk")%string;
              file_grid := get_mesh M last |} ].
Proof.
  intros Hj Hcap Hbefore Hbelow last.
  destruct j as [|d]; [lia|].
  unfold solution_finder_sequential.
  rewrite (local_loop_converges M c (update_seq M) d fuel (local_start mesh_obj));
    cbn [local_start l_i l_mesh_obj l_console l_trace]; try lia; try exact Hbelow.
  - eexists. split; [reflexivity|]. cbn [save_local console final l_console l_trace written].
    split; [cbn [app]; do 2 f_equal; lia|]. split; reflexivity.
  - intros d' Hd'. split; [apply Hbefore; lia|lia].
Qed.

Lemma sequential_stops_at_first_convergence_witness :
  let last := Nat.iter 2 (update_seq (toy_kernel (second_row 4)))
                       {| t_mesh := grid4'; t_n := 4 |} in
  exists res,
    solution_finder_sequential (toy_kernel (second_row 4))
      {| tolerance := 1; n_max := 100 |} 10 {| t_mesh := grid4'; t_n := 4 |} = Done res
    /\ console res = [Iter (Z.of_nat 2)]
    /\ l_trace (final res) = repeat EvUpdate 2
    /\ written res
       = [ {| file_name := ("vtk_files/approx_sol-1-"
                            ++ to_string (fst (get_size (toy_kernel (second_row 4)) last))
                            ++ ".vtk")%string;
              file_grid := get_mesh (toy_kernel (second_row 4)) last |} ].
Proof.
  apply (sequential_stops_at_first_convergence (toy_kernel (second_row 4))
           {| tolerance := 1; n_max := 100 |} 10 2 {| t_mesh := grid4'; t_n := 4 |}).
  - lia.
  - cbn. lia.
  - intros j' Hj'. assert (j' = 1%nat) by lia. subst j'. reflexivity.
  - reflexivity.
Defined.

(** ** The thread-parallel mode *)

Section LocalExit.
Context {T K : Type} (M : Kernel T K) (c : @conditions T).
Variable update : K -> K.

(** The loop leaves in the first sweep after which the residual is below
    the tolerance or the counter is at the cap. *)
Lemma local_loop_exits d : forall fuel (s : @local_state K),
  (S d <= fuel)%nat ->
  (forall d' : nat, (d' < d)%nat ->
     lt M (get_error M (Nat.iter (S d') update (l_mesh_obj s))) (tolerance c) = false
     /\ l_i s + Z.of_nat d' <> n_max c - 1) ->
  lt M (get_error M (Nat.iter (S d) update (l_mesh_obj s))) (tolerance c) = true
  \/ l_i s + Z.of_nat d = n_max c - 1 ->
  local_loop M c update fuel s
  = Done {| l_mesh_obj := Nat.iter (S d) update (l_mesh_obj s);
            l_i := l_i s + Z.of_nat d + 1;
            l_console := l_console s ++ [Iter (l_i s + Z.of_nat d)];
            l_trace := l_trace s ++ repeat EvUpdate (S d) |}.
Proof.
  induction d as [|d IH]; intros fuel s Hf Hbefore Hexit;
    (destruct fuel as [|fuel]; [lia|]); rewrite local_loop_step; cbv zeta.
  - cbn [Nat.iter nat_rect] in Hexit |- *.
    replace (lt M (get_error M (update (l_mesh_obj s))) (tolerance c)
             || (l_i s =? n_max c - 1)) with true.
    2:{ symmetry. apply orb_true_iff. destruct Hexit as [H|H]; [left; exact H|right].
        apply Z.eqb_eq. lia. }
    cbn [repeat]. replace (l_i s + Z.of_nat 0) with (l_i s) by lia. reflexivity.
  - destruct (Hbefore 0%nat ltac:(lia)) as [H0 Hi0]. cbn [Nat.iter nat_rect] in H0.
    rewrite H0. replace (l_i s =? n_max c - 1) with false
      by (symmetry; apply Z.eqb_neq; lia).
    cbn [orb]. rewrite IH; cbn [l_i l_mesh_obj l_console l_trace]; try lia.
    + rewrite <- !Nat.iter_succ_r. cbn [repeat]. rewrite <- app_assoc.
      replace (l_i s + Z.of_nat (S d)) with (l_i s + 1 + Z.of_nat d) by lia.
      reflexivity.
    + intros d' Hd'. rewrite <- Nat.iter_succ_r.
      destruct (Hbefore (S d') ltac:(lia)) as [H1 H2]. split; [exact H1|lia].
    + rewrite <- Nat.iter_succ_r.
      destruct Hexit as [H|H]; [left; exact H|right; lia].
Qed.

End LocalExit.

(** The thread-parallel mode leaves its loop in the first sweep [j] after
    which the residual is below the tolerance or [j] is [n_max - 1],
    whichever comes first: it has then made [j] sweeps, all through
    [update_par] with the same [n_tasks], the summary line reports [j], and
    the file holds the grid after [j] sweeps, under worker count 1. *)
Theorem parallel_stops_at_convergence_or_cap {T K : Type} (M : Kernel T K)
    (c : @conditions T) (fuel j : nat) (n_tasks : Z) (mesh_obj : K) :
  (1 <= j <= fuel)%nat -> Z.of_nat j <= n_max c - 1 ->
  (forall j' : nat, (1 <= j' < j)%nat ->
     lt M (get_error M (Nat.iter j' (update_par M n_tasks) mesh_obj)) (tolerance c) = false) ->
  lt M (get_error M (Nat.iter j (update_par M n_tasks) mesh_obj)) (tolerance c) = true
  \/ Z.of_nat j = n_max c - 1 ->
  let last := Nat.iter j (update_par M n_tasks) mesh_obj in
  exists res,
    solution_finder_parallel M c fuel n_tasks mesh_obj = Done res
    /\ console res = [Iter (Z.of_nat j)]
    /\ l_trace (final res) = repeat EvUpdate j
    /\ l_mesh_obj (final res) = last
    /\ written res
       = [ {| file_name := ("vtk_files/approx_sol-1-"
                            ++ to_string (fst (get_size M last)) ++ ".vtk")%string;
              file_grid := get_mesh M last |} ].
Proof.
  intros Hj Hcap Hbefore Hexit last.
  destruct j as [|d]; [lia|].
  unfold solution_finder_parallel.
  rewrite (local_loop_exits M c (update_par M n_tasks) d fuel (local_start mesh_obj));
    cbn [local_start l_i l_mesh_obj l_console l_trace]; try lia.
  - eexists. split; [reflexivity|].
    cbn [save_local console final l_console l_trace l_mesh_obj written].
    split; [cbn [app]; do 2 f_equal; lia|]. split; [reflexivity|]. split; reflexivity.
  - intros d' Hd'. split; [apply Hbefore; lia|lia].
  - destruct Hexit as [H|H]; [left; exact H|right; lia].
Qed.

Lemma parallel_stops_at_convergence_or_cap_witness :
  let last := Nat.iter 2 (update_par (toy_kernel (second_row 4)) 4)
                       {| t_mesh := grid4'; t_n := 4 |} in
  exists res,
    solution_finder_parallel (toy_kernel (second_row 4))
      {| tolerance := 1; n_max := 100 |} 10 4 {| t_mesh := grid4'; t_n := 4 |} = Done res
    /\ console res = [Iter (Z.of_nat 2)]
    /\ l_trace (final res) = repeat EvUpdate 2
    /\ l_mesh_obj (final res) = last
    /\ written res
       = [ {| file_name := ("vtk_files/approx_sol-1-"
                            ++ to_string (fst (get_size (toy_kernel (second_row 4)) last))
                            ++ ".vtk")%string;
              file_grid := get_mesh (toy_kernel (second_row 4)) last |} ].
Proof.
  apply (parallel_stops_at_convergence_or_cap (toy_kernel (second_row 4))
           {| tolerance := 1; n_max := 100 |} 10 2 4 {| t_mesh := grid4'; t_n := 4 |}).
  - lia.
  - cbn. lia.
  - intros j' Hj'. assert (j' = 1%nat) by lia. subst j'. reflexivity.
  - left. reflexivity.
Defined.

(** ** [print_mesh] *)

Section PrintMesh.
Context {T : Type}.

Lemma print_rows (n : Z) (mesh : list T) (k : nat) :
  0 < n -> Z.of_nat k * n <= Buffer.size mesh -> Buffer.size mesh < 2 ^ 64 ->
  sequence (map (fun r => row <- slice mesh (wrap64 (r * n)) n ;; Some (r, row))
                (range 0 (Z.of_nat k)))
  = Some (map (fun r => (r, firstn (Z.to_nat n) (skipn (Z.to_nat (r * n)) mesh)))
              (range 0 (Z.of_nat k))).
Proof.
  intros Hn Hk Hm. apply sequence_map_some. intros r Hr. apply in_range in Hr.
  assert (0 <= r * n) by nia.
  assert (r * n + n <= Buffer.size mesh) by nia.
  rewrite wrap64_small by lia. rewrite slice_ok by lia. reflexivity.
Qed.

End PrintMesh.

(** [print_mesh] with a positive column count reads inside the buffer: it
    prints [mesh.size()/n] rows of [n] samples each, which together are the
    first [(mesh.size()/n) * n] samples in order; the [mesh.size() mod n]
    samples after them are not printed. *)
Theorem print_mesh_prints_whole_rows {T : Type} (n : Z) (mesh : list T) :
  0 < n -> Buffer.size mesh < 2 ^ 64 ->
  exists rows,
    print_mesh n mesh = Some rows
    /\ map fst rows = range 0 (Buffer.size mesh / n)
    /\ Forall (fun row => Buffer.size (snd row) = n) rows
    /\ concat (map snd rows) = firstn (Z.to_nat (Buffer.size mesh / n * n)) mesh.
Proof.
  intros Hn Hm. pose proof (size_nonneg mesh) as H0.
  set (k := Z.to_nat (Buffer.size mesh / n)).
  assert (Hk : Z.of_nat k = Buffer.size mesh / n).
  { unfold k. rewrite Z2Nat.id; [reflexivity|]. apply Z.div_pos; lia. }
  assert (Hle : Z.of_nat k * n <= Buffer.size mesh).
  { rewrite Hk, Z.mul_comm. apply Z.mul_div_le. lia. }
  unfold print_mesh. replace (n =? 0) with false by (symmetry; apply Z.eqb_neq; lia).
  rewrite <- Hk, print_rows by assumption.
  eexists. split; [reflexivity|]. split; [|split].
  - rewrite map_map. cbn [fst]. apply map_id.
  - apply Forall_forall. intros row Hrow. apply in_map_iff in Hrow.
    destruct Hrow as (r & <- & Hr). apply in_range in Hr. cbn [snd].
    unfold Buffer.size in *. rewrite length_firstn, length_skipn. nia.
  - rewrite map_map. cbn [snd]. unfold range. rewrite map_map.
    replace (Z.to_nat (Z.of_nat k - 0)) with k by lia.
    rewrite (map_ext _ (fun r => firstn (Z.to_nat n) (skipn (r * Z.to_nat n) mesh))).
    2:{ intros r. do 2 f_equal. rewrite Z2Nat.inj_mul by lia. lia. }
    assert (Hlen : List.length (firstn (k * Z.to_nat n) mesh) = (k * Z.to_nat n)%nat).
    { rewrite length_firstn. unfold Buffer.size in Hle. nia. }
    transitivity (concat (map (fun r => firstn (Z.to_nat n)
                                 (skipn (r * Z.to_nat n) (firstn (k * Z.to_nat n) mesh)))
                              (seq 0 k))).
    + f_equal. apply map_ext_in. intros r Hr. apply in_seq in Hr.
      rewrite skipn_firstn_comm, firstn_firstn. f_equal. nia.
    + rewrite concat_pieces by exact Hlen. f_equal. nia.
Qed.

Lemma print_mesh_prints_whole_rows_witness :
  exists rows,
    print_mesh 4 [1;2;3;4;5;6;7;8;9;10] = Some rows
    /\ map fst rows = range 0 (Buffer.size [1;2;3;4;5;6;7;8;9;10] / 4)
    /\ Forall (fun row => Buffer.size (snd row) = 4) rows
    /\ concat (map snd rows)
       = firstn (Z.to_nat (Buffer.size [1;2;3;4;5;6;7;8;9;10] / 4 * 4)) [1;2;3;4;5;6;7;8;9;10].
Proof.
  apply (print_mesh_prints_whole_rows 4 [1;2;3;4;5;6;7;8;9;10]); [lia|reflexivity].
Defined.

(** ** The halo rows after the scatter *)

Lemma nth_error_map_range {A : Type} (f : Z -> A) (size : Z) (k : nat) (x : A) :
  nth_error (map f (range 0 size)) k = Some x ->
  Z.of_nat k < size /\ x = f (Z.of_nat k).
Proof.
  unfold range. rewrite map_map. intros H.
  assert (Hk : (k < Z.to_nat (size - 0))%nat).
  { assert (Hs : nth_error (map (fun x => f (0 + Z.of_nat x)) (seq 0 (Z.to_nat (size - 0)))) k
                 <> None) by congruence.
    apply nth_error_Some in Hs. now rewrite length_map, length_seq in Hs. }
  rewrite nth_error_map, nth_error_seq in H.
  apply Nat.ltb_lt in Hk. rewrite Hk in H. apply Nat.ltb_lt in Hk.
  cbn in H. injection H as <-. split; [lia|reflexivity].
Qed.

Section ScatterHalos.
Context {T : Type}.
Variables n size q : Z.
Hypothesis two_workers : 2 <= size.
Hypothesis q_is_pos : 0 < q.
Hypothesis n_is : n = size * q.
Hypothesis counts_fit : n * n + 2 * n < 2 ^ 31.
Variable grid : list T.
Hypothesis grid_size : Buffer.size grid = n * n.

Let block (rank : Z) : list T :=
  firstn (Z.to_nat (expected_size n size rank))
         (skipn (Z.to_nat (slice_offset n size rank)) grid).

Local Lemma block_is rank :
  0 <= rank < size ->
  slice grid (slice_offset n size rank) (expected_size n size rank) = Some (block rank).
Proof. intros Hr. now apply (block_slice n size q). Qed.

Local Lemma n_pos'' : 0 < n.
Proof. nia. Qed.

Local Lemma nq_ge_n : n <= n * q.
Proof.
  pose proof n_pos''. replace n with (n * 1) at 1 by lia.
  apply Z.mul_le_mono_nonneg_l; lia.
Qed.

(** Row [k] of a block, for [k] rows into it, is a row of the grid. *)
Local Lemma block_row rank off :
  0 <= rank < size -> 0 <= off -> off + n <= expected_size n size rank ->
  slice (block rank) off n = slice grid (slice_offset n size rank + off) n.
Proof.
  intros Hr H0 H1. pose proof n_pos''.
  apply (slice_slice _ _ _ _ _ _ (block_is rank Hr)); lia.
Qed.

Local Lemma block_end rank :
  0 <= rank < size - 1 ->
  slice_offset n size rank + expected_size n size rank = (rank + 1) * (n * q) + n.
Proof.
  intros Hr.
  rewrite (expected_size_is n size q) by assumption.
  destruct (Z.eqb_spec rank 0) as [->|Hne]; cbn [orb].
  - unfold slice_offset. cbn [Z.eqb]. lia.
  - replace (rank =? size - 1) with false by (symmetry; apply Z.eqb_neq; lia).
    rewrite (slice_offset_is n size q) by (try assumption; lia). lia.
Qed.

Lemma halo_rows_of_neighbours rank :
  0 <= rank < size - 1 ->
  exists down up,
    slice (block rank) (Buffer.size (block rank) - n) n = Some down
    /\ slice (block (rank + 1)) n n = Some down
    /\ slice (block (rank + 1)) 0 n = Some up
    /\ slice (block rank) (Buffer.size (block rank) - 2 * n) n = Some up.
Proof.
  intros Hr. pose proof n_pos'' as Hn. pose proof nq_ge_n as Hnq.
  pose proof (expected_size_bounds n size q two_workers q_is_pos n_is counts_fit rank) as [Hb _].
  pose proof (expected_size_bounds n size q two_workers q_is_pos n_is counts_fit (rank + 1))
    as [Hb1 _].
  pose proof (block_end rank Hr) as He.
  assert (Hle : (rank + 1 + 1) * (n * q) <= n * n)
    by (apply (rank_block_le n size q); solve [assumption | lia]).
  assert (Hge : n * q <= (rank + 1) * (n * q))
    by (apply (rank_block_ge n size q); solve [assumption | lia]).
  rewrite (slice_size _ _ _ _ (block_is rank ltac:(lia))).
  rewrite !block_row by lia.
  rewrite (slice_offset_is n size q two_workers q_is_pos n_is counts_fit (rank + 1))
    by lia.
  replace (slice_offset n size rank + (expected_size n size rank - n))
    with ((rank + 1) * (n * q)) by lia.
  replace (slice_offset n size rank + (expected_size n size rank - 2 * n))
    with ((rank + 1) * (n * q) - n) by lia.
  replace ((rank + 1) * (n * q) - n + n) with ((rank + 1) * (n * q)) by lia.
  replace ((rank + 1) * (n * q) - n + 0) with ((rank + 1) * (n * q) - n) by lia.
  eexists. eexists.
  split; [apply slice_ok; lia|]. split; [apply slice_ok; lia|].
  split; apply slice_ok; lia.
Qed.

End ScatterHalos.

(** After the scatter the halo rows mirror the neighbours: the trailing halo
    row of a rank is the first interior row of the next rank, and the
    leading halo row of the next rank is the last interior row of this one
    (two workers or more, worker count dividing [n]). *)
Theorem scattered_halos_mirror_neighbours {T : Type} (n size : Z)
    (grid : list T) (bufs : list (list T)) :
  2 <= size -> 0 < n -> n * n + 2 * n < 2 ^ 31 -> (size | n) ->
  Buffer.size grid = n * n ->
  Forall2 (fun rank buf => Buffer.size buf = expected_size n size rank)
          (range 0 size) bufs ->
  exists local,
    initial_communication n grid bufs = Some local
    /\ forall (k : nat) (lo hi : list T),
         nth_error local k = Some lo -> nth_error local (S k) = Some hi ->
         exists down up,
           slice lo (Buffer.size lo - n) n = Some down
           /\ slice hi n n = Some down
           /\ slice hi 0 n = Some up
           /\ slice lo (Buffer.size lo - 2 * n) n = Some up.
Proof.
  intros Hs Hn Hfit Hdiv Hg Hb.
  assert (Hq : n = size * (n / size)) by (apply n_eq; solve [assumption | lia]).
  assert (Hqp : 0 < n / size) by (apply q_pos; solve [assumption | lia]).
  eexists. split.
  - apply (initial_communication_ok n size (n / size)); assumption.
  - intros k lo hi Hlo Hhi.
    apply nth_error_map_range in Hlo. destruct Hlo as [Hk ->].
    apply nth_error_map_range in Hhi. destruct Hhi as [Hk1 ->].
    replace (Z.of_nat (S k)) with (Z.of_nat k + 1) by lia.
    apply (halo_rows_of_neighbours n size (n / size)); try assumption. lia.
Qed.

Lemma scattered_halos_mirror_neighbours_witness :
  exists local,
    initial_communication 4 grid4 [zeros 12; zeros 12] = Some local
    /\ forall (k : nat) (lo hi : list Z),
         nth_error local k = Some lo -> nth_error local (S k) = Some hi ->
         exists down up,
           slice lo (Buffer.size lo - 4) 4 = Some down
           /\ slice hi 4 4 = Some down
           /\ slice hi 0 4 = Some up
           /\ slice lo (Buffer.size lo - 2 * 4) 4 = Some up.
Proof.
  apply (scattered_halos_mirror_neighbours 4 2 grid4 [zeros 12; zeros 12]);
    try reflexivity; try lia.
  - exists 2. reflexivity.
  - repeat constructor.
Defined.

(** ** The scatter for any worker count *)

Lemma wrap64_neg_row n : 0 < n < 2 ^ 64 -> wrap64 (wrap64 (0 - 1) * n) = 2 ^ 64 - n.
Proof.
  intros Hn. unfold wrap64.
  change ((0 - 1) mod 2 ^ 64) with (2 ^ 64 - 1).
  replace ((2 ^ 64 - 1) * n) with (2 ^ 64 - n + (n - 1) * 2 ^ 64) by lia.
  rewrite Z.mod_add by discriminate. apply Z.mod_small. lia.
Qed.

Lemma send_to_rank_1 n size :
  2 <= size ->
  exists s, In s (scatter_sends n size) /\ dest s = 1
            /\ buf_offset s = send_offset n size 1.
Proof.
  intros Hs. destruct (Z.eq_dec size 2) as [->|Hne].
  - eexists. split; [left; reflexivity|]. split; reflexivity.
  - eexists. split.
    + right. apply in_map_iff. exists 1. split; [reflexivity|]. apply in_range. lia.
    + split; reflexivity.
Qed.

(** With more workers than rows the index of the send buffer for rank 1,
    [(1*n/size - 1)*n], is computed in [size_t]: [1*n/size] is 0, the
    subtraction wraps, and the index is [2^64 - n], beyond every grid. The
    same holds for every rank [proc] with [proc*n < size]. *)
Theorem scatter_index_wraps_with_more_workers_than_rows (n size : Z) :
  1 <= n < size -> size < 2 ^ 31 ->
  (forall proc, 1 <= proc -> proc * n < size -> send_offset n size proc = 2 ^ 64 - n)
  /\ exists s, In s (scatter_sends n size) /\ dest s = 1 /\ buf_offset s = 2 ^ 64 - n.
Proof.
  intros Hn Hs.
  assert (H231 : 2 ^ 31 < 2 ^ 64) by reflexivity.
  assert (Hoff : forall proc, 1 <= proc -> proc * n < size ->
                   send_offset n size proc = 2 ^ 64 - n).
  { intros proc Hp Hlt. assert (proc < size) by nia.
    unfold send_offset.
    rewrite (wrap64_small proc), (wrap64_small size) by lia.
    rewrite (wrap64_small (proc * n)) by nia.
    rewrite Z.div_small by nia.
    apply wrap64_neg_row. lia. }
  split; [exact Hoff|].
  destruct (send_to_rank_1 n size ltac:(lia)) as (s & Hin & Hd & Ho).
  exists s. split; [exact Hin|]. split; [exact Hd|].
  rewrite Ho. apply Hoff; lia.
Qed.

Lemma scatter_index_wraps_with_more_workers_than_rows_witness :
  (forall proc, 1 <= proc -> proc * 2 < 3 -> send_offset 2 3 proc = 2 ^ 64 - 2)
  /\ exists s, In s (scatter_sends 2 3) /\ dest s = 1 /\ buf_offset s = 2 ^ 64 - 2.
Proof.
  apply (scatter_index_wraps_with_more_workers_than_rows 2 3); lia.
Defined.

Section ScatterSafe.
Context {T : Type}.
Variables n size : Z.
Hypothesis two_workers : 2 <= size.
Hypothesis enough_rows : size <= n.
Hypothesis counts_fit : n * n + 2 * n < 2 ^ 31.

Let a := n * n / size.

Local Lemma a_bounds : n <= a /\ a * size <= n * n /\ 2 * a <= n * n.
Proof.
  assert (H1 : a * size <= n * n).
  { unfold a. rewrite Z.mul_comm. apply Z.mul_div_le. lia. }
  assert (H2 : n <= a).
  { unfold a. apply Z.div_le_lower_bound; [lia|]. nia. }
  split; [exact H2|]. split; [exact H1|]. nia.
Qed.

Local Lemma pow_31_64 : 2 ^ 31 < 2 ^ 64.
Proof. reflexivity. Qed.

Lemma expected_size_general rank :
  expected_size n size rank
  = if (rank =? 0) || (rank =? size - 1) then a + n else a + 2 * n.
Proof.
  pose proof a_bounds as (H1 & H2 & H3). pose proof pow_31_64.
  unfold expected_size.
  rewrite (wrap64_small (n * n)), (wrap64_small size), (wrap64_small (2 * n)) by nia.
  fold a. destruct ((rank =? 0) || (rank =? size - 1)); apply wrap64_small; nia.
Qed.

Lemma int_expected_size_general rank :
  int_of_size_t (expected_size n size rank) = expected_size n size rank.
Proof.
  pose proof a_bounds as (H1 & H2 & H3).
  rewrite expected_size_general.
  destruct ((rank =? 0) || (rank =? size - 1)); apply int_of_size_t_small; nia.
Qed.

Lemma send_offset_general proc :
  1 <= proc < size ->
  send_offset n size proc = (proc * n / size - 1) * n
  /\ 1 <= proc * n / size /\ proc * n / size * size <= proc * n.
Proof.
  intros Hp. pose proof pow_31_64.
  assert (Hf1 : 1 <= proc * n / size).
  { apply Z.div_le_lower_bound; [lia|]. nia. }
  assert (Hf2 : proc * n / size * size <= proc * n).
  { rewrite Z.mul_comm. apply Z.mul_div_le. lia. }
  split; [|split; assumption].
  unfold send_offset.
  rewrite (wrap64_small proc), (wrap64_small size) by nia.
  rewrite (wrap64_small (proc * n)) by nia.
  assert (proc * n / size <= n) by (apply Z.div_le_upper_bound; nia).
  rewrite (wrap64_small (proc * n / size - 1)) by nia.
  apply wrap64_small. nia.
Qed.

Lemma block_inside rank :
  0 <= rank < size ->
  0 <= slice_offset n size rank
  /\ slice_offset n size rank + expected_size n size rank <= n * n.
Proof.
  intros Hr. pose proof a_bounds as (H1 & H2 & H3).
  rewrite expected_size_general. unfold slice_offset.
  destruct (Z.eqb_spec rank 0) as [->|Hne]; cbn [orb].
  - nia.
  - destruct (send_offset_general rank ltac:(lia)) as (-> & Hf1 & Hf2).
    set (f := rank * n / size) in *.
    destruct (Z.eqb_spec rank (size - 1)) as [Hlast|Hlast].
    + split; [nia|].
      assert (size * (f * n + a) <= size * (n * n)) by nia.
      assert (f * n + a <= n * n) by (apply Z.mul_le_mono_pos_l with (p := size); lia).
      lia.
    + split; [nia|].
      assert (size * (f * n + a + n) <= size * (n * n)) by nia.
      assert (f * n + a + n <= n * n) by (apply Z.mul_le_mono_pos_l with (p := size); lia).
      lia.
Qed.

Lemma scatter_send_general s :
  In s (scatter_sends n size) ->
  1 <= dest s < size
  /\ buf_offset s = slice_offset n size (dest s)
  /\ count s = expected_size n size (dest s).
Proof.
  pose proof a_bounds as (H1 & H2 & H3). pose proof pow_31_64.
  intros [<-|Hin]; cbn [dest buf_offset count].
  - split; [lia|].
    split; [unfold slice_offset;
            replace (size - 1 =? 0) with false by (symmetry; apply Z.eqb_neq; lia);
            reflexivity|].
    rewrite int_expected_size_general. unfold expected_size.
    rewrite (Z.eqb_refl (size - 1)), orb_true_r. reflexivity.
  - apply in_map_iff in Hin. destruct Hin as (proc & <- & Hp).
    apply in_range in Hp. cbn [dest buf_offset count].
    split; [lia|].
    split; [unfold slice_offset;
            replace (proc =? 0) with false by (symmetry; apply Z.eqb_neq; lia);
            reflexivity|].
    rewrite !expected_size_general.
    replace (proc =? 0) with false by (symmetry; apply Z.eqb_neq; lia).
    replace (proc =? size - 1) with false by (symmetry; apply Z.eqb_neq; lia).
    cbn [Z.eqb orb].
    rewrite (wrap64_small (a + n + n)) by nia.
    rewrite int_of_size_t_small by nia. lia.
Qed.

Lemma scatter_send_found rank :
  1 <= rank < size ->
  exists s, find (fun s => dest s =? rank) (scatter_sends n size) = Some s
            /\ In s (scatter_sends n size) /\ dest s = rank.
Proof.
  intros Hr.
  destruct (find (fun s => dest s =? rank) (scatter_sends n size)) as [s|] eqn:Ef.
  - exists s. apply find_some in Ef. destruct Ef as [Hin Hd].
    apply Z.eqb_eq in Hd. auto.
  - exfalso.
    assert (Hex : exists s, In s (scatter_sends n size) /\ dest s = rank).
    { destruct (Z.eq_dec rank (size - 1)) as [->|Hne].
      - eexists. split; [left; reflexivity|reflexivity].
      - eexists. split.
        + right. apply in_map_iff. exists rank. split; [reflexivity|].
          apply in_range. lia.
        + reflexivity. }
    destruct Hex as (s & Hin & Hd).
    pose proof (find_none _ _ Ef s Hin) as Hn. cbn beta in Hn.
    rewrite Hd, Z.eqb_refl in Hn. discriminate Hn.
Qed.

Let block (grid : list T) (rank : Z) : list T :=
  firstn (Z.to_nat (expected_size n size rank))
         (skipn (Z.to_nat (slice_offset n size rank)) grid).

Lemma block_slice_general grid rank :
  Buffer.size grid = n * n -> 0 <= rank < size ->
  slice grid (slice_offset n size rank) (expected_size n size rank)
  = Some (block grid rank).
Proof.
  intros Hg Hr. pose proof (block_inside rank Hr) as [Hb1 Hb2].
  pose proof a_bounds as (H1 & H2 & H3).
  apply slice_ok; try lia.
  rewrite expected_size_general. destruct ((rank =? 0) || (rank =? size - 1)); nia.
Qed.

Lemma initial_communication_rank_general grid rank buf :
  Buffer.size grid = n * n -> 0 <= rank < size ->
  Buffer.size buf = expected_size n size rank ->
  initial_communication_rank n size grid rank buf = Some (block grid rank).
Proof.
  intros Hg Hr Hb. unfold initial_communication_rank.
  destruct (Z.eqb_spec rank 0) as [->|Hne].
  - pose proof (block_slice_general grid 0 Hg Hr) as Hs.
    unfold slice_offset in Hs. cbn [Z.eqb] in Hs.
    rewrite Hs. cbn [bind].
    rewrite overwrite_all by (rewrite (slice_size _ _ _ _ Hs); lia). cbn [bind].
    rewrite (sequence_map_some _ (fun s => block grid (dest s))); [reflexivity|].
    intros s Hin. destruct (scatter_send_general s Hin) as (Hd & -> & ->).
    apply block_slice_general; [exact Hg|lia].
  - destruct (scatter_send_found rank ltac:(lia)) as (s & -> & Hin & Hd).
    cbn [bind]. destruct (scatter_send_general s Hin) as (_ & -> & ->).
    rewrite Hd, block_slice_general by assumption. cbn [bind].
    rewrite int_expected_size_general, Z.leb_refl.
    apply overwrite_all.
    rewrite (slice_size _ _ _ _ (block_slice_general grid rank Hg Hr)). lia.
Qed.

End ScatterSafe.

(** With at least two workers and at least as many rows as workers the
    scatter stays inside the grid, whether or not the worker count divides
    [n]: every send buffer lies in the grid, every message fits its receive,
    and each rank ends up with the [expected_size] elements of the grid
    that start at its slice offset. *)
Theorem scatter_stays_inside_grid {T : Type} (n size : Z)
    (grid : list T) (bufs : list (list T)) :
  2 <= size <= n -> n * n + 2 * n < 2 ^ 31 ->
  Buffer.size grid = n * n ->
  Forall2 (fun rank buf => Buffer.size buf = expected_size n size rank)
          (range 0 size) bufs ->
  initial_communication n grid bufs
  = Some (map (fun rank =>
                 firstn (Z.to_nat (expected_size n size rank))
                        (skipn (Z.to_nat (slice_offset n size rank)) grid))
              (range 0 size))
  /\ forall rank, 0 <= rank < size ->
       0 <= slice_offset n size rank
       /\ slice_offset n size rank + expected_size n size rank <= n * n.
Proof.
  intros [Hs Hn] Hfit Hg Hb. split.
  - unfold initial_communication.
    assert (Hlen : comm_size bufs = size).
    { unfold comm_size. rewrite <- (Forall2_length Hb), length_range. lia. }
    unfold ranked. rewrite Hlen.
    rewrite (sequence_map_some _
               (fun rm => firstn (Z.to_nat (expected_size n size (fst rm)))
                                 (skipn (Z.to_nat (slice_offset n size (fst rm))) grid))).
    + f_equal.
      rewrite <- (map_fst_combine_eq (range 0 size) bufs (Forall2_length Hb)) at 2.
      rewrite map_map. reflexivity.
    + intros [rank buf] Hin. cbn [fst snd].
      pose proof Hin as Hr. apply in_combine_l in Hr. apply in_range in Hr.
      apply initial_communication_rank_general; try assumption; try lia.
      exact (Forall2_combine _ _ _ Hb _ _ Hin).
  - intros rank Hr. now apply block_inside.
Qed.

Lemma scatter_stays_inside_grid_witness :
  initial_communication 4 grid4 [zeros 9; zeros 13; zeros 9]
  = Some (map (fun rank =>
                 firstn (Z.to_nat (expected_size 4 3 rank))
                        (skipn (Z.to_nat (slice_offset 4 3 rank)) grid4))
              (range 0 3))
  /\ forall rank, 0 <= rank < 3 ->
       0 <= slice_offset 4 3 rank
       /\ slice_offset 4 3 rank + expected_size 4 3 rank <= 4 * 4.
Proof.
  apply (scatter_stays_inside_grid 4 3 grid4 [zeros 9; zeros 13; zeros 9]).
  - lia.
  - reflexivity.
  - reflexivity.
  - repeat constructor.
Defined.

(** ** The gather for any worker count *)

Section GatherAny.
Context {T : Type}.
Variables n size : Z.
Hypothesis two_workers : 2 <= size.
Hypothesis enough_rows : size <= n.
Hypothesis counts_fit : n * n + 2 * n < 2 ^ 31.

Let a := n * n / size.

(** The rows of a rank without its halo rows. *)
Let kept (rank : Z) (mesh : list T) : list T :=
  firstn (Z.to_nat a) (skipn (Z.to_nat (interior_local_offset n rank)) mesh).

Lemma block_elements_general : n <= a /\ a * size <= n * n.
Proof.
  assert (H1 : a * size <= n * n).
  { unfold a. rewrite Z.mul_comm. apply Z.mul_div_le. lia. }
  assert (H2 : n <= a).
  { unfold a. apply Z.div_le_lower_bound; [lia|]. nia. }
  split; assumption.
Qed.

Lemma contribution_general rank (mesh : list T) :
  0 <= rank < size -> Buffer.size mesh = expected_size n size rank ->
  contribution n size rank mesh = Some (a, kept rank mesh).
Proof.
  intros Hr Hm. pose proof block_elements_general as [Ha1 Ha2].
  assert (H64 : 2 ^ 31 < 2 ^ 64) by reflexivity.
  assert (Haa : a <= n * n) by nia.
  unfold contribution, kept, interior_local_offset.
  rewrite Hm, (expected_size_general n size two_workers enough_rows counts_fit rank).
  fold a.
  destruct (Z.eqb_spec rank 0) as [->|Hne]; cbn [orb].
  - replace (a + n - n) with a by lia.
    rewrite wrap64_small, int_of_size_t_small by lia.
    rewrite slice_ok; [reflexivity|lia|lia|].
    rewrite Hm, (expected_size_general n size two_workers enough_rows counts_fit 0).
    fold a. cbn [Z.eqb orb]. lia.
  - destruct (Z.eqb_spec rank (size - 1)) as [->|Hlast].
    + replace (a + n - n) with a by lia.
      rewrite wrap64_small, int_of_size_t_small by lia.
      rewrite slice_ok; [reflexivity|lia|lia|].
      rewrite Hm, (expected_size_general n size two_workers enough_rows counts_fit (size - 1)).
      fold a. rewrite Z.eqb_refl, orb_true_r. lia.
    + replace (a + 2 * n - n) with (a + n) by lia.
      rewrite wrap64_small by lia.
      rewrite resize_slice.
      assert (Hs : slice mesh 0 (a + n)
                   = Some (firstn (Z.to_nat (a + n)) (skipn (Z.to_nat 0) mesh))).
      { apply slice_ok; try lia.
        rewrite Hm, (expected_size_general n size two_workers enough_rows counts_fit rank).
        fold a.
        replace (rank =? 0) with false by (symmetry; apply Z.eqb_neq; lia).
        replace (rank =? size - 1) with false by (symmetry; apply Z.eqb_neq; lia).
        cbn [orb]. lia. }
      rewrite Hs. cbn [bind]. rewrite (slice_size _ _ _ _ Hs).
      replace (a + n - n) with a by lia.
      rewrite wrap64_small, int_of_size_t_small by lia.
      rewrite (slice_slice _ _ _ _ n a Hs) by lia.
      cbn [Z.add]. rewrite slice_ok; [reflexivity|lia|lia|].
      rewrite Hm, (expected_size_general n size two_workers enough_rows counts_fit rank).
      fold a.
      replace (rank =? 0) with false by (symmetry; apply Z.eqb_neq; lia).
      replace (rank =? size - 1) with false by (symmetry; apply Z.eqb_neq; lia).
      cbn [orb]. lia.
Qed.

Lemma kept_size rank (mesh : list T) :
  0 <= rank < size -> Buffer.size mesh = expected_size n size rank ->
  Buffer.size (kept rank mesh) = a.
Proof.
  intros Hr Hm. pose proof block_elements_general as [Ha1 Ha2].
  unfold kept, Buffer.size in *. rewrite length_firstn, length_skipn.
  rewrite (expected_size_general n size two_workers enough_rows counts_fit rank) in Hm.
  fold a in Hm. unfold interior_local_offset.
  destruct (rank =? 0); cbn [orb] in Hm; [lia|].
  destruct (rank =? size - 1); lia.
Qed.

Lemma concat_kept_size (rs : list Z) (meshes : list (list T)) :
  Forall2 (fun rank mesh => 0 <= rank < size
                            /\ Buffer.size mesh = expected_size n size rank) rs meshes ->
  Buffer.size (concat (map (fun rm => kept (fst rm) (snd rm)) (combine rs meshes)))
  = Z.of_nat (List.length rs) * a.
Proof.
  induction 1 as [|r m rs ms [Hr Hm] _ IH]; [reflexivity|].
  cbn [combine map concat fst snd List.length].
  unfold Buffer.size in *. rewrite length_app, Nat2Z.inj_add, IH.
  pose proof (kept_size r m Hr Hm) as Hi. unfold Buffer.size in Hi. lia.
Qed.

Lemma gather_general (meshes : list (list T)) final0 :
  Forall2 (fun rank mesh => Buffer.size mesh = expected_size n size rank)
          (range 0 size) meshes ->
  Buffer.size final0 = n * n ->
  gather n meshes final0
  = Some (concat (map (fun rm => kept (fst rm) (snd rm)) (ranked meshes))
          ++ skipn (Z.to_nat (size * a)) final0).
Proof.
  intros Hm Hf. unfold gather. pose proof block_elements_general as [Ha1 Ha2].
  assert (Hlen : comm_size meshes = size).
  { unfold comm_size. rewrite <- (Forall2_length Hm), length_range. lia. }
  assert (Hm' : Forall2 (fun rank mesh => 0 <= rank < size
                  /\ Buffer.size mesh = expected_size n size rank)
                  (range 0 size) meshes).
  { apply Forall2_with_Forall_l; [|exact Hm].
    apply Forall_forall. intros r Hr. apply in_range in Hr. lia. }
  unfold ranked. rewrite Hlen.
  rewrite (sequence_map_some _ (fun rm => (a, kept (fst rm) (snd rm)))).
  2:{ intros [r m] Hin. cbn [fst snd].
      destruct (Forall2_combine _ _ _ Hm' _ _ Hin) as [Hr Hs].
      now apply contribution_general. }
  cbn [bind].
  assert (Hsz : Buffer.size (concat (map (fun rm => kept (fst rm) (snd rm))
                                       (combine (range 0 size) meshes))) = size * a).
  { rewrite concat_kept_size by exact Hm'. rewrite length_range.
    replace (Z.of_nat (Z.to_nat (size - 0))) with size by lia. reflexivity. }
  assert (Hne : combine (range 0 size) meshes <> []).
  { intros Ec. apply (f_equal (@List.length _)) in Ec.
    rewrite length_combine, length_range, <- (Forall2_length Hm), length_range in Ec.
    cbn in Ec. lia. }
  set (f := fun rm : Z * list T => (a, kept (fst rm) (snd rm))).
  assert (Hall : forallb (fun p : Z * list T => fst p =? a)
                         (map f (combine (range 0 size) meshes)) = true).
  { apply forallb_forall. intros p Hp. apply in_map_iff in Hp.
    destruct Hp as (rm & <- & _). cbn [fst f]. apply Z.eqb_refl. }
  assert (Hsnd : map snd (map f (combine (range 0 size) meshes))
                 = map (fun rm => kept (fst rm) (snd rm))
                       (combine (range 0 size) meshes)).
  { rewrite map_map. reflexivity. }
  destruct (combine (range 0 size) meshes) as [|x rest]; [congruence|].
  cbn [map] in *. cbn [f fst] in Hall |- *. fold f in Hall |- *.
  rewrite Hall, Hsnd.
  set (data := kept (fst x) (snd x) :: map (fun rm => kept (fst rm) (snd rm)) rest) in *.
  unfold overwrite. rewrite Hsz, Hf.
  replace (0 <=? 0) with true by reflexivity.
  replace (0 + size * a <=? n * n) with true by (symmetry; apply Z.leb_le; lia).
  cbn [andb Z.to_nat firstn app Nat.add]. do 3 f_equal.
  unfold Buffer.size in Hsz. lia.
Qed.

End GatherAny.

(** With at least two workers and at least as many rows as workers the
    gather goes through, whether or not the worker count divides [n]: every
    rank contributes the [n*n/size] elements after its leading halo row
    (rank 0: its first [n*n/size] elements), the coordinator stores them in
    rank order, and the elements of [final_mesh] from [size * (n*n/size)]
    on keep what they held. *)
Theorem gather_leaves_remainder_untouched {T : Type} (n size : Z)
    (meshes : list (list T)) (final0 : list T) :
  2 <= size <= n -> n * n + 2 * n < 2 ^ 31 ->
  Forall2 (fun rank mesh => Buffer.size mesh = expected_size n size rank)
          (range 0 size) meshes ->
  Buffer.size final0 = n * n ->
  gather n meshes final0
  = Some (concat (map (fun rm =>
                         firstn (Z.to_nat (n * n / size))
                                (skipn (Z.to_nat (interior_local_offset n (fst rm)))
                                       (snd rm)))
                      (ranked meshes))
          ++ skipn (Z.to_nat (size * (n * n / size))) final0).
Proof.
  intros [H2 Hn] Hc Hm Hf.
  exact (gather_general n size H2 Hn Hc meshes final0 Hm Hf).
Qed.

Lemma gather_leaves_remainder_untouched_witness :
  gather 4 [ [1;2;3;4; 5;6;7;8; 9]; [10;11;12;13; 14;15;16;17; 18;19;20;21; 22];
             [23;24;25;26; 27;28;29;30; 31] ]
         [0;0;0;0; 0;0;0;0; 0;0;0;0; 0;0;0;77]
  = Some (concat (map (fun rm =>
                         firstn (Z.to_nat (4 * 4 / 3))
                                (skipn (Z.to_nat (interior_local_offset 4 (fst rm)))
                                       (snd rm)))
                      (ranked [ [1;2;3;4; 5;6;7;8; 9];
                                [10;11;12;13; 14;15;16;17; 18;19;20;21; 22];
                                [23;24;25;26; 27;28;29;30; 31] ]))
          ++ skipn (Z.to_nat (3 * (4 * 4 / 3))) [0;0;0;0; 0;0;0;0; 0;0;0;0; 0;0;0;77]).
Proof.
  apply (gather_leaves_remainder_untouched 4 3).
  - lia.
  - lia.
  - repeat constructor.
  - reflexivity.
Defined.

(** ** What the halo exchange leaves in the buffers *)

Section ExchangeRows.
Context {T : Type}.
Variables n size : Z.
Hypothesis n_range : 0 <= n < 2 ^ 31.
Hypothesis two_ranks : 2 <= size.

Implicit Types (p : @proc T) (m : @message T) (mail : list (@message T)).

Lemma overwrite_leading (b row : list T) :
  Buffer.size row <= Buffer.size b -> overwrite b 0 row = Some (with_leading_halo row b).
Proof.
  intros H. unfold overwrite. cbn [Z.leb Z.compare andb Z.add Z.to_nat firstn app Nat.add].
  replace (Buffer.size row <=? Buffer.size b) with true by (symmetry; apply Z.leb_le; lia).
  reflexivity.
Qed.

Lemma overwrite_trailing (b row : list T) :
  Buffer.size row <= Buffer.size b ->
  overwrite b (Buffer.size b - Buffer.size row) row = Some (with_trailing_halo row b).
Proof.
  intros H. pose proof (size_nonneg row). unfold overwrite.
  replace (0 <=? Buffer.size b - Buffer.size row) with true by (symmetry; apply Z.leb_le; lia).
  replace (Buffer.size b - Buffer.size row + Buffer.size row <=? Buffer.size b) with true
    by (symmetry; apply Z.leb_le; lia).
  cbn [andb]. unfold with_trailing_halo. f_equal. unfold Buffer.size in *.
  rewrite skipn_all2 by lia. rewrite app_nil_r. f_equal. f_equal. lia.
Qed.


(** Second sweep: every waiting rank takes the message at the head into its
    last row. *)
Lemma sweep_waiting_rows ps : forall rank mail,
  0 <= rank -> rank + Z.of_nat (List.length ps) = size ->
  waiting_for_rows_then_done n rank ps -> chain_mail n (rank + 1) mail ->
  S (List.length mail) = List.length ps ->
  exists ps' moved,
    sweep size rank ps mail = Some (ps', [], moved)
    /\ Forall (fun p => pending p = []) ps'
    /\ Forall2 (fun p p' => Buffer.size (buf p') = Buffer.size (buf p)) ps ps'
    /\ (2 <= List.length ps -> moved = true)%nat
    /\ map buf ps' = trailing_pass (map buf ps) (map payload mail).
Proof.
  induction ps as [|p rest IH]; intros rank mail Hr Hlen Hw Hc Hm; [contradiction|].
  destruct rest as [|p2 rest].
  - cbn [waiting_for_rows_then_done] in Hw.
    destruct mail; [|discriminate].
    cbn [sweep]. rewrite Hw. cbn [advance bind sweep].
    exists [ {| buf := buf p; pending := []; posted := false |} ], false.
    split; [reflexivity|]. split; [repeat constructor|].
    split; [repeat constructor|]. split; [cbn; lia|reflexivity].
  - destruct Hw as [(Hpost & c & Hp & Hsrc & Hdst & Hmax & Hat & Hat0) Hrest].
    destruct mail as [|m mail]; [discriminate|].
    destruct Hc as (Hms & Hmd & Hmsz & Hc).
    cbn [List.length] in Hlen, Hm.
    rewrite sweep_cons, Hp, Hpost. cbn [advance].
    rewrite Hsrc, Hdst, valid_rank_in by lia. cbn [andb bind].
    cbn [take_message]. rewrite Hms, Hmd.
    replace (rank + 1 - 1) with rank by lia. rewrite !Z.eqb_refl. cbn [andb].
    rewrite Hmsz, Hmax, Z.leb_refl.
    assert (Hb' : overwrite (buf p) (recv_at c) (payload m)
                  = Some (with_trailing_halo (payload m) (buf p))).
    { rewrite Hat, <- Hmsz. apply overwrite_trailing. lia. }
    rewrite Hb'. cbn [bind advance fst snd].
    destruct (IH (rank + 1) mail) as (ps' & moved & Hsw & Hdone & Hsz & _ & Hbufs);
      [lia| cbn [List.length]; lia | exact Hrest | exact Hc | cbn [List.length]; lia |].
    rewrite Hsw. cbn [bind].
    eexists. eexists. split; [reflexivity|].
    split; [constructor; [reflexivity|exact Hdone]|].
    split; [constructor; [cbn [buf]; exact (overwrite_size _ _ _ _ Hb')|exact Hsz]|].
    split; [reflexivity|].
    cbn [map buf trailing_pass]. cbn [map] in Hbufs. rewrite Hbufs. reflexivity.
Qed.

(** First sweep, from a rank other than 0 on: the rank takes the row of its
    predecessor into its first row, answers with its own first interior row
    and, unless it is the last, sends on its last interior row. *)
Lemma sweep_entering_rows ps : forall rank M m,
  1 <= rank -> rank + Z.of_nat (List.length ps) = size -> ps <> [] ->
  all_entering n size rank ps ->
  Forall (fun m => dst m < rank) M ->
  src m = rank - 1 -> dst m = rank -> Buffer.size (payload m) = n ->
  exists ps' tail,
    sweep size rank ps (M ++ [m]) = Some (ps', M ++ tail, true)
    /\ waiting_for_rows_then_done n rank ps'
    /\ chain_mail n rank tail
    /\ List.length tail = List.length ps
    /\ Forall2 (fun p p' => Buffer.size (buf p') = Buffer.size (buf p)) ps ps'
    /\ map buf ps' = leading_pass n (payload m) (map buf ps)
    /\ map payload tail = map (first_interior_row n) (map buf ps).
Proof.
  induction ps as [|p rest IH]; intros rank M m Hr Hlen Hne Hall HM Hms Hmd Hmsz;
    [congruence|].
  destruct Hall as [(Hpost & Hpend & Hsz) Hall].
  cbn [List.length] in Hlen.
  assert (HM' : Forall (fun m => dst m <> rank) M).
  { eapply Forall_impl; [|exact HM]. cbn beta. intros; lia. }
  (* the exchange with [rank - 1] *)
  set (d1 := first_interior_row n (buf p)).
  assert (Hd1 : slice (buf p) n n = Some d1) by (apply slice_ok; lia).
  pose proof (slice_size _ _ _ _ Hd1) as Hd1sz.
  set (b1 := with_leading_halo (payload m) (buf p)).
  assert (Hb1 : overwrite (buf p) 0 (payload m) = Some b1)
    by (apply overwrite_leading; lia).
  pose proof (overwrite_size _ _ _ _ Hb1) as Hb1sz.
  set (m1 := {| src := rank; dst := rank - 1; payload := d1 |}).
  assert (Htake1 : take_message (rank - 1) rank ((M ++ [m]) ++ [m1])
                   = Some (m, M ++ [m1])).
  { rewrite <- app_assoc. cbn [app]. now apply take_message_app. }
  rewrite sweep_cons, Hpend, Hpost.
  unfold communicate_boundary.
  replace (rank =? 0) with false by (symmetry; apply Z.eqb_neq; lia).
  rewrite (int_n n n_range).
  destruct rest as [|p2 rest].
  - (* the last rank *)
    cbn [List.length] in Hlen.
    replace (rank =? size - 1) with true by (symmetry; apply Z.eqb_eq; lia).
    cbn [advance sr_dest sr_source send_at send_count recv_at recv_max
         make_offsets send_offset_1 recv_offset_1].
    rewrite valid_rank_in by lia. cbn [andb].
    rewrite Hd1. cbn [bind]. fold m1. rewrite Htake1.
    rewrite Hmsz, Z.leb_refl, Hb1. cbn [bind advance fst snd sweep].
    exists [ {| buf := b1; pending := []; posted := false |} ], [m1].
    split; [reflexivity|].
    split; [reflexivity|].
    split; [cbn; auto|].
    split; [reflexivity|].
    split; [repeat constructor; exact Hb1sz|].
    split; reflexivity.
  - (* a rank in between *)
    cbn [List.length] in Hlen.
    replace (rank =? size - 1) with false by (symmetry; apply Z.eqb_neq; lia).
    cbn [advance sr_dest sr_source send_at send_count recv_at recv_max
         make_offsets send_offset_1 recv_offset_1 send_offset_2 recv_offset_2].
    rewrite !valid_rank_in by lia. cbn [andb].
    rewrite Hd1. cbn [bind]. fold m1. rewrite Htake1.
    rewrite Hmsz, Z.leb_refl, Hb1. cbn [bind].
    rewrite (wrap64_small (2 * n)) by lia.
    rewrite !wrap64_small by lia.
    set (d2 := last_interior_row n b1).
    assert (Hd2 : slice b1 (Buffer.size (buf p) - 2 * n) n = Some d2).
    { unfold d2, last_interior_row. rewrite Hb1sz. apply slice_ok; lia. }
    pose proof (slice_size _ _ _ _ Hd2) as Hd2sz.
    rewrite Hd2. cbn [bind].
    set (m2 := {| src := rank; dst := rank + 1; payload := d2 |}).
    rewrite take_message_none.
    2:{ apply Forall_app. split; [apply Forall_app; split|].
        - exact HM'.
        - repeat constructor. cbn. lia.
        - repeat constructor. cbn. lia. }
    cbn [bind fst snd negb].
    destruct (IH (rank + 1) (M ++ [m1]) m2)
      as (ps' & tail & Hsw & Hw & Hc & Hl & Hsz2 & Hbufs & Hpay).
    + lia.
    + cbn [List.length]. lia.
    + discriminate.
    + exact Hall.
    + apply Forall_app. split.
      * eapply Forall_impl; [|exact HM]. cbn beta. intros; lia.
      * repeat constructor. cbn. lia.
    + cbn. lia.
    + reflexivity.
    + exact Hd2sz.
    + rewrite Hsw. cbn [bind].
      eexists. exists (m1 :: tail).
      split; [rewrite <- app_assoc; reflexivity|].
      split.
      { cbn [waiting_for_rows_then_done]. destruct ps' as [|q ps']; [contradiction|].
        split; [|exact Hw].
        split; [reflexivity|]. eexists. split; [reflexivity|].
        cbn [sr_source sr_dest recv_max recv_at buf].
        repeat split; try reflexivity; lia. }
      split; [cbn [chain_mail]; repeat split; auto|].
      split; [cbn [List.length] in *; lia|].
      split; [constructor; [exact Hb1sz|exact Hsz2]|].
      cbn [map buf payload leading_pass]. cbn [payload] in Hbufs.
      rewrite Hbufs, Hpay. split; reflexivity.
Qed.


Lemma waiting_for_rows_nonempty rank (ps : list (@proc T)) :
  waiting_for_rows_then_done n rank ps -> ps <> [].
Proof. destruct ps; [contradiction|discriminate]. Qed.

(** The ranks as they enter the exchange. *)
Let enter (rw : Z * (offsets * list T)) : @proc T :=
  {| buf := snd (snd rw);
     pending := communicate_boundary n size (fst rw) (fst (snd rw));
     posted := false |}.

Let well_formed (w : offsets * list T) : Prop :=
  fst w = make_offsets n (Buffer.size (snd w))
  /\ 2 * n <= Buffer.size (snd w) < 2 ^ 64.

(** With at least two ranks, buffers of at least two rows and the offsets of
    the constructor, the exchange leaves the buffers [halo_exchange] gives. *)
Lemma communicate_boundary_all_rows (world : list (offsets * list T)) :
  comm_size world = size -> Forall well_formed world ->
  communicate_boundary_all n world = Some (halo_exchange n (map snd world)).
Proof.
  intros Hsize Hwf. unfold communicate_boundary_all. rewrite Hsize.
  pose proof (all_entering_world n size world 0 Hwf) as Hent.
  unfold comm_size in Hsize.
  replace (0 + Z.of_nat (List.length world)) with size in Hent by lia.
  fold enter. unfold ranked, comm_size. rewrite Hsize.
  fold enter in Hent.
  remember (map enter (combine (range 0 size) world)) as ps eqn:Eps0.
  assert (Hps : List.length ps = List.length world).
  { rewrite Eps0. rewrite length_map, length_combine, length_range. lia. }
  assert (Hbufs : map buf ps = map snd world).
  { rewrite Eps0. rewrite map_map. unfold enter. cbn [buf].
    rewrite <- (map_map snd snd). f_equal. apply map_snd_combine_eq.
    rewrite length_range. lia. }
  clear Eps0.
  destruct ps as [|p0 ps1]; [cbn in Hps; lia|].
  destruct ps1 as [|p1 ps2] eqn:Eps1; [cbn in Hps; lia|].
  rewrite <- Eps1 in *.
  assert (Hne1 : ps1 <> []) by (rewrite Eps1; discriminate).
  clear Eps1 p1 ps2.
  destruct Hent as [(Hpost0 & Hpend0 & Hsz0) Hent1].
  unfold communicate_boundary in Hpend0. cbn [Z.eqb] in Hpend0.
  rewrite (int_n n n_range) in Hpend0.
  cbn [make_offsets send_offset_2 recv_offset_2] in Hpend0.
  rewrite (wrap64_small (2 * n)) in Hpend0 by lia.
  rewrite !wrap64_small in Hpend0 by lia.
  (* enough fuel for two sweeps *)
  assert (Hfuel : exists f, (2 * List.length (concat (map pending (p0 :: ps1))) = S (S f))%nat).
  { cbn [map concat]. rewrite Hpend0, length_app. cbn [List.length].
    exists (2 * List.length (concat (map pending ps1)))%nat. lia. }
  destruct Hfuel as [f ->].
  (* first sweep *)
  rewrite (exchange_step size _ _ _ _ _ _ Hpend0).
  rewrite sweep_cons, Hpend0, Hpost0.
  cbn [advance sr_dest sr_source send_at send_count recv_at recv_max].
  rewrite valid_rank_in by lia. cbn [andb].
  set (d0 := last_interior_row n (buf p0)).
  assert (Hd0 : slice (buf p0) (Buffer.size (buf p0) - 2 * n) n = Some d0)
    by (apply slice_ok; lia).
  pose proof (slice_size _ _ _ _ Hd0) as Hd0sz.
  rewrite Hd0. cbn [bind app take_message src dst].
  cbn [Z.eqb andb negb].
  set (m0 := {| src := 0; dst := 1; payload := d0 |}).
  destruct (sweep_entering_rows ps1 1 [] m0)
    as (ps1' & tail & Hsw & Hw & Hc & Hl & Hsz1 & Hlead & Hpay);
    try reflexivity; try assumption; try lia.
  { cbn [List.length] in Hps. lia. }
  { constructor. }
  cbn [app] in Hsw. change (0 + 1) with 1. cbn [bind]. rewrite Hsw. cbn [bind orb].
  (* second sweep *)
  set (p0' := {| buf := buf p0; pending := _; posted := true |}).
  rewrite (exchange_step size _ p0' _ _ _ _ eq_refl).
  pose proof (waiting_for_rows_nonempty _ _ Hw) as Hne1'.
  destruct (sweep_waiting_rows (p0' :: ps1') 0 tail)
    as (ps'' & moved & Hsw2 & Hdone & Hsz2 & Hmoved & Htrail).
  - lia.
  - cbn [List.length] in Hps |- *. rewrite <- (Forall2_length Hsz1). lia.
  - cbn [waiting_for_rows_then_done]. destruct ps1' as [|q ps1']; [congruence|].
    split; [|exact Hw].
    split; [reflexivity|]. eexists. split; [reflexivity|].
    cbn [sr_source sr_dest recv_max recv_at buf p0']. repeat split; try reflexivity; lia.
  - exact Hc.
  - cbn [List.length]. rewrite <- (Forall2_length Hsz1). lia.
  - rewrite Hsw2. cbn [bind]. rewrite Hmoved.
    2:{ cbn [List.length]. destruct ps1'; [congruence|]. cbn [List.length]. lia. }
    rewrite exchange_done by exact Hdone. cbn [bind].
    rewrite Htrail, <- Hbufs. cbn [map buf p0' halo_exchange].
    rewrite Hlead, Hpay. reflexivity.
Qed.

End ExchangeRows.

(** [communicate_boundary] on all ranks at once: rank 0 only takes the first
    interior row of rank 1 into its trailing halo slot; every other rank
    first takes the last interior row of its predecessor into its leading
    halo slot and then, unless it is the last rank, the first interior row of
    its successor into its trailing halo slot.  The row a rank passes on to
    its successor is read after its own leading halo slot was written. *)
Theorem halo_exchange_delivers_neighbour_rows {T : Type} (n : Z)
    (world : list (offsets * list T)) :
  0 <= n < 2 ^ 31 -> 2 <= comm_size world ->
  Forall (fun w => fst w = make_offsets n (Buffer.size (snd w))
                   /\ 2 * n <= Buffer.size (snd w) < 2 ^ 64) world ->
  communicate_boundary_all n world = Some (halo_exchange n (map snd world)).
Proof.
  intros Hn Hs Hw.
  exact (communicate_boundary_all_rows n (comm_size world) Hn Hs world eq_refl Hw).
Qed.

Lemma halo_exchange_delivers_neighbour_rows_witness :
  communicate_boundary_all 2
    [ (make_offsets 2 4, [1;2;3;4]); (make_offsets 2 6, [10;20;30;40;50;60]);
      (make_offsets 2 4, [5;6;7;8]) ]
  = Some (halo_exchange 2 [ [1;2;3;4]; [10;20;30;40;50;60]; [5;6;7;8] ]).
Proof.
  apply (halo_exchange_delivers_neighbour_rows 2
           [ (make_offsets 2 4, [1;2;3;4]); (make_offsets 2 6, [10;20;30;40;50;60]);
             (make_offsets 2 4, [5;6;7;8]) ]).
  - split; [lia|reflexivity].
  - cbn. lia.
  - repeat constructor; cbn; lia.
Defined.

(** ** The rows of a buffer under the exchange *)

Section Rows.
Context {T : Type}.
Variable n : Z.
Hypothesis n_nonneg : 0 <= n.

Implicit Types (b row : list T) (prev next : option (list T)).

Lemma with_leading_halo_length row b :
  Buffer.size row <= Buffer.size b ->
  List.length (with_leading_halo row b) = List.length b.
Proof.
  unfold with_leading_halo, Buffer.size. intros H.
  rewrite length_app, length_skipn. lia.
Qed.

Lemma with_trailing_halo_length row b :
  Buffer.size row <= Buffer.size b ->
  List.length (with_trailing_halo row b) = List.length b.
Proof.
  unfold with_trailing_halo, Buffer.size. intros H.
  rewrite length_app, length_firstn. lia.
Qed.

Lemma with_leading_halo_first row b :
  firstn (List.length row) (with_leading_halo row b) = row.
Proof.
  unfold with_leading_halo.
  rewrite firstn_app, Nat.sub_diag, firstn_all. cbn [firstn]. apply app_nil_r.
Qed.

Lemma with_leading_halo_skip (k : nat) row b :
  (List.length row <= k)%nat ->
  skipn k (with_leading_halo row b) = skipn k b.
Proof.
  intros H. unfold with_leading_halo.
  rewrite skipn_app, skipn_all2 by lia. cbn [app].
  rewrite skipn_skipn. f_equal. lia.
Qed.

Lemma with_trailing_halo_first (k : nat) row b :
  (k + List.length row <= List.length b)%nat ->
  firstn k (with_trailing_halo row b) = firstn k b.
Proof.
  intros H. unfold with_trailing_halo.
  rewrite firstn_app, length_firstn.
  replace (k - Nat.min (List.length b - List.length row) (List.length b))%nat
    with 0%nat by lia.
  cbn [firstn]. rewrite app_nil_r, firstn_firstn. f_equal. lia.
Qed.

Lemma with_trailing_halo_last row b :
  (List.length row <= List.length b)%nat ->
  skipn (List.length b - List.length row) (with_trailing_halo row b) = row.
Proof.
  intros H. unfold with_trailing_halo.
  rewrite skipn_app, length_firstn.
  rewrite skipn_all2 by (rewrite length_firstn; lia).
  replace (List.length b - List.length row
           - Nat.min (List.length b - List.length row) (List.length b))%nat
    with 0%nat by lia.
  reflexivity.
Qed.

Lemma first_interior_row_length b :
  2 * n <= Buffer.size b -> List.length (first_interior_row n b) = Z.to_nat n.
Proof.
  unfold first_interior_row, Buffer.size. intros H.
  rewrite length_firstn, length_skipn. lia.
Qed.

Lemma last_interior_row_length b :
  2 * n <= Buffer.size b -> List.length (last_interior_row n b) = Z.to_nat n.
Proof.
  unfold last_interior_row, Buffer.size. intros H.
  rewrite length_firstn, length_skipn. lia.
Qed.

Lemma first_interior_row_leading row b :
  List.length row = Z.to_nat n ->
  first_interior_row n (with_leading_halo row b) = first_interior_row n b.
Proof.
  intros H. unfold first_interior_row.
  rewrite with_leading_halo_skip by lia. reflexivity.
Qed.

Lemma first_interior_row_trailing row b :
  List.length row = Z.to_nat n -> 3 * n <= Buffer.size b ->
  first_interior_row n (with_trailing_halo row b) = first_interior_row n b.
Proof.
  unfold Buffer.size. intros H Hb. unfold first_interior_row.
  rewrite !firstn_skipn_comm.
  rewrite with_trailing_halo_first by lia. reflexivity.
Qed.

Lemma last_interior_row_trailing row b :
  List.length row = Z.to_nat n -> 2 * n <= Buffer.size b ->
  last_interior_row n (with_trailing_halo row b) = last_interior_row n b.
Proof.
  intros H Hb. unfold last_interior_row, Buffer.size in *.
  rewrite with_trailing_halo_length by (unfold Buffer.size; lia).
  rewrite !firstn_skipn_comm.
  rewrite with_trailing_halo_first by lia. reflexivity.
Qed.

Lemma last_interior_row_leading row b :
  List.length row = Z.to_nat n -> 3 * n <= Buffer.size b ->
  last_interior_row n (with_leading_halo row b) = last_interior_row n b.
Proof.
  intros H Hb. unfold last_interior_row, Buffer.size in *.
  rewrite with_leading_halo_length by (unfold Buffer.size; lia).
  rewrite with_leading_halo_skip by lia. reflexivity.
Qed.

(** A row of [n] elements or none. *)
Let row_or_none (o : option (list T)) : Prop :=
  forall row, o = Some row -> List.length row = Z.to_nat n.

Lemma take_leading_length prev b :
  row_or_none prev -> n <= Buffer.size b ->
  List.length (take_leading prev b) = List.length b.
Proof.
  intros Hp Hb. destruct prev as [row|]; [|reflexivity].
  cbn [take_leading]. apply with_leading_halo_length.
  unfold Buffer.size in *. rewrite (Hp row eq_refl). lia.
Qed.

Lemma take_trailing_length next b :
  row_or_none next -> n <= Buffer.size b ->
  List.length (take_trailing next b) = List.length b.
Proof.
  intros Hp Hb. destruct next as [row|]; [|reflexivity].
  cbn [take_trailing]. apply with_trailing_halo_length.
  unfold Buffer.size in *. rewrite (Hp row eq_refl). lia.
Qed.

Lemma next_row_or_none (rest : list (list T)) :
  Forall (fun b => 2 * n <= Buffer.size b) rest ->
  row_or_none (option_map (first_interior_row n) (hd_error rest)).
Proof.
  intros H row E. destruct rest as [|b2 rest]; [discriminate|].
  cbn in E. injection E as <-. apply first_interior_row_length.
  now inversion H.
Qed.

Lemma last_row_or_none b :
  2 * n <= Buffer.size b -> row_or_none (Some (last_interior_row n b)).
Proof. intros H row E. injection E as <-. now apply last_interior_row_length. Qed.

(** What one rank keeps. *)
Lemma take_trailing_first (k : nat) next b :
  row_or_none next -> (k + Z.to_nat n <= List.length b)%nat ->
  firstn k (take_trailing next b) = firstn k b.
Proof.
  intros Hp Hk. destruct next as [row|]; [|reflexivity].
  cbn [take_trailing]. apply with_trailing_halo_first.
  rewrite (Hp row eq_refl). lia.
Qed.

Lemma take_leading_skip (k : nat) prev b :
  row_or_none prev -> (Z.to_nat n <= k)%nat ->
  skipn k (take_leading prev b) = skipn k b.
Proof.
  intros Hp Hk. destruct prev as [row|]; [|reflexivity].
  cbn [take_leading]. apply with_leading_halo_skip.
  rewrite (Hp row eq_refl). lia.
Qed.

Lemma taken_length prev next b :
  row_or_none prev -> row_or_none next -> n <= Buffer.size b ->
  List.length (take_trailing next (take_leading prev b)) = List.length b.
Proof.
  intros Hp Hn Hb.
  rewrite take_trailing_length; [now apply take_leading_length|exact Hn|].
  unfold Buffer.size in *. rewrite take_leading_length by assumption. exact Hb.
Qed.

(** The first interior row survives the exchange. *)
Lemma taken_first_interior_row prev next b :
  row_or_none prev -> row_or_none next -> 2 * n <= Buffer.size b ->
  (next <> None -> 3 * n <= Buffer.size b) ->
  first_interior_row n (take_trailing next (take_leading prev b)) = first_interior_row n b.
Proof.
  intros Hp Hn Hb H3.
  assert (Hl : List.length (take_leading prev b) = List.length b)
    by (apply take_leading_length; [exact Hp|lia]).
  transitivity (first_interior_row n (take_leading prev b)).
  - destruct next as [row|]; [|reflexivity]. cbn [take_trailing].
    apply first_interior_row_trailing; [exact (Hn row eq_refl)|].
    unfold Buffer.size in *. rewrite Hl. apply H3. discriminate.
  - destruct prev as [row|]; [|reflexivity]. cbn [take_leading].
    apply first_interior_row_leading. exact (Hp row eq_refl).
Qed.

(** So does the last interior row. *)
Lemma taken_last_interior_row prev next b :
  row_or_none prev -> row_or_none next -> 2 * n <= Buffer.size b ->
  (prev <> None -> 3 * n <= Buffer.size b) ->
  last_interior_row n (take_trailing next (take_leading prev b)) = last_interior_row n b.
Proof.
  intros Hp Hn Hb H3.
  assert (Hl : List.length (take_leading prev b) = List.length b)
    by (apply take_leading_length; [exact Hp|lia]).
  transitivity (last_interior_row n (take_leading prev b)).
  - destruct next as [row|]; [|reflexivity]. cbn [take_trailing].
    apply last_interior_row_trailing; [exact (Hn row eq_refl)|].
    unfold Buffer.size in *. rewrite Hl. exact Hb.
  - destruct prev as [row|]; [|reflexivity]. cbn [take_leading].
    apply last_interior_row_leading; [exact (Hp row eq_refl)|].
    apply H3. discriminate.
Qed.

(** The halo slots hold what was taken. *)
Lemma taken_leading_slot row next b :
  List.length row = Z.to_nat n -> row_or_none next -> 2 * n <= Buffer.size b ->
  firstn (Z.to_nat n) (take_trailing next (take_leading (Some row) b)) = row.
Proof.
  intros Hr Hn Hb.
  rewrite take_trailing_first.
  - cbn [take_leading]. rewrite <- Hr. apply with_leading_halo_first.
  - exact Hn.
  - rewrite take_leading_length.
    + unfold Buffer.size in Hb. lia.
    + intros r E. injection E as <-. exact Hr.
    + lia.
Qed.

Lemma taken_trailing_slot prev row b :
  row_or_none prev -> List.length row = Z.to_nat n -> 2 * n <= Buffer.size b ->
  skipn (List.length b - Z.to_nat n) (take_trailing (Some row) (take_leading prev b)) = row.
Proof.
  intros Hp Hr Hb. cbn [take_trailing].
  rewrite <- (take_leading_length prev b) by (assumption || lia).
  rewrite <- Hr at 1. apply with_trailing_halo_last.
  rewrite take_leading_length by (assumption || lia).
  unfold Buffer.size in Hb. lia.
Qed.

(** Taking the same rows again changes nothing. *)
Lemma taken_again prev next b :
  row_or_none prev -> row_or_none next -> 2 * n <= Buffer.size b ->
  take_trailing next (take_leading prev (take_trailing next (take_leading prev b)))
  = take_trailing next (take_leading prev b).
Proof.
  intros Hp Hn Hb.
  set (x := take_trailing next (take_leading prev b)).
  assert (Hx : List.length x = List.length b) by (apply taken_length; [assumption..|lia]).
  assert (E1 : take_leading prev x = x).
  { destruct prev as [row|]; [|reflexivity].
    pose proof (Hp row eq_refl) as Hr.
    cbn [take_leading]. unfold with_leading_halo.
    etransitivity; [|apply (firstn_skipn (Z.to_nat n) x)].
    rewrite Hr. f_equal. symmetry. exact (taken_leading_slot row next b Hr Hn Hb). }
  rewrite E1.
  destruct next as [row|]; [|reflexivity].
  pose proof (Hn row eq_refl) as Hr.
  cbn [take_trailing]. unfold with_trailing_halo.
  etransitivity; [|apply (firstn_skipn (List.length b - Z.to_nat n) x)].
  rewrite Hx, Hr. f_equal. symmetry. exact (taken_trailing_slot prev row b Hp Hr Hb).
Qed.

(** *** The exchange rank by rank *)

Lemma exchange_rows_passes (rest : list (list T)) : forall prev b,
  trailing_pass
    (take_leading prev b :: leading_pass_old_rows n (last_interior_row n b) rest)
    (map (first_interior_row n) rest)
  = exchange_rows n prev (b :: rest).
Proof.
  induction rest as [|b2 rest IH]; intros prev b; [reflexivity|].
  change (trailing_pass
            (take_leading prev b
             :: leading_pass_old_rows n (last_interior_row n b) (b2 :: rest))
            (map (first_interior_row n) (b2 :: rest)))
    with (with_trailing_halo (first_interior_row n b2) (take_leading prev b)
          :: trailing_pass
               (take_leading (Some (last_interior_row n b)) b2
                :: leading_pass_old_rows n (last_interior_row n b2) rest)
               (map (first_interior_row n) rest)).
  rewrite IH. reflexivity.
Qed.

Lemma halo_exchange_old_rows_by_rank (bs : list (list T)) :
  halo_exchange_old_rows n bs = exchange_rows n None bs.
Proof.
  destruct bs as [|b0 rest]; [reflexivity|].
  exact (exchange_rows_passes rest None b0).
Qed.

Lemma leading_pass_old (bs : list (list T)) : forall row,
  List.length row = Z.to_nat n ->
  Forall (fun b => 2 * n <= Buffer.size b) bs ->
  all_but_last (fun b => 3 * n <= Buffer.size b) bs ->
  leading_pass n row bs = leading_pass_old_rows n row bs.
Proof.
  induction bs as [|b bs IH]; intros row Hrow H2 H3; [reflexivity|].
  apply Forall_cons_iff in H2. destruct H2 as [Hb H2].
  cbn [leading_pass leading_pass_old_rows]. f_equal.
  destruct bs as [|b2 bs]; [reflexivity|].
  destruct H3 as [Hb3 H3].
  rewrite last_interior_row_leading by assumption.
  apply IH; [|exact H2|exact H3].
  now apply last_interior_row_length.
Qed.

Lemma halo_exchange_old (bs : list (list T)) :
  Forall (fun b => 2 * n <= Buffer.size b) bs ->
  all_but_last (fun b => 3 * n <= Buffer.size b) (tl bs) ->
  halo_exchange n bs = halo_exchange_old_rows n bs.
Proof.
  intros H2 H3. destruct bs as [|b0 rest]; [reflexivity|].
  apply Forall_cons_iff in H2. destruct H2 as [Hb H2].
  cbn [halo_exchange halo_exchange_old_rows]. cbn [tl] in H3.
  rewrite leading_pass_old; [reflexivity| |exact H2|exact H3].
  now apply last_interior_row_length.
Qed.

(** The buffers the inner ranks of [bs] are: all of [bs] but the last when
    a rank precedes [bs], else all but the first and the last. *)
Let inner prev (bs : list (list T)) : list (list T) :=
  match prev with
  | Some _ => bs
  | None => tl bs
  end.

Let roomy prev (bs : list (list T)) : Prop :=
  row_or_none prev
  /\ Forall (fun b => 2 * n <= Buffer.size b) bs
  /\ all_but_last (fun b => 3 * n <= Buffer.size b) (inner prev bs).

Lemma roomy_tail prev b rest :
  roomy prev (b :: rest) -> roomy (Some (last_interior_row n b)) rest.
Proof.
  intros (Hp & H2 & H3).
  apply Forall_cons_iff in H2. destruct H2 as [Hb H2].
  split; [now apply last_row_or_none|]. split; [exact H2|].
  cbn [inner]. destruct prev; cbn [inner tl] in H3; [|exact H3].
  destruct rest as [|b2 rest]; [exact I|]. exact (proj2 H3).
Qed.

Lemma roomy_head prev b rest :
  roomy prev (b :: rest) ->
  row_or_none prev
  /\ row_or_none (option_map (first_interior_row n) (hd_error rest))
  /\ 2 * n <= Buffer.size b
  /\ (prev <> None -> rest <> [] -> 3 * n <= Buffer.size b).
Proof.
  intros (Hp & H2 & H3).
  apply Forall_cons_iff in H2. destruct H2 as [Hb H2].
  split; [exact Hp|]. split; [now apply next_row_or_none|]. split; [exact Hb|].
  intros Hprev Hrest. destruct prev; [|congruence].
  destruct rest; [congruence|]. exact (proj1 H3).
Qed.

Lemma exchange_rows_length (bs : list (list T)) : forall prev,
  roomy prev bs ->
  Forall2 (fun b b' => List.length b' = List.length b) bs (exchange_rows n prev bs).
Proof.
  induction bs as [|b rest IH]; intros prev H; [constructor|].
  pose proof (roomy_head _ _ _ H) as (Hp & Hn & Hb & _).
  cbn [exchange_rows]. constructor.
  - apply taken_length; [assumption..|lia].
  - apply IH. exact (roomy_tail _ _ _ H).
Qed.

(** What a rank with a predecessor holds after the exchange, as far as its
    neighbours are concerned. *)
Lemma exchange_rows_head row b rest :
  roomy (Some row) (b :: rest) ->
  exists hi tail,
    exchange_rows n (Some row) (b :: rest) = hi :: tail
    /\ List.length hi = List.length b
    /\ first_interior_row n hi = first_interior_row n b
    /\ firstn (Z.to_nat n) hi = row.
Proof.
  intros H. pose proof (roomy_head _ _ _ H) as (Hp & Hn & Hb & H3).
  cbn [exchange_rows]. eexists. eexists. split; [reflexivity|].
  split; [apply taken_length; [assumption..|lia]|].
  split.
  - apply taken_first_interior_row; try assumption.
    intros Hnext. apply H3; [discriminate|].
    intros ->. apply Hnext. reflexivity.
  - apply taken_leading_slot; [exact (Hp row eq_refl)|exact Hn|exact Hb].
Qed.

(** After the exchange the halo slots of neighbours hold each other's
    rows. *)
Lemma exchange_rows_mirror (bs : list (list T)) : forall prev (k : nat) lo hi,
  roomy prev bs ->
  nth_error (exchange_rows n prev bs) k = Some lo ->
  nth_error (exchange_rows n prev bs) (S k) = Some hi ->
  2 * n <= Buffer.size lo /\ 2 * n <= Buffer.size hi
  /\ skipn (List.length lo - Z.to_nat n) lo = first_interior_row n hi
  /\ firstn (Z.to_nat n) hi = last_interior_row n lo.
Proof.
  induction bs as [|b rest IH]; intros prev k lo hi H Hlo Hhi;
    [destruct k; discriminate|].
  destruct k as [|k].
  - destruct rest as [|b2 rest]; [discriminate|].
    pose proof (roomy_head _ _ _ H) as (Hp & Hn & Hb & H3).
    pose proof (roomy_tail _ _ _ H) as Ht.
    destruct (exchange_rows_head _ _ _ Ht) as (hi' & tail & E & Hl & Hf & Hs).
    pose proof (roomy_head _ _ _ Ht) as (_ & _ & Hb2 & _).
    change (exchange_rows n prev (b :: b2 :: rest))
      with (take_trailing (Some (first_interior_row n b2)) (take_leading prev b)
            :: exchange_rows n (Some (last_interior_row n b)) (b2 :: rest)) in Hlo, Hhi.
    rewrite E in Hhi. cbn [nth_error] in Hlo, Hhi.
    injection Hlo as <-. injection Hhi as <-.
    change (with_trailing_halo (first_interior_row n b2) (take_leading prev b))
      with (take_trailing (Some (first_interior_row n b2)) (take_leading prev b)).
    assert (Hrow : List.length (first_interior_row n b2) = Z.to_nat n)
      by now apply first_interior_row_length.
    assert (Hn' : row_or_none (Some (first_interior_row n b2)))
      by (intros r Er; injection Er as <-; exact Hrow).
    split; [unfold Buffer.size; rewrite taken_length by (assumption || lia); exact Hb|].
    split; [unfold Buffer.size; rewrite Hl; exact Hb2|].
    split.
    + rewrite Hf. rewrite taken_length by (assumption || lia).
      now apply taken_trailing_slot.
    + rewrite Hs. symmetry. apply taken_last_interior_row; try assumption.
      intros Hprev. apply H3; [exact Hprev|discriminate].
  - cbn [exchange_rows nth_error] in Hlo, Hhi.
    exact (IH _ _ _ _ (roomy_tail _ _ _ H) Hlo Hhi).
Qed.

(** A second exchange finds every halo slot holding what it brings. *)
Lemma exchange_rows_twice (bs : list (list T)) : forall prev,
  roomy prev bs ->
  exchange_rows n prev (exchange_rows n prev bs) = exchange_rows n prev bs.
Proof.
  induction bs as [|b rest IH]; intros prev H; [reflexivity|].
  pose proof (roomy_head _ _ _ H) as (Hp & Hn & Hb & H3).
  pose proof (roomy_tail _ _ _ H) as Ht.
  destruct rest as [|b2 rest].
  - cbn [exchange_rows hd_error option_map]. f_equal.
    apply (taken_again prev None b); [exact Hp|discriminate|exact Hb].
  - destruct (exchange_rows_head _ _ _ Ht) as (hi & tail & E & Hl & Hf & Hs).
    assert (Hrow : row_or_none (Some (first_interior_row n b2))).
    { intros r Er. injection Er as <-. apply first_interior_row_length.
      now destruct (roomy_head _ _ _ Ht) as (_ & _ & ? & _). }
    set (R := exchange_rows n (Some (last_interior_row n b)) (b2 :: rest)) in *.
    set (X := take_trailing (Some (first_interior_row n b2)) (take_leading prev b)).
    change (exchange_rows n prev (b :: b2 :: rest)) with (X :: R).
    change (exchange_rows n prev (X :: R))
      with (take_trailing (option_map (first_interior_row n) (hd_error R))
                          (take_leading prev X)
            :: exchange_rows n (Some (last_interior_row n X)) R).
    assert (Hhd : option_map (first_interior_row n) (hd_error R)
                  = Some (first_interior_row n b2)).
    { rewrite E. cbn [hd_error option_map]. now rewrite Hf. }
    assert (HlX : last_interior_row n X = last_interior_row n b).
    { apply taken_last_interior_row; try assumption.
      intros Hprev. apply H3; [exact Hprev|discriminate]. }
    rewrite Hhd, HlX. unfold R at 1. rewrite (IH _ Ht). fold R. f_equal.
    apply (taken_again prev (Some (first_interior_row n b2)) b); assumption.
Qed.

(** What the exchange leaves alone: on every rank everything between the
    halo slots, on the first rank everything before its trailing slot, on
    the last rank everything after its leading slot. *)
Lemma exchange_rows_keeps (bs : list (list T)) : forall prev,
  roomy prev bs ->
  Forall2 (fun b b' =>
             skipn (Z.to_nat n) (firstn (List.length b - Z.to_nat n) b')
             = skipn (Z.to_nat n) (firstn (List.length b - Z.to_nat n) b))
          bs (exchange_rows n prev bs).
Proof.
  induction bs as [|b rest IH]; intros prev H; [constructor|].
  pose proof (roomy_head _ _ _ H) as (Hp & Hn & Hb & _).
  cbn [exchange_rows]. constructor; [|exact (IH _ (roomy_tail _ _ _ H))].
  pose proof Hb as Hb'. unfold Buffer.size in Hb'.
  rewrite take_trailing_first
    by (try assumption; rewrite take_leading_length by (assumption || lia); lia).
  rewrite !skipn_firstn_comm.
  rewrite take_leading_skip by (assumption || lia). reflexivity.
Qed.

Lemma exchange_rows_keeps_first b rest :
  roomy None (b :: rest) ->
  firstn (List.length b - Z.to_nat n) (hd [] (exchange_rows n None (b :: rest)))
  = firstn (List.length b - Z.to_nat n) b.
Proof.
  intros H. pose proof (roomy_head _ _ _ H) as (Hp & Hn & Hb & _).
  cbn [exchange_rows hd take_leading]. unfold Buffer.size in Hb.
  apply take_trailing_first; [exact Hn|lia].
Qed.

Lemma exchange_rows_keeps_last (bs : list (list T)) : forall prev,
  roomy prev bs ->
  skipn (Z.to_nat n) (last (exchange_rows n prev bs) [])
  = skipn (Z.to_nat n) (last bs []).
Proof.
  induction bs as [|b rest IH]; intros prev H; [reflexivity|].
  pose proof (roomy_head _ _ _ H) as (Hp & Hn & Hb & _).
  pose proof (roomy_tail _ _ _ H) as Ht.
  destruct rest as [|b2 rest].
  - cbn [exchange_rows hd_error option_map take_trailing last].
    apply take_leading_skip; [exact Hp|lia].
  - specialize (IH _ Ht). cbn [exchange_rows] in IH |- *.
    cbn [last] in IH |- *. exact IH.
Qed.

End Rows.

(** ** The halo exchange, rank by rank *)

Lemma all_but_last_map {A B : Type} (f : A -> B) (P : B -> Prop) (l : list A) :
  all_but_last (fun a => P (f a)) l -> all_but_last P (map f l).
Proof.
  induction l as [|a l IH]; [trivial|].
  destruct l as [|a2 l]; [trivial|].
  intros [H1 H2]. split; [exact H1|exact (IH H2)].
Qed.

Lemma all_but_last_Forall2 {A B : Type} (R : A -> B -> Prop) (P : A -> Prop)
    (Q : B -> Prop) (l : list A) (l' : list B) :
  (forall a b, R a b -> P a -> Q b) ->
  Forall2 R l l' -> all_but_last P l -> all_but_last Q l'.
Proof.
  intros HR H. induction H as [|a b l l' Hab Hl IH]; [trivial|].
  destruct Hl as [|a2 b2 l l' Hab2 Hl]; [trivial|].
  intros [H1 H2]. split; [exact (HR _ _ Hab H1)|exact (IH H2)].
Qed.

Lemma Forall_Forall2 {A B : Type} (R : A -> B -> Prop) (P : A -> Prop)
    (Q : B -> Prop) (l : list A) (l' : list B) :
  (forall a b, R a b -> P a -> Q b) ->
  Forall2 R l l' -> Forall P l -> Forall Q l'.
Proof.
  intros HR H. induction H as [|a b l l' Hab Hl IH]; [constructor|].
  intros HP. apply Forall_cons_iff in HP. destruct HP as [H1 H2].
  constructor; [exact (HR _ _ Hab H1)|exact (IH H2)].
Qed.

Lemma Forall2_tl {A B : Type} (R : A -> B -> Prop) (l : list A) (l' : list B) :
  Forall2 R l l' -> Forall2 R (tl l) (tl l').
Proof. intros [|a b l0 l0' _ H]; [constructor|exact H]. Qed.

Lemma Forall2_map_left {A B C : Type} (f : A -> B) (R : B -> C -> Prop)
    (l : list A) (l' : list C) :
  Forall2 R (map f l) l' -> Forall2 (fun a c => R (f a) c) l l'.
Proof.
  revert l'. induction l as [|a l IH]; intros l' H; inversion H; subst;
    constructor; auto.
Qed.

(** The same ranks with other buffers of the same lengths. *)
Lemma Forall2_rebuffered {T : Type} (world : list (offsets * list T)) :
  forall out : list (list T),
  Forall2 (fun b b' : list T => List.length b' = List.length b) (map snd world) out ->
  Forall2 (fun w w' : offsets * list T =>
             fst w' = fst w /\ Buffer.size (snd w') = Buffer.size (snd w))
          world (combine (map fst world) out).
Proof.
  induction world as [|w world IH]; intros out H; inversion H; subst;
    cbn [map combine]; constructor.
  - cbn [fst snd]. unfold Buffer.size. split; [reflexivity|congruence].
  - apply IH. assumption.
Qed.

Section ByRank.
Context {T : Type}.
Variable n : Z.
Variable world : list (offsets * list T).
Hypothesis n_range : 0 <= n < 2 ^ 31.
Hypothesis two_ranks : 2 <= comm_size world.
Hypothesis well_formed :
  Forall (fun w => fst w = make_offsets n (Buffer.size (snd w))
                   /\ 2 * n <= Buffer.size (snd w) < 2 ^ 64) world.
Hypothesis inner_hold_three_rows :
  all_but_last (fun w => 3 * n <= Buffer.size (snd w)) (tl world).

Lemma world_two_rows : Forall (fun b : list T => 2 * n <= Buffer.size b) (map snd world).
Proof.
  apply Forall_forall. intros b Hb. apply in_map_iff in Hb.
  destruct Hb as (w & <- & Hin). rewrite Forall_forall in well_formed.
  destruct (well_formed w Hin) as [_ Hl]. lia.
Qed.

Lemma world_three_rows :
  all_but_last (fun b : list T => 3 * n <= Buffer.size b) (tl (map snd world)).
Proof.
  replace (tl (map snd world)) with (map snd (tl world)) by (now destruct world).
  now apply all_but_last_map.
Qed.

Lemma world_roomy :
  (forall row : list T, None = Some row -> List.length row = Z.to_nat n)
  /\ Forall (fun b : list T => 2 * n <= Buffer.size b) (map snd world)
  /\ all_but_last (fun b : list T => 3 * n <= Buffer.size b) (tl (map snd world)).
Proof.
  split; [discriminate|]. split; [exact world_two_rows|exact world_three_rows].
Qed.

Lemma communicate_boundary_all_by_rank :
  communicate_boundary_all n world = Some (exchange_rows n None (map snd world)).
Proof.
  rewrite (communicate_boundary_all_rows n (comm_size world) n_range two_ranks
             world eq_refl well_formed).
  rewrite (halo_exchange_old n _ world_two_rows world_three_rows).
  now rewrite halo_exchange_old_rows_by_rank.
Qed.

Lemma exchanged_lengths :
  Forall2 (fun b b' : list T => List.length b' = List.length b)
          (map snd world) (exchange_rows n None (map snd world)).
Proof. apply exchange_rows_length; [lia|exact world_roomy]. Qed.

End ByRank.

(** One call of [communicate_boundary] on all ranks, when every buffer holds
    two rows or more and every rank between the first and the last three or
    more: each rank with a predecessor takes the last interior row its
    predecessor held before the call into its leading halo slot, each rank
    with a successor takes the first interior row its successor held before
    the call into its trailing halo slot; no rank passes on what it has just
    received. *)
Theorem halo_exchange_rank_by_rank {T : Type} (n : Z)
    (world : list (offsets * list T)) :
  0 <= n < 2 ^ 31 -> 2 <= comm_size world ->
  Forall (fun w => fst w = make_offsets n (Buffer.size (snd w))
                   /\ 2 * n <= Buffer.size (snd w) < 2 ^ 64) world ->
  all_but_last (fun w => 3 * n <= Buffer.size (snd w)) (tl world) ->
  communicate_boundary_all n world = Some (exchange_rows n None (map snd world)).
Proof. intros. now apply communicate_boundary_all_by_rank. Qed.

Lemma halo_exchange_rank_by_rank_witness :
  communicate_boundary_all 2
    [ (make_offsets 2 4, [1;2;3;4]); (make_offsets 2 6, [10;20;30;40;50;60]);
      (make_offsets 2 4, [5;6;7;8]) ]
  = Some (exchange_rows 2 None [ [1;2;3;4]; [10;20;30;40;50;60]; [5;6;7;8] ]).
Proof.
  apply (halo_exchange_rank_by_rank 2
           [ (make_offsets 2 4, [1;2;3;4]); (make_offsets 2 6, [10;20;30;40;50;60]);
             (make_offsets 2 4, [5;6;7;8]) ]).
  - split; [lia|reflexivity].
  - cbn. lia.
  - repeat constructor; cbn; lia.
  - cbn. lia.
Defined.

(** The exchange writes the halo slots only: on every rank the rows between
    the first and the last row are as before, the first rank also keeps its
    first row and the last rank its last row (the boundary rows of the whole
    grid), and every buffer keeps its length. *)
Theorem halo_exchange_writes_halo_slots_only {T : Type} (n : Z)
    (world : list (offsets * list T)) :
  0 <= n < 2 ^ 31 -> 2 <= comm_size world ->
  Forall (fun w => fst w = make_offsets n (Buffer.size (snd w))
                   /\ 2 * n <= Buffer.size (snd w) < 2 ^ 64) world ->
  all_but_last (fun w => 3 * n <= Buffer.size (snd w)) (tl world) ->
  exists out,
    communicate_boundary_all n world = Some out
    /\ Forall2 (fun w b' =>
                  Buffer.size b' = Buffer.size (snd w)
                  /\ slice b' n (Buffer.size b' - 2 * n)
                     = slice (snd w) n (Buffer.size (snd w) - 2 * n))
               world out
    /\ slice (hd [] out) 0 n = slice (hd [] (map snd world)) 0 n
    /\ slice (last out []) (Buffer.size (last out []) - n) n
       = slice (last (map snd world) [])
               (Buffer.size (last (map snd world) []) - n) n.
Proof.
  intros Hn Hs Hw H3.
  pose proof (communicate_boundary_all_by_rank n world Hn Hs Hw H3) as Hrun.
  pose proof (exchanged_lengths n world Hn Hs Hw H3) as Hlen.
  pose proof (world_roomy n world Hs Hw H3) as Hroomy.
  pose proof (world_two_rows n world Hw) as H2.
  set (bs := map snd world) in *.
  set (out := exchange_rows n None bs) in *.
  exists out. split; [exact Hrun|].
  assert (Hn0 : 0 <= n) by lia.
  split; [|split].
  - apply (Forall2_map_left snd
             (fun b b' : list T =>
                Buffer.size b' = Buffer.size b
                /\ slice b' n (Buffer.size b' - 2 * n)
                   = slice b n (Buffer.size b - 2 * n))).
    fold bs.
    pose proof (exchange_rows_keeps n Hn0 bs None Hroomy) as Hkeep. fold out in Hkeep.
    clear - Hkeep Hlen H2 Hn0. revert Hlen H2.
    induction Hkeep as [|b b' l l' Hk _ IH]; intros Hlen H2; [constructor|].
    apply Forall2_cons_iff in Hlen. destruct Hlen as [Hl Hlen].
    apply Forall_cons_iff in H2. destruct H2 as [Hb H2].
    constructor; [|exact (IH Hlen H2)].
    assert (Hsz : Buffer.size b' = Buffer.size b) by (unfold Buffer.size; congruence).
    split; [exact Hsz|].
    rewrite !slice_ok by lia. f_equal.
    rewrite !skipn_firstn_comm in Hk. rewrite Hsz.
    replace (Z.to_nat (Buffer.size b - 2 * n))
      with (List.length b - Z.to_nat n - Z.to_nat n)%nat
      by (unfold Buffer.size; lia).
    exact Hk.
  - destruct bs as [|b0 rest] eqn:Ebs.
    { unfold comm_size in Hs. apply (f_equal (@List.length _)) in Ebs.
      unfold bs in Ebs. rewrite length_map in Ebs. cbn in Ebs. lia. }
    pose proof (exchange_rows_keeps_first n b0 rest Hroomy) as Hkeep. fold out in Hkeep.
    apply Forall_cons_iff in H2. destruct H2 as [Hb _].
    assert (Hsz : Buffer.size (hd [] out) = Buffer.size b0).
    { unfold out in *. cbn [exchange_rows hd] in *.
      apply Forall2_cons_iff in Hlen. unfold Buffer.size. now rewrite (proj1 Hlen). }
    cbn [hd] in *.
    rewrite !slice_ok by lia. f_equal. cbn [Z.to_nat skipn].
    apply (f_equal (firstn (Z.to_nat n))) in Hkeep.
    rewrite !firstn_firstn in Hkeep.
    replace (Nat.min (Z.to_nat n) (List.length b0 - Z.to_nat n)) with (Z.to_nat n) in Hkeep
      by (unfold Buffer.size in Hb; lia).
    exact Hkeep.
  - pose proof (exchange_rows_keeps_last n bs None Hroomy) as Hkeep. fold out in Hkeep.
    assert (Hlast : List.length (last out []) = List.length (last bs [])
                    /\ (bs <> [] -> 2 * n <= Buffer.size (last bs []))).
    { clear - Hlen H2. revert H2.
      induction Hlen as [|b b' l l' Hl Hrest IH]; intros H2; [split; [reflexivity|congruence]|].
      apply Forall_cons_iff in H2. destruct H2 as [Hb H2].
      destruct Hrest as [|b2 b2' l l' Hl2 Hrest].
      - cbn [last]. split; [exact Hl|intros _; exact Hb].
      - specialize (IH H2). cbn [last] in IH |- *.
        split; [exact (proj1 IH)|]. intros _. apply (proj2 IH). discriminate. }
    destruct Hlast as [Hl Hb].
    assert (Hne : bs <> []).
    { intros E. unfold comm_size in Hs. apply (f_equal (@List.length _)) in E.
      unfold bs in E. rewrite length_map in E. cbn in E. lia. }
    specialize (Hb Hne).
    assert (Hsz : Buffer.size (last out []) = Buffer.size (last bs []))
      by (unfold Buffer.size; congruence).
    rewrite Hsz. rewrite !slice_ok by lia. f_equal.
    replace (Z.to_nat (Buffer.size (last bs []) - n))
      with (List.length (last bs []) - Z.to_nat n - Z.to_nat n + Z.to_nat n)%nat
      by (unfold Buffer.size in *; lia).
    rewrite <- !skipn_skipn. rewrite Hkeep. reflexivity.
Qed.

Lemma halo_exchange_writes_halo_slots_only_witness :
  exists out,
    communicate_boundary_all 2
      [ (make_offsets 2 4, [1;2;3;4]); (make_offsets 2 6, [10;20;30;40;50;60]);
        (make_offsets 2 4, [5;6;7;8]) ] = Some out
    /\ Forall2 (fun w b' =>
                  Buffer.size b' = Buffer.size (snd w)
                  /\ slice b' 2 (Buffer.size b' - 2 * 2)
                     = slice (snd w) 2 (Buffer.size (snd w) - 2 * 2))
               [ (make_offsets 2 4, [1;2;3;4]); (make_offsets 2 6, [10;20;30;40;50;60]);
                 (make_offsets 2 4, [5;6;7;8]) ] out
    /\ slice (hd [] out) 0 2
       = slice (hd [] (map snd
           [ (make_offsets 2 4, [1;2;3;4]); (make_offsets 2 6, [10;20;30;40;50;60]);
             (make_offsets 2 4, [5;6;7;8]) ])) 0 2
    /\ slice (last out []) (Buffer.size (last out []) - 2) 2
       = slice (last (map snd
           [ (make_offsets 2 4, [1;2;3;4]); (make_offsets 2 6, [10;20;30;40;50;60]);
             (make_offsets 2 4, [5;6;7;8]) ]) [])
               (Buffer.size (last (map snd
           [ (make_offsets 2 4, [1;2;3;4]); (make_offsets 2 6, [10;20;30;40;50;60]);
             (make_offsets 2 4, [5;6;7;8]) ]) []) - 2) 2.
Proof.
  apply (halo_exchange_writes_halo_slots_only 2
           [ (make_offsets 2 4, [1;2;3;4]); (make_offsets 2 6, [10;20;30;40;50;60]);
             (make_offsets 2 4, [5;6;7;8]) ]).
  - split; [lia|reflexivity].
  - cbn. lia.
  - repeat constructor; cbn; lia.
  - cbn. lia.
Defined.

(** After the exchange the halo slots mirror the neighbours: the trailing
    halo row of a rank is the first interior row of the next rank, and the
    leading halo row of the next rank is the last interior row of this
    one. *)
Theorem exchanged_halos_mirror_neighbours {T : Type} (n : Z)
    (world : list (offsets * list T)) :
  0 <= n < 2 ^ 31 -> 2 <= comm_size world ->
  Forall (fun w => fst w = make_offsets n (Buffer.size (snd w))
                   /\ 2 * n <= Buffer.size (snd w) < 2 ^ 64) world ->
  all_but_last (fun w => 3 * n <= Buffer.size (snd w)) (tl world) ->
  exists out,
    communicate_boundary_all n world = Some out
    /\ forall (k : nat) (lo hi : list T),
         nth_error out k = Some lo -> nth_error out (S k) = Some hi ->
         exists down up,
           slice lo (Buffer.size lo - n) n = Some down
           /\ slice hi n n = Some down
           /\ slice hi 0 n = Some up
           /\ slice lo (Buffer.size lo - 2 * n) n = Some up.
Proof.
  intros Hn Hs Hw H3.
  pose proof (communicate_boundary_all_by_rank n world Hn Hs Hw H3) as Hrun.
  pose proof (world_roomy n world Hs Hw H3) as Hroomy.
  eexists. split; [exact Hrun|].
  intros k lo hi Hlo Hhi.
  assert (Hn0 : 0 <= n) by lia.
  destruct (exchange_rows_mirror n Hn0 _ _ _ _ _ Hroomy Hlo Hhi)
    as (Hl2 & Hh2 & Hdown & Hup).
  exists (first_interior_row n hi), (last_interior_row n lo).
  rewrite !slice_ok by lia.
  split; [|split; [reflexivity|split; [|reflexivity]]].
  - f_equal.
    replace (Z.to_nat (Buffer.size lo - n)) with (List.length lo - Z.to_nat n)%nat
      by (unfold Buffer.size; lia).
    rewrite Hdown. apply firstn_all2.
    rewrite first_interior_row_length by lia. lia.
  - f_equal. cbn [Z.to_nat skipn]. exact Hup.
Qed.

Lemma exchanged_halos_mirror_neighbours_witness :
  exists out,
    communicate_boundary_all 2
      [ (make_offsets 2 4, [1;2;3;4]); (make_offsets 2 6, [10;20;30;40;50;60]);
        (make_offsets 2 4, [5;6;7;8]) ] = Some out
    /\ forall (k : nat) (lo hi : list Z),
         nth_error out k = Some lo -> nth_error out (S k) = Some hi ->
         exists down up,
           slice lo (Buffer.size lo - 2) 2 = Some down
           /\ slice hi 2 2 = Some down
           /\ slice hi 0 2 = Some up
           /\ slice lo (Buffer.size lo - 2 * 2) 2 = Some up.
Proof.
  apply (exchanged_halos_mirror_neighbours 2
           [ (make_offsets 2 4, [1;2;3;4]); (make_offsets 2 6, [10;20;30;40;50;60]);
             (make_offsets 2 4, [5;6;7;8]) ]).
  - split; [lia|reflexivity].
  - cbn. lia.
  - repeat constructor; cbn; lia.
  - cbn. lia.
Defined.

(** A second call of [communicate_boundary] right after the first changes
    nothing: every halo slot already holds the row it is sent. *)
Theorem second_halo_exchange_changes_nothing {T : Type} (n : Z)
    (world : list (offsets * list T)) :
  0 <= n < 2 ^ 31 -> 2 <= comm_size world ->
  Forall (fun w => fst w = make_offsets n (Buffer.size (snd w))
                   /\ 2 * n <= Buffer.size (snd w) < 2 ^ 64) world ->
  all_but_last (fun w => 3 * n <= Buffer.size (snd w)) (tl world) ->
  exists out,
    communicate_boundary_all n world = Some out
    /\ communicate_boundary_all n (combine (map fst world) out) = Some out.
Proof.
  intros Hn Hs Hw H3.
  pose proof (communicate_boundary_all_by_rank n world Hn Hs Hw H3) as Hrun.
  pose proof (exchanged_lengths n world Hn Hs Hw H3) as Hlen.
  pose proof (world_roomy n world Hs Hw H3) as Hroomy.
  set (out := exchange_rows n None (map snd world)) in *.
  exists out. split; [exact Hrun|].
  pose proof (Forall2_rebuffered world out Hlen) as Hsame.
  set (world' := combine (map fst world) out) in *.
  assert (Hout : map snd world' = out).
  { unfold world'. apply map_snd_combine_eq.
    rewrite length_map. rewrite <- (Forall2_length Hlen). now rewrite length_map. }
  assert (Hs' : 2 <= comm_size world')
    by (unfold comm_size in *; now rewrite <- (Forall2_length Hsame)).
  assert (Hw' : Forall (fun w => fst w = make_offsets n (Buffer.size (snd w))
                                 /\ 2 * n <= Buffer.size (snd w) < 2 ^ 64) world').
  { eapply Forall_Forall2; [|exact Hsame|exact Hw].
    cbv beta. intros w w' [R1 R2] P. rewrite R1, R2. exact P. }
  assert (H3' : all_but_last (fun w => 3 * n <= Buffer.size (snd w)) (tl world')).
  { eapply all_but_last_Forall2; [|exact (Forall2_tl _ _ _ Hsame)|exact H3].
    cbv beta. intros w w' [R1 R2] P. rewrite R2. exact P. }
  rewrite (communicate_boundary_all_by_rank n world' Hn Hs' Hw' H3').
  rewrite Hout. unfold out. f_equal. apply exchange_rows_twice; [lia|exact Hroomy].
Qed.

Lemma second_halo_exchange_changes_nothing_witness :
  exists out,
    communicate_boundary_all 2
      [ (make_offsets 2 4, [1;2;3;4]); (make_offsets 2 6, [10;20;30;40;50;60]);
        (make_offsets 2 4, [5;6;7;8]) ] = Some out
    /\ communicate_boundary_all 2
         (combine (map fst
            [ (make_offsets 2 4, [1;2;3;4]); (make_offsets 2 6, [10;20;30;40;50;60]);
              (make_offsets 2 4, [5;6;7;8]) ]) out) = Some out.
Proof.
  apply (second_halo_exchange_changes_nothing 2
           [ (make_offsets 2 4, [1;2;3;4]); (make_offsets 2 6, [10;20;30;40;50;60]);
             (make_offsets 2 4, [5;6;7;8]) ]).
  - split; [lia|reflexivity].
  - cbn. lia.
  - repeat constructor; cbn; lia.
  - cbn. lia.
Defined.
